(** * The BEF to MLIR converter (bef_to_mlir.cc), embedded in Rocq

    The converter reads a BEF file in three phases: the tables (strings,
    types, attributes, kernel names, function index), the function bodies
    (one region per function, nested regions left unresolved) and the
    resolution of functions into top level functions or nested regions.

    Conventions of the embedding:
    - a byte is a [Z] in [0, 256); a [size_t] is a [Z] wrapped at 2^64, an
      [int] a [Z] wrapped to 32 signed bits where the code converts;
    - an [ArrayRef<uint8_t>] is the address of its first byte (an offset from
      the start of the input buffer) and its bytes;
    - [mlir::LogicalResult] and the [bool] of the reader are the [Failure]
      case of [Res]; a failed [assert], [std::vector::at] out of range,
      [Optional::getValue] on [None], [llvm_unreachable] and a read outside an
      array are [Abort]: the call does not return;
    - the diagnostics issued through [mlir::emitError] / [mlir::emitWarning]
      are a log threaded through the calls, in order of issuance. *)

From stdpp Require Import base numbers option list strings gmap.
From Stdlib Require Import ZArith Lia DecimalString.

Set Warnings "-register-all".
Local Open Scope Z_scope.

(** ** Results and the diagnostics log *)

Inductive Res (A : Type) : Type :=
| Ok (a : A)
| Failure
| Abort.
Arguments Ok {A} a.
Arguments Failure {A}.
Arguments Abort {A}.

Inductive Severity := SevError | SevWarning.

Inductive Location :=
| UnknownLoc
| FileLineColLoc (filename : string) (line column : Z)
| CallerLoc (tag : Z).

Record Diagnostic := mkDiag {
  diag_severity : Severity;
  diag_loc : Location;
  diag_message : string;
}.

(** A call that may issue diagnostics: the log goes in and comes out. *)
Definition M (A : Type) : Type := list Diagnostic -> Res A * list Diagnostic.

Definition Mret_ {A} (a : A) : M A := fun d => (Ok a, d).
Definition Mbind_ {A B} (f : A -> M B) (m : M A) : M B :=
  fun d => match m d with
           | (Ok a, d') => f a d'
           | (Failure, d') => (Failure, d')
           | (Abort, d') => (Abort, d')
           end.
Global Instance M_ret : MRet M := @Mret_.
Global Instance M_bind : MBind M := @Mbind_.

Definition fail_ {A} : M A := fun d => (Failure, d).
Definition abort_ {A} : M A := fun d => (Abort, d).
Definition lift_res {A} (r : Res A) : M A := fun d => (r, d).

Definition EmitError (loc : Location) (message : string) : M unit :=
  fun d => (Ok tt, d ++ [mkDiag SevError loc message]).
Definition EmitWarning (loc : Location) (message : string) : M unit :=
  fun d => (Ok tt, d ++ [mkDiag SevWarning loc message]).

(** The [emit_error] lambdas: report [message] and return the null result. *)
Definition emit_error_at {A} (loc : Location) (message : string) : M A :=
  fun d => (Failure, d ++ [mkDiag SevError loc message]).

(** [if (failed(m)) return emit_error(message);] *)
Definition or_error_at {A} (loc : Location) (m : M A) (message : string) : M A :=
  fun d => match m d with
           | (Failure, d') => emit_error_at loc message d'
           | r => r
           end.

(** ** Machine integers *)

Definition wrap64 (x : Z) : Z := x mod 2 ^ 64.
Definition shl64 (x n : Z) : Z := wrap64 (Z.shiftl x n).

(** Conversion of an unsigned value to [int] (32 bits, two's complement). *)
Definition to_int (x : Z) : Z :=
  let y := x mod 2 ^ 32 in if y <? 2 ^ 31 then y else y - 2 ^ 32.

(** [index < v.size()] for an [int] index and an unsigned size: the index is
    converted to unsigned, so a negative one is never in range. *)
Definition vector_get {A} (v : list A) (index : Z) : option A :=
  if (0 <=? index) && (index <? Z.of_nat (length v))
  then v !! Z.to_nat index else None.

Definition string_of_bytes (l : list Z) : string :=
  fold_right (fun b s => String (Ascii.ascii_of_N (Z.to_N b)) s) EmptyString l.

(** [llvm::utostr]. *)
Definition utostr (n : nat) : string :=
  NilZero.string_of_uint (Nat.to_uint n).

(** ** Byte arrays and the byte reader *)

Record ArrayRef := mkArrayRef {
  data : Z;
  elems : list Z;
}.

Definition empty_ref : ArrayRef := mkArrayRef 0 [].
Definition ref_size (a : ArrayRef) : Z := Z.of_nat (length (elems a)).
Definition ref_empty (a : ArrayRef) : bool :=
  match elems a with [] => true | _ => false end.

(** [ArrayRef::drop_front(n)], which asserts [size() >= n]. *)
Definition drop_front (a : ArrayRef) (n : Z) : Res ArrayRef :=
  if (0 <=? n) && (n <=? ref_size a)
  then Ok (mkArrayRef (data a + n) (drop (Z.to_nat n) (elems a)))
  else Abort.

(** [ArrayRef::operator[]], which asserts the index is in range. *)
Definition ref_at (a : ArrayRef) (i : Z) : Res Z :=
  match vector_get (elems a) i with
  | Some b => Ok b
  | None => Abort
  end.

Module BEFReader.

(** Modelled from the spec: tfrt/support/bef_reader.h is not among the
    sources. The reader is a cursor over a byte slice; every read checks
    that enough bytes remain and fails otherwise; [ReadInt] is the
    variable-byte integer with 7-bit groups, least significant group
    first, the high bit of a byte meaning that more bytes follow;
    [ReadAlignment n] advances to the next multiple of [n], ignoring the
    padding; [ReadSection] reads a one byte id and a varint length and
    borrows the payload; [ReadInt8] reads eight bytes. *)
Definition t := ArrayRef.

Definition Empty (r : t) : bool := ref_empty r.

Definition ReadByte (r : t) : option Z * t :=
  match elems r with
  | [] => (None, r)
  | b :: rest => (Some b, mkArrayRef (data r + 1) rest)
  end.

Fixpoint ReadInt_loop (bytes : list Z) (addr : Z) (shift : Z) (value : Z)
  : option Z * t :=
  match bytes with
  | [] => (None, mkArrayRef addr [])
  | b :: rest =>
      let value := wrap64 (Z.lor value (Z.shiftl (Z.land b 127) shift)) in
      if bool_decide (Z.land b 128 = 0)
      then (Some value, mkArrayRef (addr + 1) rest)
      else ReadInt_loop rest (addr + 1) (shift + 7) value
  end.

Definition ReadInt (r : t) : option Z * t :=
  ReadInt_loop (elems r) (data r) 0 0.

Fixpoint ReadAlignment_loop (alignment : Z) (bytes : list Z) (addr : Z)
  : option unit * t :=
  if bool_decide (addr mod alignment = 0)
  then (Some tt, mkArrayRef addr bytes)
  else match bytes with
       | [] => (None, mkArrayRef addr [])
       | _ :: rest => ReadAlignment_loop alignment rest (addr + 1)
       end.

Definition ReadAlignment (r : t) (alignment : Z) : option unit * t :=
  ReadAlignment_loop alignment (elems r) (data r).

(** The payload is borrowed; the cursor stays at its first byte until
    [SkipPast] moves it. *)
Definition ReadSection (r : t) : option (Z * ArrayRef) * t :=
  match ReadByte r with
  | (None, r) => (None, r)
  | (Some section_id, r) =>
      match ReadInt r with
      | (None, r) => (None, r)
      | (Some len, r) =>
          if len <=? ref_size r
          then (Some (section_id,
                      mkArrayRef (data r) (take (Z.to_nat len) (elems r))), r)
          else (None, r)
      end
  end.

(** Moves the reading point to immediately after [section]. *)
Definition SkipPast (r : t) (section : ArrayRef) : t :=
  let n := data section + ref_size section - data r in
  mkArrayRef (data r + n) (drop (Z.to_nat n) (elems r)).

Fixpoint ReadBytesLE (n : nat) (r : t) : option Z * t :=
  match n with
  | O => (Some 0, r)
  | S n' =>
      match ReadByte r with
      | (None, r) => (None, r)
      | (Some b, r) =>
          match ReadBytesLE n' r with
          | (None, r) => (None, r)
          | (Some v, r) => (Some (Z.lor b (Z.shiftl v 8)), r)
          end
      end
  end.

Definition ReadInt8 (r : t) : option Z * t := ReadBytesLE 8 r.

End BEFReader.

(** ** IR entities *)

Inductive MType :=
| IntegerType (width : Z)
| FloatType (width : Z)
| NoneType
| OpaqueType (text : string).

Global Instance MType_eq_dec : EqDecision MType.
Proof. solve_decision. Defined.

Inductive AttributeKind := kI1 | kI32 | kI64 | kF16 | kF32 | kF64.

(** A null [mlir::Attribute] is [None] of [option Attribute]. *)
Inductive Attribute :=
| IntegerAttr (type : MType) (bit_width : Z) (value : Z)
| FloatAttr (type : MType) (bits : Z)
| BoolAttr (b : bool)
| StringAttr (s : string)
| TypeAttr (t : MType)
| ArrayAttr (elements : list (option Attribute))
| DenseElementsAttr (shape : list Z) (dtype : MType)
                    (elements : list (option Attribute))
| UnitAttr
| SymbolRefAttr (name : string).

(** The identity of an operation: the function whose block it was created
    for and the number of operations created for that block before it. *)
Definition OpPtr : Type := nat * nat.

Inductive ValueDef :=
| BlockArgument (fn : nat) (index : nat)
| OpResult (op : OpPtr) (index : nat).

Record Value := mkValue {
  value_def : ValueDef;
  value_type : MType;
}.

Record Operation := mkOperation {
  op_ptr : OpPtr;
  op_name : string;
  op_loc : Location;
  op_operands : list Value;
  op_types : list MType;
  op_attributes : list (string * Attribute);
  op_num_regions : nat;
}.

(** [op->getResult(i)]. *)
Definition getResult (op : Operation) (i : nat) : Res Value :=
  match op_types op !! i with
  | Some ty => Ok (mkValue (OpResult (op_ptr op) i) ty)
  | None => Abort
  end.

(** A region with its single block: the block arguments and operations. *)
Record Region := mkRegion {
  region_fn : nat;
  region_arguments : list MType;
  region_ops : list Operation;
}.

Definition getArguments (r : Region) : list Value :=
  imap (fun i ty => mkValue (BlockArgument (region_fn r) i) ty)
       (region_arguments r).

(** ** Constants of the encoding *)

(** The constants and declarations of tfrt/support/bef_encoding.h that the
    spec does not fix, the type parser of MLIR, and the content of a local
    variable that is read before it is written. *)
Class BEFEncoding := {
  kBEFMagic1 : Z;
  kBEFMagic2 : Z;
  kBEFVersion0 : Z;
  (** [static_cast<AttributeKind>(byte)], [None] for any other enumerator *)
  AttributeKind_of_byte : Z -> option AttributeKind;
  (** the [offset] field of a four byte [AttributeDescriptor] *)
  descriptor_offset : Z -> Z;
  (** [mlir::parseType], a null type being [None] *)
  parseType : string -> option MType;
  (** what [uint8_t pseudo_op_non_strict;] holds in [ReadKernels] when the
      read that should fill it fails *)
  uninitialized_byte : Z;
}.

Module BEFSectionID.
(** Modelled from the spec: the section identifiers are the closed set
    FormatVersion, LocationFilenames, LocationPositions, Strings,
    Attributes, Kernels, Types, Functions, FunctionIndex, AttributeTypes,
    AttributeNames, RegisterTypes, fixed integers numbered here in that
    order; [kNumSectionIDs] is their number. *)
Definition kFormatVersion : Z := 0.
Definition kLocationFilenames : Z := 1.
Definition kLocationPositions : Z := 2.
Definition kStrings : Z := 3.
Definition kAttributes : Z := 4.
Definition kKernels : Z := 5.
Definition kTypes : Z := 6.
Definition kFunctions : Z := 7.
Definition kFunctionIndex : Z := 8.
Definition kAttributeTypes : Z := 9.
Definition kAttributeNames : Z := 10.
Definition kRegisterTypes : Z := 11.
Definition kNumSectionIDs : Z := 12.
End BEFSectionID.

Module AttributeTypeID.
(** Modelled from the spec: a descriptor's low bits are one of standard,
    bool, string, type, dense-elements, flat-array, offset-array (numbered
    here in that order, in three bits) and its high bits the payload. *)
Definition kStandardAttribute : Z := 0.
Definition kBoolAttribute : Z := 1.
Definition kStringAttribute : Z := 2.
Definition kTypeAttribute : Z := 3.
Definition kDenseElementsAttribute : Z := 4.
Definition kFlatArrayAttribute : Z := 5.
Definition kOffsetArrayAttribute : Z := 6.
Definition kAttributeTypeIDMask : Z := 7.
Definition kAttributeTypeIDShift : Z := 3.
End AttributeTypeID.

(** Modelled from the spec: a function's kind is BEF or Native, one byte. *)
Definition kBEFFunction : Z := 0.
Definition kNativeFunction : Z := 1.

(** Modelled from the spec: the marker byte of the AttributeNames stream is
    0 for none and 1 for non-strict. *)
Definition kUnknown : Z := 0.
Definition kNonStrict : Z := 1.

(** Modelled from the spec: kernel entries are 4-byte aligned. *)
Definition kKernelEntryAlignment : Z := 4.

(** ** BEFSections, BEFFunction, BEFFile *)

Module BEFSections.
Definition t := list ArrayRef.

Definition init : t :=
  replicate (Z.to_nat (BEFSectionID.kNumSectionIDs mod 256)) empty_ref.

(** [sections_.at(static_cast<uint8_t>(section_id))] *)
Definition Get (s : t) (section_id : Z) : Res ArrayRef :=
  match vector_get s (section_id mod 256) with
  | Some a => Ok a
  | None => Abort
  end.

Definition Set_ (s : t) (section_id : Z) (section_data : ArrayRef) : Res t :=
  match vector_get s (section_id mod 256) with
  | Some _ => Ok (<[Z.to_nat (section_id mod 256) := section_data]> s)
  | None => Abort
  end.
End BEFSections.

Record BEFFunction := mkBEFFunction {
  function_offset : Z;
  name : string;
  kind : Z;
  argument_types : list MType;
  result_types : list MType;
}.

Definition IsNamedFunction (f : BEFFunction) : bool :=
  negb (bool_decide (name f = EmptyString)).
Definition IsNativeFunction (f : BEFFunction) : bool :=
  bool_decide (kind f = kNativeFunction).

Record BEFFile := mkBEFFile {
  location : Location;
  location_filenames : list string;
  location_positions : gmap Z Location;
  strings : gmap Z string;
  attributes : gmap Z (option Attribute);
  kernels : list string;
  types : list (option MType);
  function_index : list BEFFunction;
}.

Definition new_BEFFile (loc : Location) : BEFFile :=
  mkBEFFile loc [] ∅ ∅ ∅ [] [] [].

Definition GetLocationFilename (f : BEFFile) (index : Z) : option string :=
  vector_get (location_filenames f) (to_int index).

Definition GetLocationPosition (f : BEFFile) (offset : Z) : option Location :=
  location_positions f !! offset.

Definition GetString (f : BEFFile) (offset : Z) : option string :=
  strings f !! offset.

(** [attributes.lookup(offset)]: the null attribute when there is none. *)
Definition GetAttribute (f : BEFFile) (offset : Z) : option Attribute :=
  match attributes f !! offset with
  | Some a => a
  | None => None
  end.

Definition GetType (f : BEFFile) (index : Z) : option MType :=
  match vector_get (types f) (to_int index) with
  | Some t => t
  | None => None
  end.

Definition GetFunction (f : BEFFile) (index : Z) : option BEFFunction :=
  vector_get (function_index f) (to_int index).

(** [DenseMap::insert]: an existing entry is kept. *)
Definition dense_insert {V} (k : Z) (v : V) (m : gmap Z V) : gmap Z V :=
  match m !! k with
  | Some _ => m
  | None => <[k := v]> m
  end.

(** Reads an integer N, and then the following N integer items. The loop
    stops at the first read that fails, which one of the first [N] reads
    does when fewer than [N] bytes remain. *)
Fixpoint ReadIntArray_items (n : nat) (r : BEFReader.t)
  : option (list Z) * BEFReader.t :=
  match n with
  | O => (Some [], r)
  | S n' =>
      match BEFReader.ReadInt r with
      | (None, r) => (None, r)
      | (Some item, r) =>
          match ReadIntArray_items n' r with
          | (None, r) => (None, r)
          | (Some items, r) => (Some (item :: items), r)
          end
      end
  end.

Definition ReadIntArray (r : BEFReader.t) : option (list Z) * BEFReader.t :=
  match BEFReader.ReadInt r with
  | (None, r) => (None, r)
  | (Some num_items, r) => ReadIntArray_items (Z.to_nat num_items) r
  end.

(** ** BEFAttributeReader *)

Module BEFAttributeReader.
Section reader.
Context `{BEFEncoding}.
(** The members [attributes_] and [bef_file_]. *)
Variable attributes_ : ArrayRef.
Variable bef_file_ : BEFFile.

Definition vbr_step (value byte : Z) : Z :=
  Z.lor (shl64 value 7) (Z.land byte 0x7F).

(** The loop of [ReadLength], entered with [offset] already decremented. *)
Fixpoint ReadLength_loop (offset : nat) (value : Z) : Res Z :=
  match ref_at attributes_ (Z.of_nat offset) with
  | Ok byte =>
      if bool_decide (Z.land byte 0x80 ≠ 0) then
        let value := vbr_step value byte in
        match offset with
        | O => Abort
        | S offset' => ReadLength_loop offset' value
        end
      else Ok (vbr_step value byte)
  | _ => Abort
  end.

Definition ReadLength (offset : Z) : Res Z :=
  if 0 <? offset
  then ReadLength_loop (Z.to_nat (offset - 1)) 0
  else Abort.

(** [reader->file().data() - attributes_.data()], after the assert that
    the reader is past the start of the attributes. *)
Definition offset_of (reader : BEFReader.t) : Res Z :=
  if data attributes_ <? data reader
  then Ok (data reader - data attributes_)
  else Abort.

Definition ReadIntegerAttribute (reader : BEFReader.t) (bit_width : Z)
  : M (option Z * BEFReader.t) :=
  let read num_bytes :=
    match BEFReader.ReadBytesLE num_bytes reader with
    | (None, reader) => mret (None, reader)
    | (Some value, reader) => mret (Some (value mod 2 ^ bit_width), reader)
    end in
  if bool_decide (bit_width = 1) then read 1%nat
  else if bool_decide (bit_width = 32) then read 4%nat
  else if bool_decide (bit_width = 64) then read 8%nat
  else
    _ ← EmitError (location bef_file_) "Unknown integer attribute width";
    mret (None, reader).

Definition ReadFloatAttribute (reader : BEFReader.t) (bit_width : Z)
  : M (option Z * BEFReader.t) :=
  if bool_decide (bit_width = 32) then ReadIntegerAttribute reader bit_width
  else
    _ ← EmitError (location bef_file_) "Unknown float attribute width";
    mret (None, reader).

(** [dyn_cast] on a null type asserts. *)
Definition ReadStandardAttribute (reader : BEFReader.t) (type : option MType)
  : M (option Attribute * BEFReader.t) :=
  match type with
  | None => abort_
  | Some (IntegerType width) =>
      '(int_attr, reader) ← ReadIntegerAttribute reader width;
      mret (IntegerAttr (IntegerType width) width <$> int_attr, reader)
  | Some (FloatType width) =>
      '(float_attr, reader) ← ReadFloatAttribute reader width;
      mret (FloatAttr (FloatType width) <$> float_attr, reader)
  | Some _ =>
      _ ← EmitError (location bef_file_) "Unknown standard attribute type";
      mret (None, reader)
  end.

Definition ReadBoolAttribute (reader : BEFReader.t)
  : M (option Attribute * BEFReader.t) :=
  match BEFReader.ReadByte reader with
  | (None, reader) => mret (None, reader)
  | (Some byte, reader) =>
      mret (Some (BoolAttr (negb (bool_decide (byte = 0)))), reader)
  end.

(** The characters are read from [&attributes_[offset]]; a string that
    runs past the end of the attributes is a read outside the array. *)
Definition ReadStringAttribute (reader : BEFReader.t)
  : M (option Attribute * BEFReader.t) :=
  offset ← lift_res (offset_of reader);
  length ← lift_res (ReadLength offset);
  _ ← lift_res (ref_at attributes_ offset);
  if offset + length <=? ref_size attributes_ then
    mret (Some (StringAttr (string_of_bytes
            (take (Z.to_nat length) (drop (Z.to_nat offset) (elems attributes_))))),
          reader)
  else abort_.

Definition DecodeTypeAttribute (encoded_dtype : Z) : Res MType :=
  match AttributeKind_of_byte encoded_dtype with
  | Some kI1 => Ok (IntegerType 1)
  | Some kI32 => Ok (IntegerType 32)
  | Some kI64 => Ok (IntegerType 64)
  | Some kF16 => Ok (FloatType 16)
  | Some kF32 => Ok (FloatType 32)
  | Some kF64 => Ok (FloatType 64)
  | None => Abort
  end.

Definition ReadTypeAttribute (reader : BEFReader.t)
  : M (option Attribute * BEFReader.t) :=
  match BEFReader.ReadByte reader with
  | (None, reader) => mret (None, reader)
  | (Some byte, reader) =>
      type ← lift_res (DecodeTypeAttribute byte);
      mret (Some (TypeAttr type), reader)
  end.

(** [n] times [elements.push_back(read(reader))]. *)
Fixpoint read_elements (n : nat)
    (read : BEFReader.t -> M (option Attribute * BEFReader.t))
    (reader : BEFReader.t) : M (list (option Attribute) * BEFReader.t) :=
  match n with
  | O => mret ([], reader)
  | S n' =>
      '(element, reader) ← read reader;
      '(elements, reader) ← read_elements n' read reader;
      mret (element :: elements, reader)
  end.

(** The descriptors of an offset array, four bytes each, least significant
    byte first. *)
Fixpoint read_descriptors (n : nat) (bytes : list Z) : Res (list Z) :=
  match n with
  | O => Ok []
  | S n' =>
      match bytes with
      | b0 :: b1 :: b2 :: b3 :: rest =>
          match read_descriptors n' rest with
          | Ok ds =>
              Ok (Z.lor b0 (Z.lor (Z.shiftl b1 8)
                    (Z.lor (Z.shiftl b2 16) (Z.shiftl b3 24))) :: ds)
          | r => r
          end
      | _ => Abort
      end
  end.

Definition ReadOffsetArrayAttribute (reader : BEFReader.t)
  : M (option Attribute * BEFReader.t) :=
  offset ← lift_res (offset_of reader);
  length ← lift_res (ReadLength offset);
  if bool_decide (length = 0) then mret (Some (ArrayAttr []), reader)
  else if wrap64 (length * 4 + offset) <=? ref_size attributes_ then
    element_descriptors ←
      lift_res (read_descriptors (Z.to_nat length) (elems reader));
    mret (Some (ArrayAttr
            ((fun d => GetAttribute bef_file_ (descriptor_offset d))
               <$> element_descriptors)), reader)
  else abort_.

Fixpoint read_dims (n : nat) (reader : BEFReader.t)
  : option (list Z) * BEFReader.t :=
  match n with
  | O => (Some [], reader)
  | S n' =>
      match BEFReader.ReadInt8 reader with
      | (None, reader) => (None, reader)
      | (Some dim, reader) =>
          match read_dims n' reader with
          | (None, reader) => (None, reader)
          | (Some dims, reader) => (Some (dim :: dims), reader)
          end
      end
  end.

Definition ReadDenseElementsAttribute (reader : BEFReader.t)
  : M (option Attribute * BEFReader.t) :=
  match BEFReader.ReadInt8 reader with
  | (None, reader) => mret (None, reader)
  | (Some dtype_and_shape_rank, reader) =>
      match BEFReader.ReadInt8 reader with
      | (None, reader) => mret (None, reader)
      | (Some elements_count, reader) =>
          dtype ← lift_res
            (DecodeTypeAttribute (Z.shiftr dtype_and_shape_rank 56));
          let shape_rank := Z.shiftr (shl64 dtype_and_shape_rank 8) 8 in
          match read_dims (Z.to_nat shape_rank) reader with
          | (None, reader) => mret (None, reader)
          | (Some shape_elts, reader) =>
              '(elements, reader) ←
                read_elements (Z.to_nat elements_count)
                  (fun reader => ReadStandardAttribute reader (Some dtype))
                  reader;
              mret (Some (DenseElementsAttr shape_elts dtype elements), reader)
          end
      end
  end.

(** [ReadAttribute] and [ReadFlatArrayAttribute] call each other; the
    element type of a flat array is the payload of its descriptor, three
    bits shorter, which [depth] counts. *)
Fixpoint ReadAttribute_rec (depth : nat) (reader : BEFReader.t)
    (attribute_type : Z) : M (option Attribute * BEFReader.t) :=
  let attribute_type_id :=
    Z.land attribute_type AttributeTypeID.kAttributeTypeIDMask in
  let payload := Z.shiftr attribute_type AttributeTypeID.kAttributeTypeIDShift in
  if bool_decide (attribute_type_id = AttributeTypeID.kStandardAttribute) then
    ReadStandardAttribute reader (GetType bef_file_ payload)
  else if bool_decide (attribute_type_id = AttributeTypeID.kBoolAttribute) then
    ReadBoolAttribute reader
  else if bool_decide (attribute_type_id = AttributeTypeID.kStringAttribute) then
    ReadStringAttribute reader
  else if bool_decide (attribute_type_id = AttributeTypeID.kTypeAttribute) then
    ReadTypeAttribute reader
  else if bool_decide
            (attribute_type_id = AttributeTypeID.kDenseElementsAttribute) then
    ReadDenseElementsAttribute reader
  else if bool_decide
            (attribute_type_id = AttributeTypeID.kFlatArrayAttribute) then
    (* ReadFlatArrayAttribute(reader, payload) *)
    offset ← lift_res (offset_of reader);
    length ← lift_res (ReadLength offset);
    if bool_decide (length = 0) then mret (Some (ArrayAttr []), reader)
    else
      match depth with
      | O => abort_
      | S depth' =>
          '(elements, reader) ←
            read_elements (Z.to_nat length)
              (fun reader => ReadAttribute_rec depth' reader payload) reader;
          mret (Some (ArrayAttr elements), reader)
      end
  else if bool_decide
            (attribute_type_id = AttributeTypeID.kOffsetArrayAttribute) then
    ReadOffsetArrayAttribute reader
  else
    _ ← EmitError (location bef_file_) "Unknown attribute type";
    mret (None, reader).

(** A [size_t] descriptor has 64 bits, so 22 nested payloads at most. *)
Definition ReadAttribute_reader (reader : BEFReader.t) (attribute_type : Z)
  : M (option Attribute * BEFReader.t) :=
  ReadAttribute_rec 22 reader attribute_type.

Definition ReadAttribute (attribute_type offset : Z) : M (option Attribute) :=
  reader ← lift_res (drop_front attributes_ offset);
  '(attr, _) ← ReadAttribute_reader reader attribute_type;
  mret attr.

End reader.
End BEFAttributeReader.

Global Instance Res_ret : MRet Res := @Ok.
Global Instance Res_bind : MBind Res := fun A B f r =>
  match r with
  | Ok a => f a
  | Failure => Failure
  | Abort => Abort
  end.

(** Field updates of [bef_file_]. *)
Definition with_location_filenames (f : BEFFile) v : BEFFile :=
  mkBEFFile (location f) v (location_positions f) (strings f) (attributes f)
            (kernels f) (types f) (function_index f).
Definition with_location_positions (f : BEFFile) v : BEFFile :=
  mkBEFFile (location f) (location_filenames f) v (strings f) (attributes f)
            (kernels f) (types f) (function_index f).
Definition with_strings (f : BEFFile) v : BEFFile :=
  mkBEFFile (location f) (location_filenames f) (location_positions f) v
            (attributes f) (kernels f) (types f) (function_index f).
Definition with_attributes (f : BEFFile) v : BEFFile :=
  mkBEFFile (location f) (location_filenames f) (location_positions f)
            (strings f) v (kernels f) (types f) (function_index f).
Definition with_kernels (f : BEFFile) v : BEFFile :=
  mkBEFFile (location f) (location_filenames f) (location_positions f)
            (strings f) (attributes f) v (types f) (function_index f).
Definition with_types (f : BEFFile) v : BEFFile :=
  mkBEFFile (location f) (location_filenames f) (location_positions f)
            (strings f) (attributes f) (kernels f) v (function_index f).
Definition with_function_index (f : BEFFile) v : BEFFile :=
  mkBEFFile (location f) (location_filenames f) (location_positions f)
            (strings f) (attributes f) (kernels f) (types f) v.

(** The bytes of a C string: those before the first NUL. *)
Fixpoint c_str (bytes : list Z) : list Z :=
  match bytes with
  | [] => []
  | b :: rest => if bool_decide (b = 0) then [] else b :: c_str rest
  end.


(** ** BEFKernel *)

Module BEFKernel.
(** Modelled from the spec: the class is declared in
    tfrt/support/bef_encoding.h. A kernel entry is, in 32-bit words,
    [name_handle, location_offset, num_arguments, num_attributes,
    num_functions, num_results, used_by_counts[num_results]] and then the
    flat stream of argument registers, attribute offsets, function
    indices, result registers and used-by entries, which
    [GetKernelEntries(offset, num)] addresses from its start. *)
Record t := mk {
  words : list Z;
  kernel_start : Z;
}.

Definition word (k : t) (i : Z) : Res Z :=
  match vector_get (words k) (kernel_start k + i) with
  | Some w => Ok w
  | None => Abort
  end.

Definition kernel_code (k : t) : Res Z := word k 0.
Definition kernel_location (k : t) : Res Z := word k 1.
Definition num_arguments (k : t) : Res Z := word k 2.
Definition num_attributes (k : t) : Res Z := word k 3.
Definition num_functions (k : t) : Res Z := word k 4.
Definition num_results (k : t) : Res Z := word k 5.

Definition num_used_bys (k : t) (result_number : Z) : Res Z :=
  n ← num_results k;
  if (0 <=? result_number) && (result_number <? n)
  then word k (6 + result_number) else Abort.

(** An [ArrayRef<uint32_t>] into the body: nothing is read until an entry
    is. The parameters are [int]s, the size of the result a [size_t]. *)
Record Entries := mkEntries {
  first : Z;
  size : Z;
}.

Definition GetKernelEntries (k : t) (offset num : Z) : Res Entries :=
  n ← num_results k;
  let num := to_int num in
  mret (mkEntries (6 + n + to_int offset)
                  (if num <? 0 then num + 2 ^ 64 else num)).

Definition entry (k : t) (e : Entries) (i : Z) : Res Z :=
  if (0 <=? i) && (i <? size e) then word k (first e + i) else Abort.

End BEFKernel.

(** The 32-bit words of a byte array, least significant byte first; the
    bytes after the last whole word are left out. *)
Fixpoint words_of_bytes (bytes : list Z) : list Z :=
  match bytes with
  | b0 :: b1 :: b2 :: b3 :: rest =>
      Z.lor b0 (Z.lor (Z.shiftl b1 8) (Z.lor (Z.shiftl b2 16) (Z.shiftl b3 24)))
      :: words_of_bytes rest
  | _ => []
  end.

Definition as_uint32_array (a : ArrayRef) : list Z :=
  words_of_bytes (elems a).

(** ** BEFFunctionReader *)

Module BEFFunctionReader.

Record RegisterInfo := mkRegisterInfo {
  type : MType;
  num_uses : Z;
  usedbys : BEFKernel.Entries;
  value : option Value;
}.

Record KernelTableEntry := mkKernelTableEntry {
  offset : Z;
  num_operands : Z;
}.

(** [mlir::OperationState]. *)
Record OperationState := mkState {
  st_operands : list Value;
  st_attributes : list (string * Attribute);
  st_regions : nat;
  st_types : list MType;
}.

(** The placeholder given to an attribute that is not in the file. *)
Definition dummy_attribute : Attribute :=
  IntegerAttr (IntegerType 32) 32 0xdeadbeef.

Section reader.
Context `{BEFEncoding}.
(** The members [bef_file_] and [bef_function_]; [fn] stands for the
    address of the block the reader fills. *)
Variable bef_file_ : BEFFile.
Variable bef_function_ : BEFFunction.
Variable fn : nat.

Definition emit_error {A} (message : string) : M A :=
  emit_error_at (location bef_file_) message.

(** [GetRegister(int register_index)]. *)
Definition GetRegister (register_table_ : list RegisterInfo)
    (register_index : Z) : Res RegisterInfo :=
  match vector_get register_table_ register_index with
  | Some reg_info => Ok reg_info
  | None => Abort
  end.

Definition AddDefinition (register_table_ : list RegisterInfo)
    (v : Value) (register_index : Z) : M (list RegisterInfo) :=
  reg_info ← lift_res (GetRegister register_table_ (to_int register_index));
  match value reg_info with
  | Some _ => emit_error "Redefinition of registers"
  | None =>
      if bool_decide (type reg_info = value_type v)
         || bool_decide (type reg_info = NoneType)
      then mret (<[Z.to_nat (to_int register_index) :=
                     mkRegisterInfo (type reg_info) (num_uses reg_info)
                                    (usedbys reg_info) (Some v)]>
                   register_table_)
      else abort_
  end.

Definition set_usedbys (register_table_ : list RegisterInfo)
    (register_index : Z) (e : BEFKernel.Entries) : Res (list RegisterInfo) :=
  reg_info ← GetRegister register_table_ register_index;
  mret (<[Z.to_nat register_index :=
            mkRegisterInfo (type reg_info) (num_uses reg_info) e
                           (value reg_info)]> register_table_).

(** The loop of [ReadRegisterTable] from index [i] on. *)
Fixpoint push_registers (i : nat) (reg_type_indices : list Z)
    (reg_uses : list Z) : Res (list RegisterInfo) :=
  match reg_uses with
  | [] => Ok []
  | uses :: reg_uses =>
      ty ← match reg_type_indices with
           | [] => Ok None
           | _ => match reg_type_indices !! i with
                  | Some index => Ok (GetType bef_file_ index)
                  | None => Abort
                  end
           end;
      rest ← push_registers (S i) reg_type_indices reg_uses;
      mret (mkRegisterInfo (default NoneType ty) uses
                           (BEFKernel.mkEntries 0 0) None :: rest)
  end.

Definition ReadRegisterTable (function_reader_ register_types : BEFReader.t)
  : Res (list RegisterInfo * BEFReader.t * BEFReader.t) :=
  let '(reg_type_indices, register_types) :=
    match ReadIntArray register_types with
    | (None, register_types) => ([], register_types)
    | (Some indices, register_types) => (indices, register_types)
    end in
  match ReadIntArray function_reader_ with
  | (None, _) => Failure
  | (Some reg_uses, function_reader_) =>
      if bool_decide (reg_type_indices = [])
         || bool_decide (length reg_type_indices = length reg_uses)
      then
        register_table_ ← push_registers 0 reg_type_indices reg_uses;
        mret (register_table_, function_reader_, register_types)
      else Abort
  end.

Fixpoint ReadKernelTable_loop (n : nat) (function_reader_ : BEFReader.t)
  : Res (list KernelTableEntry * BEFReader.t) :=
  match n with
  | O => Ok ([], function_reader_)
  | S n' =>
      match BEFReader.ReadInt function_reader_ with
      | (None, _) => Failure
      | (Some entry_offset, function_reader_) =>
      match BEFReader.ReadInt function_reader_ with
      | (None, _) => Failure
      | (Some entry_num_operands, function_reader_) =>
          '(entries, function_reader_) ←
            ReadKernelTable_loop n' function_reader_;
          mret (mkKernelTableEntry entry_offset entry_num_operands :: entries,
                function_reader_)
      end end
  end.

Definition ReadKernelTable (function_reader_ : BEFReader.t)
  : Res (list KernelTableEntry * BEFReader.t) :=
  match BEFReader.ReadInt function_reader_ with
  | (None, _) => Failure
  | (Some num_kernels, function_reader_) =>
      ReadKernelTable_loop (Z.to_nat num_kernels) function_reader_
  end.

(** [result_regs_] holds [int]s. *)
Fixpoint ReadResultRegs_loop (n : nat) (function_reader_ : BEFReader.t)
  : Res (list Z * BEFReader.t) :=
  match n with
  | O => Ok ([], function_reader_)
  | S n' =>
      match BEFReader.ReadInt function_reader_ with
      | (None, _) => Failure
      | (Some register_index, function_reader_) =>
          '(regs, function_reader_) ← ReadResultRegs_loop n' function_reader_;
          mret (to_int register_index :: regs, function_reader_)
      end
  end.

Definition ReadResultRegs (function_reader_ : BEFReader.t)
  : Res (list Z * BEFReader.t) :=
  ReadResultRegs_loop (length (result_types bef_function_)) function_reader_.

(** [for (auto register_index : arguments)], from entry [i] on. *)
Fixpoint resolve_arguments (n : nat) (kernel : BEFKernel.t)
    (arguments : BEFKernel.Entries) (i : Z)
    (register_table_ : list RegisterInfo) (operands : list Value)
  : M (list Value) :=
  match n with
  | O => mret operands
  | S n' =>
      register_index ← lift_res (BEFKernel.entry kernel arguments i);
      reg_info ← lift_res (GetRegister register_table_ (to_int register_index));
      match value reg_info with
      | None => emit_error "Using undefined registers."
      | Some v =>
          resolve_arguments n' kernel arguments (i + 1) register_table_
                            (operands ++ [v])
      end
  end.

(** The attributes of a kernel, from entry [i] on: the name is read from
    [attribute_names] when there is one, the attribute looked up in the
    file. *)
Fixpoint resolve_attributes (n : nat) (kernel : BEFKernel.t)
    (attributes_ : BEFKernel.Entries) (i : Z) (attribute_names : BEFReader.t)
    (attrs : list (string * Attribute))
  : Res (list (string * Attribute) * BEFReader.t) :=
  match n with
  | O => Ok (attrs, attribute_names)
  | S n' =>
      attribute_offset ← BEFKernel.entry kernel attributes_ i;
      let dummy_name := "attr" +:+ utostr (Z.to_nat i) in
      let '(attr_name, attribute_names) :=
        match BEFReader.ReadInt attribute_names with
        | (None, attribute_names) => (dummy_name, attribute_names)
        | (Some attribute_name_offset, attribute_names) =>
            (default dummy_name (GetString bef_file_ attribute_name_offset),
             attribute_names)
        end in
      let attr :=
        match GetAttribute bef_file_ attribute_offset with
        | Some attr => attr
        | None => dummy_attribute
        end in
      resolve_attributes n' kernel attributes_ (i + 1) attribute_names
                         (attrs ++ [(attr_name, attr)])
  end.

(** The function references of a kernel, from entry [i] on; [indices]
    collects the entries read. *)
Fixpoint resolve_functions (n : nat) (kernel : BEFKernel.t)
    (functions : BEFKernel.Entries) (i : Z)
    (attrs : list (string * Attribute)) (regions : nat) (indices : list Z)
  : M (list (string * Attribute) * nat * list Z) :=
  match n with
  | O => mret (attrs, regions, indices)
  | S n' =>
      fn_idx ← lift_res (BEFKernel.entry kernel functions i);
      match GetFunction bef_file_ fn_idx with
      | None => emit_error "Unknown callee."
      | Some bef_function =>
          if IsNamedFunction bef_function then
            resolve_functions n' kernel functions (i + 1)
              (attrs ++ [("callee", SymbolRefAttr (name bef_function))])
              regions (indices ++ [fn_idx])
          else
            resolve_functions n' kernel functions (i + 1) attrs
              (S regions) (indices ++ [fn_idx])
      end
  end.

Fixpoint resolve_results (n : nat) (kernel : BEFKernel.t)
    (results : BEFKernel.Entries) (i : Z)
    (register_table_ : list RegisterInfo) (types_ : list MType)
  : Res (list MType) :=
  match n with
  | O => Ok types_
  | S n' =>
      register_index ← BEFKernel.entry kernel results i;
      reg_info ← GetRegister register_table_ (to_int register_index);
      resolve_results n' kernel results (i + 1) register_table_
                      (types_ ++ [type reg_info])
  end.

(** The definitions of the results of [op], from result [i] on. *)
Fixpoint add_definitions (n : nat) (kernel : BEFKernel.t)
    (results : BEFKernel.Entries) (op : Operation) (i : Z) (entry_offset : Z)
    (register_table_ : list RegisterInfo) : M (list RegisterInfo) :=
  match n with
  | O => mret register_table_
  | S n' =>
      register_index ← lift_res (BEFKernel.entry kernel results i);
      v ← lift_res (getResult op (Z.to_nat i));
      register_table_ ← AddDefinition register_table_ v register_index;
      num_used_bys ← lift_res (BEFKernel.num_used_bys kernel i);
      e ← lift_res (BEFKernel.GetKernelEntries kernel entry_offset num_used_bys);
      register_table_ ←
        lift_res (set_usedbys register_table_ (to_int register_index) e);
      add_definitions n' kernel results op (i + 1)
                      (to_int (entry_offset + num_used_bys)) register_table_
  end.

(** [op_id] stands for the address that [mlir::Operation::create] returns. *)
Definition ReadKernel (kernels_ : list Z) (offset_ : Z) (op_id : OpPtr)
    (register_table_ : list RegisterInfo) (attribute_names : BEFReader.t)
    (region_references_ : list (Operation * list Z))
  : M (Operation * list RegisterInfo * BEFReader.t
       * list (Operation * list Z)) :=
  if negb (bool_decide (offset_ mod kKernelEntryAlignment = 0)) then abort_ else
  let kernel := BEFKernel.mk kernels_ (offset_ / kKernelEntryAlignment) in
  kernel_code ← lift_res (BEFKernel.kernel_code kernel);
  name_ ← lift_res (match vector_get (kernels bef_file_) kernel_code with
                    | Some n => Ok n
                    | None => Abort
                    end);
  kernel_location ← lift_res (BEFKernel.kernel_location kernel);
  location_ ← lift_res (match GetLocationPosition bef_file_ kernel_location with
                        | Some l => Ok l
                        | None => Abort
                        end);
  (* Resolve arguments *)
  let entry_offset := 0 in
  num_arguments ← lift_res (BEFKernel.num_arguments kernel);
  arguments ← lift_res (BEFKernel.GetKernelEntries kernel entry_offset num_arguments);
  operands ← resolve_arguments (Z.to_nat (BEFKernel.size arguments)) kernel
               arguments 0 register_table_ [];
  (* Resolve special attributes *)
  let '(attrs, attribute_names) :=
    match BEFReader.ReadByte attribute_names with
    | (None, attribute_names) => ([], attribute_names)
    | (Some special_attribute, attribute_names) =>
        (if bool_decide (special_attribute = kNonStrict)
         then [("bef.nonstrict", UnitAttr)] else [], attribute_names)
    end in
  (* Resolve attributes *)
  let entry_offset := to_int (entry_offset + BEFKernel.size arguments) in
  num_attributes ← lift_res (BEFKernel.num_attributes kernel);
  attributes_ ← lift_res (BEFKernel.GetKernelEntries kernel entry_offset num_attributes);
  '(attrs, attribute_names) ←
    lift_res (resolve_attributes (Z.to_nat (BEFKernel.size attributes_)) kernel
                attributes_ 0 attribute_names attrs);
  (* Resolve function references *)
  let entry_offset := to_int (entry_offset + BEFKernel.size attributes_) in
  num_functions ← lift_res (BEFKernel.num_functions kernel);
  functions ← lift_res (BEFKernel.GetKernelEntries kernel entry_offset num_functions);
  '(attrs, regions, function_indices) ←
    resolve_functions (Z.to_nat (BEFKernel.size functions)) kernel functions 0
                      attrs 0%nat [];
  (* Resolve results *)
  let entry_offset := to_int (entry_offset + BEFKernel.size functions) in
  num_results ← lift_res (BEFKernel.num_results kernel);
  results ← lift_res (BEFKernel.GetKernelEntries kernel entry_offset num_results);
  types_ ← lift_res (resolve_results (Z.to_nat (BEFKernel.size results)) kernel
                       results 0 register_table_ []);
  let op := mkOperation op_id name_ location_ operands types_ attrs regions in
  (* Add definitions. *)
  let entry_offset := to_int (entry_offset + BEFKernel.size results) in
  register_table_ ←
    add_definitions (Z.to_nat (BEFKernel.size results)) kernel results op 0
                    entry_offset register_table_;
  (* Nested regions will be resolved after all functions are processed. *)
  if bool_decide (0 < op_num_regions op)%nat then
    if bool_decide (Z.of_nat (op_num_regions op) = BEFKernel.size functions)
    then mret (op, register_table_, attribute_names,
               region_references_ ++ [(op, function_indices)])
    else abort_
  else mret (op, register_table_, attribute_names, region_references_).

(** The first loop of [ReadArgumentsPseudoKernel]. *)
Fixpoint define_arguments (kernel : BEFKernel.t) (results : BEFKernel.Entries)
    (i : Z) (entry_arguments : list Value)
    (register_table_ : list RegisterInfo) : M (list RegisterInfo) :=
  match entry_arguments with
  | [] => mret register_table_
  | arg :: entry_arguments =>
      register_index ← lift_res (BEFKernel.entry kernel results i);
      register_table_ ← AddDefinition register_table_ arg register_index;
      define_arguments kernel results (i + 1) entry_arguments register_table_
  end.

(** Its second loop. *)
Fixpoint read_usedbys (n : nat) (kernel : BEFKernel.t)
    (results : BEFKernel.Entries) (i : Z) (entry_offset : Z)
    (register_table_ : list RegisterInfo) : Res (list RegisterInfo) :=
  match n with
  | O => Ok register_table_
  | S n' =>
      register_index ← BEFKernel.entry kernel results i;
      num_used_bys ← BEFKernel.num_used_bys kernel i;
      e ← BEFKernel.GetKernelEntries kernel entry_offset num_used_bys;
      register_table_ ← set_usedbys register_table_ (to_int register_index) e;
      read_usedbys n' kernel results (i + 1)
                   (to_int (entry_offset + num_used_bys)) register_table_
  end.

Definition ReadArgumentsPseudoKernel (kernels_ : list Z)
    (entry_arguments : list Value) (register_table_ : list RegisterInfo)
  : M (list RegisterInfo) :=
  let kernel := BEFKernel.mk kernels_ 0 in
  num_arguments ← lift_res (BEFKernel.num_arguments kernel);
  num_attributes ← lift_res (BEFKernel.num_attributes kernel);
  num_functions ← lift_res (BEFKernel.num_functions kernel);
  num_results ← lift_res (BEFKernel.num_results kernel);
  if negb (bool_decide (num_arguments = 0) && bool_decide (num_attributes = 0)
           && bool_decide (num_functions = 0)
           && bool_decide (num_results = Z.of_nat (length entry_arguments)))
  then abort_ else
  (* Read results. *)
  let entry_offset := 0 in
  results ← lift_res (BEFKernel.GetKernelEntries kernel entry_offset num_results);
  register_table_ ←
    define_arguments kernel results 0
      (take (Z.to_nat (BEFKernel.size results)) entry_arguments) register_table_;
  (* Read usedbys. *)
  let entry_offset := to_int (entry_offset + BEFKernel.size results) in
  lift_res (read_usedbys (Z.to_nat (BEFKernel.size results)) kernel results 0
              entry_offset register_table_).

Definition or_error {A} (m : M A) (message : string) : M A :=
  or_error_at (location bef_file_) m message.

(** [for (int i = kernel_start; i < kernel_table_.size(); ++i)]. *)
Fixpoint ReadKernels_loop (entries : list KernelTableEntry) (kernels_ : list Z)
    (ops : list Operation) (register_table_ : list RegisterInfo)
    (attribute_names : BEFReader.t)
    (region_references_ : list (Operation * list Z))
  : M (list Operation * list RegisterInfo * BEFReader.t
       * list (Operation * list Z)) :=
  match entries with
  | [] => mret (ops, register_table_, attribute_names, region_references_)
  | e :: entries =>
      '(op, register_table_, attribute_names, region_references_) ←
        ReadKernel kernels_ (offset e) (fn, length ops) register_table_
                   attribute_names region_references_;
      ReadKernels_loop entries kernels_ (ops ++ [op]) register_table_
                       attribute_names region_references_
  end.

(** The operands of the return op. *)
Fixpoint return_operands (result_regs_ : list Z)
    (register_table_ : list RegisterInfo) (operands : list Value)
  : M (list Value) :=
  match result_regs_ with
  | [] => mret operands
  | result_reg_index :: result_regs_ =>
      reg_info ← lift_res (GetRegister register_table_ result_reg_index);
      match value reg_info with
      | None =>
          emit_error "Using an undefined register in return op."
      | Some result =>
          return_operands result_regs_ register_table_ (operands ++ [result])
      end
  end.

Definition ReadKernels (kernels_ : list Z) (attribute_names : BEFReader.t)
    (block_arguments : list Value) (location_ : Location)
    (register_table_ : list RegisterInfo)
    (kernel_table_ : list KernelTableEntry) (result_regs_ : list Z)
    (region_references_ : list (Operation * list Z))
  : M (list Operation * BEFReader.t * list (Operation * list Z)) :=
  attribute_names ←
    match BEFReader.ReadInt attribute_names with
    | (Some num_kernels, attribute_names) =>
        if bool_decide (num_kernels = Z.of_nat (length kernel_table_))
        then mret attribute_names else abort_
    | (None, attribute_names) => mret attribute_names
    end;
  '(kernel_start, register_table_, attribute_names) ←
    match block_arguments with
    | [] => mret (0%nat, register_table_, attribute_names)
    | _ =>
        register_table_ ←
          or_error (ReadArgumentsPseudoKernel kernels_ block_arguments
                                              register_table_)
                   "Failed to read pseudo.";
        (* pseudo op must not be bef.nonstrict. *)
        match BEFReader.ReadByte attribute_names with
        | (None, attribute_names) =>
            if bool_decide (uninitialized_byte = kUnknown)
            then mret (1%nat, register_table_, attribute_names) else abort_
        | (Some _, attribute_names) =>
            mret (1%nat, register_table_, attribute_names)
        end
    end;
  '(ops, register_table_, attribute_names, region_references_) ←
    ReadKernels_loop (drop kernel_start kernel_table_) kernels_ []
                     register_table_ attribute_names region_references_;
  (* All functions end with a return op. *)
  operands ← return_operands result_regs_ register_table_ [];
  let return_op :=
    mkOperation (fn, length ops) "hex.return" location_ operands [] [] 0 in
  mret (ops ++ [return_op], attribute_names, region_references_).

Definition ReadFunction (function_reader_ : BEFReader.t)
    (attribute_names register_types : BEFReader.t)
    (region_references_ : list (Operation * list Z))
  : M (Location * Region * BEFReader.t * BEFReader.t
       * list (Operation * list Z)) :=
  (* Read function location. *)
  match BEFReader.ReadInt function_reader_ with
  | (None, _) => emit_error "Failed to read function location"
  | (Some location_position_offset, function_reader_) =>
  match GetLocationPosition bef_file_ location_position_offset with
  | None => emit_error "Failed to read function location"
  | Some location_ =>
      '(register_table_, function_reader_, register_types) ←
        or_error (lift_res (ReadRegisterTable function_reader_ register_types))
                 "Failed to read register table.";
      '(kernel_table_, function_reader_) ←
        or_error (lift_res (ReadKernelTable function_reader_))
                 "Failed to read kernel table.";
      '(result_regs_, function_reader_) ←
        or_error (lift_res (ReadResultRegs function_reader_))
                 "Failed to read result regs.";
      (* Create a region body for this function. *)
      let region := mkRegion fn (argument_types bef_function_) [] in
      (* Kernels are 4-byte aligned. *)
      '(ops, attribute_names, region_references_) ←
        or_error
          (match BEFReader.ReadAlignment function_reader_
                   kKernelEntryAlignment with
           | (None, _) => fail_
           | (Some _, function_reader_) =>
               ReadKernels (as_uint32_array function_reader_) attribute_names
                 (getArguments region) location_ register_table_
                 kernel_table_ result_regs_ region_references_
           end)
          "Failed to read kernels.";
      mret (location_, mkRegion fn (argument_types bef_function_) ops,
            attribute_names, register_types, region_references_)
  end end.

End reader.
End BEFFunctionReader.

(** ** The module and the function context *)

Record FuncOp := mkFuncOp {
  func_loc : Location;
  func_name : string;
  func_argument_types : list MType;
  func_result_types : list MType;
  func_body : option Region;
  func_attributes : list (string * Attribute);
}.

(** The module: its functions in order, and the bodies that the region
    slots of its operations have taken, by operation and slot number. *)
Record ModuleOp := mkModuleOp {
  module_loc : Location;
  module_functions : list FuncOp;
  module_regions : gmap (OpPtr * nat) Region;
}.

Record BEFFunctionContext := mkContext {
  regions : list (Location * option Region);
  region_references : list (Operation * list Z);
}.

(** ** BEFToMLIRConverter *)

Module BEFToMLIRConverter.
Section converter.
Context `{BEFEncoding}.

Definition ReadHeader (file_reader_ : BEFReader.t) : Res BEFReader.t :=
  match BEFReader.ReadByte file_reader_ with
  | (None, _) => Failure
  | (Some byte, file_reader_) =>
      if bool_decide (byte ≠ kBEFMagic1) then Failure
      else match BEFReader.ReadByte file_reader_ with
           | (None, _) => Failure
           | (Some byte, file_reader_) =>
               if bool_decide (byte ≠ kBEFMagic2) then Failure
               else Ok file_reader_
           end
  end.

Definition ReadNextSection (file_reader_ : BEFReader.t) (sections : BEFSections.t)
  : Res (BEFReader.t * BEFSections.t) :=
  match BEFReader.ReadSection file_reader_ with
  | (None, _) => Failure
  | (Some (section_id, section_data), file_reader_) =>
      let file_reader_ := BEFReader.SkipPast file_reader_ section_data in
      sections ← BEFSections.Set_ sections section_id section_data;
      mret (file_reader_, sections)
  end.

(** [while (!file_reader_.Empty())]: every section read takes at least two
    bytes, so [fuel] the number of remaining bytes is never used up. *)
Fixpoint ReadSections_loop (fuel : nat) (file_reader_ : BEFReader.t)
    (sections : BEFSections.t) : Res (BEFReader.t * BEFSections.t) :=
  if BEFReader.Empty file_reader_ then Ok (file_reader_, sections)
  else match fuel with
       | O => Abort
       | S fuel =>
           '(file_reader_, sections) ← ReadNextSection file_reader_ sections;
           ReadSections_loop fuel file_reader_ sections
       end.

Definition missing_sections_message : string :=
  "Missing AttributeTypes, AttributeNames or RegisterTypes sections.".

Definition ReadSections (bef_file_ : BEFFile) (file_reader_ : BEFReader.t)
    (sections : BEFSections.t) : M (BEFReader.t * BEFSections.t) :=
  '(file_reader_, sections) ←
    lift_res (ReadSections_loop (length (elems file_reader_))
                                file_reader_ sections);
  attribute_types ←
    lift_res (BEFSections.Get sections BEFSectionID.kAttributeTypes);
  attribute_names ←
    lift_res (BEFSections.Get sections BEFSectionID.kAttributeNames);
  register_types ←
    lift_res (BEFSections.Get sections BEFSectionID.kRegisterTypes);
  _ ← (if ref_empty attribute_types || ref_empty attribute_names
          || ref_empty register_types
       then EmitWarning (location bef_file_) missing_sections_message
       else mret tt);
  mret (file_reader_, sections).

Definition ReadFormatVersion (format_version : ArrayRef) : Res unit :=
  match BEFReader.ReadByte format_version with
  | (None, _) => Failure
  | (Some version, _) =>
      if bool_decide (version ≠ kBEFVersion0) then Failure else Ok tt
  end.

(** [string_view str(section_data.data())] looks for the terminator; when
    there is none in the section the call fails. *)
Fixpoint ReadNullTerminatedStrings_loop {S} (fuel : nat) (original_size : Z)
    (section_data : list Z) (action : Z -> string -> S -> S) (s : S) : Res S :=
  match section_data with
  | [] => Ok s
  | _ =>
      match fuel with
      | O => Abort
      | S fuel =>
          let offset := original_size - Z.of_nat (length section_data) in
          let str := c_str section_data in
          if (length section_data <=? length str)%nat then Failure
          else ReadNullTerminatedStrings_loop fuel original_size
                 (drop (length str + 1) section_data) action
                 (action offset (string_of_bytes str) s)
      end
  end.

Definition ReadNullTerminatedStrings {S} (section_data : ArrayRef)
    (action : Z -> string -> S -> S) (s : S) : Res S :=
  ReadNullTerminatedStrings_loop (length (elems section_data))
    (ref_size section_data) (elems section_data) action s.

Definition ReadLocationFilenames (bef_file_ : BEFFile)
    (location_filenames_ : ArrayRef) : Res BEFFile :=
  ReadNullTerminatedStrings location_filenames_
    (fun offset str f =>
       with_location_filenames f (location_filenames f ++ [str]))
    bef_file_.

(** [FileLineColLoc::get] takes [unsigned] line and column numbers, and
    [original_size] is an [unsigned]. *)
Fixpoint ReadLocationPositions_loop (fuel : nat) (original_size : Z)
    (reader : BEFReader.t) (bef_file_ : BEFFile) : Res BEFFile :=
  if BEFReader.Empty reader then Ok bef_file_
  else match fuel with
       | O => Abort
       | S fuel =>
           let offset := wrap64 (original_size - ref_size reader) in
           match BEFReader.ReadInt reader with
           | (None, _) => Failure
           | (Some location_filename_index, reader) =>
           match BEFReader.ReadInt reader with
           | (None, _) => Failure
           | (Some line_number, reader) =>
           match BEFReader.ReadInt reader with
           | (None, _) => Failure
           | (Some column_number, reader) =>
               match GetLocationFilename bef_file_ location_filename_index with
               | None => Failure
               | Some filename =>
                   ReadLocationPositions_loop fuel original_size reader
                     (with_location_positions bef_file_
                        (dense_insert offset
                           (FileLineColLoc filename (line_number mod 2 ^ 32)
                                           (column_number mod 2 ^ 32))
                           (location_positions bef_file_)))
               end
           end end end
       end.

Definition ReadLocationPositions (bef_file_ : BEFFile)
    (location_positions_ : ArrayRef) : Res BEFFile :=
  ReadLocationPositions_loop (length (elems location_positions_))
    (ref_size location_positions_ mod 2 ^ 32) location_positions_ bef_file_.

Definition ReadStrings (bef_file_ : BEFFile) (strings_ : ArrayRef)
  : Res BEFFile :=
  ReadNullTerminatedStrings strings_
    (fun offset str f => with_strings f (<[offset := str]> (strings f)))
    bef_file_.

(** The attributes read before a failing record stay in [bef_file_], so
    the file comes back with the result. *)
Fixpoint ReadAttributes_loop (n : nat) (attributes_ : ArrayRef)
    (attribute_types_reader : BEFReader.t) (bef_file_ : BEFFile)
  : M (bool * BEFFile) :=
  match n with
  | O => mret (true, bef_file_)
  | S n' =>
      match BEFReader.ReadInt attribute_types_reader with
      | (None, _) => mret (false, bef_file_)
      | (Some offset, attribute_types_reader) =>
      match BEFReader.ReadInt attribute_types_reader with
      | (None, _) => mret (false, bef_file_)
      | (Some attribute_type, attribute_types_reader) =>
          attr ← BEFAttributeReader.ReadAttribute attributes_ bef_file_
                   attribute_type offset;
          ReadAttributes_loop n' attributes_ attribute_types_reader
            (with_attributes bef_file_
               (dense_insert offset attr (attributes bef_file_)))
      end end
  end.

Definition ReadAttributes (bef_file_ : BEFFile) (attributes_ : ArrayRef)
    (attribute_types : ArrayRef) : M (bool * BEFFile) :=
  if ref_empty attribute_types then mret (true, bef_file_)
  else match BEFReader.ReadInt attribute_types with
       | (None, _) => mret (false, bef_file_)
       | (Some num_attributes, attribute_types_reader) =>
           ReadAttributes_loop (Z.to_nat num_attributes) attributes_
             attribute_types_reader bef_file_
       end.

Fixpoint for_each_string {S} (bef_file_ : BEFFile) (offsets : list Z)
    (action : string -> S -> S) (s : S) : Res S :=
  match offsets with
  | [] => Ok s
  | offset :: offsets =>
      match GetString bef_file_ offset with
      | None => Failure
      | Some str => for_each_string bef_file_ offsets action (action str s)
      end
  end.

Definition ReadStringOffsetSection {S} (bef_file_ : BEFFile)
    (section_data : ArrayRef) (action : string -> S -> S) (s : S) : Res S :=
  match ReadIntArray section_data with
  | (None, _) => Failure
  | (Some offsets, _) => for_each_string bef_file_ offsets action s
  end.

Definition ReadKernels (bef_file_ : BEFFile) (kernels_ : ArrayRef)
  : Res BEFFile :=
  kernels ← ReadStringOffsetSection bef_file_ kernels_
              (fun str v => v ++ [str]) (kernels bef_file_);
  mret (with_kernels bef_file_ kernels).

Definition ReadTypes (bef_file_ : BEFFile) (types_ : ArrayRef) : Res BEFFile :=
  types ← ReadStringOffsetSection bef_file_ types_
            (fun str v => v ++ [parseType str]) (types bef_file_);
  mret (with_types bef_file_ types).

Fixpoint push_types (bef_file_ : BEFFile) (indices : list Z)
    (out : list MType) : Res (list MType) :=
  match indices with
  | [] => Ok out
  | type_index :: indices =>
      match GetType bef_file_ type_index with
      | None => Failure
      | Some type => push_types bef_file_ indices (out ++ [type])
      end
  end.

(** The lambda [read_types] of [ReadFunctionIndex]. *)
Definition read_types (bef_file_ : BEFFile) (reader : BEFReader.t)
  : Res (list MType * BEFReader.t) :=
  match ReadIntArray reader with
  | (None, _) => Failure
  | (Some indices, reader) =>
      out ← push_types bef_file_ indices [];
      mret (out, reader)
  end.

Fixpoint ReadFunctionIndex_loop (n : nat) (reader : BEFReader.t)
    (bef_file_ : BEFFile) : Res BEFFile :=
  match n with
  | O => Ok bef_file_
  | S n' =>
      match BEFReader.ReadByte reader with
      | (None, _) => Failure
      | (Some function_kind, reader) =>
      match BEFReader.ReadInt reader with
      | (None, _) => Failure
      | (Some function_offset, reader) =>
      match BEFReader.ReadInt reader with
      | (None, _) => Failure
      | (Some name_offset, reader) =>
          match GetString bef_file_ name_offset with
          | None => Abort
          | Some name =>
              '(argument_types, reader) ← read_types bef_file_ reader;
              '(result_types, reader) ← read_types bef_file_ reader;
              ReadFunctionIndex_loop n' reader
                (with_function_index bef_file_
                   (function_index bef_file_ ++
                      [mkBEFFunction function_offset name function_kind
                                     argument_types result_types]))
          end
      end end end
  end.

Definition ReadFunctionIndex (bef_file_ : BEFFile) (function_index_ : ArrayRef)
  : Res BEFFile :=
  match BEFReader.ReadInt function_index_ with
  | (None, _) => Failure
  | (Some function_count, reader) =>
      ReadFunctionIndex_loop (Z.to_nat function_count) reader bef_file_
  end.


Fixpoint ReadFunctions_loop (functions_ : ArrayRef)
    (function_index_ : list BEFFunction) (bef_file_ : BEFFile)
    (attribute_names_reader register_types_reader : BEFReader.t)
    (function_context : BEFFunctionContext) : M BEFFunctionContext :=
  match function_index_ with
  | [] => mret function_context
  | bef_function :: function_index_ =>
      if IsNativeFunction bef_function then
        (* Special handling for native functions. *)
        ReadFunctions_loop functions_ function_index_ bef_file_
          attribute_names_reader register_types_reader
          (mkContext (regions function_context ++ [(UnknownLoc, None)])
                     (region_references function_context))
      else
        function ← lift_res (drop_front functions_ (function_offset bef_function));
        '(loc, region, attribute_names_reader, register_types_reader, refs) ←
          BEFFunctionReader.ReadFunction bef_file_ bef_function
            (length (regions function_context)) function
            attribute_names_reader register_types_reader
            (region_references function_context);
        ReadFunctions_loop functions_ function_index_ bef_file_
          attribute_names_reader register_types_reader
          (mkContext (regions function_context ++ [(loc, Some region)]) refs)
  end.

(** The count at the head of the AttributeNames and RegisterTypes sections
    is read and dropped. *)
Definition skip_count (reader : BEFReader.t) : BEFReader.t :=
  if BEFReader.Empty reader then reader else (BEFReader.ReadInt reader).2.

Definition ReadFunctions (bef_file_ : BEFFile) (functions_ : ArrayRef)
    (attribute_names register_types : ArrayRef)
    (function_context : BEFFunctionContext) : M BEFFunctionContext :=
  ReadFunctions_loop functions_ (function_index bef_file_) bef_file_
    (skip_count attribute_names) (skip_count register_types) function_context.

(** Use return_op's operand types as function result types. *)
Definition CreateBEFFuncOp (loc : Location) (bef_function : BEFFunction)
    (region : Region) : Res FuncOp :=
  match last (region_ops region) with
  | None => Abort
  | Some return_op =>
      let result_types_ := value_type <$> op_operands return_op in
      Ok (mkFuncOp loc (name bef_function) (argument_types bef_function)
                   result_types_ (Some region) [])
  end.

Definition CreateNativeFuncOp (loc : Location) (bef_function : BEFFunction)
  : Res FuncOp :=
  if bool_decide (kind bef_function = kNativeFunction) then
    Ok (mkFuncOp loc (name bef_function) (argument_types bef_function)
                 (result_types bef_function) None [("hex.native", UnitAttr)])
  else Abort.

(** Resolve top level functions, from function [i] on. *)
Fixpoint resolve_top_level (function_index_ : list BEFFunction) (i : nat)
    (regions_ : list (Location * option Region)) (functions_ : list FuncOp)
  : Res (list (Location * option Region) * list FuncOp) :=
  match function_index_ with
  | [] => Ok (regions_, functions_)
  | bef_function :: function_index_ =>
      if IsNamedFunction bef_function then
        match regions_ !! i with
        | None => Abort
        | Some (loc, region) =>
            if IsNativeFunction bef_function then
              match region with
              | Some _ => Abort
              | None =>
                  func_op ← CreateNativeFuncOp loc bef_function;
                  resolve_top_level function_index_ (S i) regions_
                                    (functions_ ++ [func_op])
              end
            else
              match region with
              | None => Abort
              | Some region =>
                  func_op ← CreateBEFFuncOp loc bef_function region;
                  resolve_top_level function_index_ (S i)
                    (<[i := (loc, None)]> regions_) (functions_ ++ [func_op])
              end
        end
      else resolve_top_level function_index_ (S i) regions_ functions_
  end.

(** The regions of one operation, from slot [i] on. *)
Fixpoint take_bodies (op : Operation) (region_indices : list Z) (i : nat)
    (regions_ : list (Location * option Region))
    (slots : gmap (OpPtr * nat) Region)
  : Res (list (Location * option Region) * gmap (OpPtr * nat) Region) :=
  match region_indices with
  | [] => Ok (regions_, slots)
  | index :: region_indices =>
      match vector_get regions_ index with
      | None => Abort
      | Some (loc, None) => Abort
      | Some (loc, Some child_region) =>
          take_bodies op region_indices (S i)
            (<[Z.to_nat index := (loc, None)]> regions_)
            (<[(op_ptr op, i) := child_region]> slots)
      end
  end.

(** Resolve nested regions. The references are visited in the order in
    which they were recorded. *)
Fixpoint resolve_nested (region_references_ : list (Operation * list Z))
    (regions_ : list (Location * option Region))
    (slots : gmap (OpPtr * nat) Region)
  : Res (list (Location * option Region) * gmap (OpPtr * nat) Region) :=
  match region_references_ with
  | [] => Ok (regions_, slots)
  | (op, region_indices) :: region_references_ =>
      if bool_decide (op_num_regions op = length region_indices) then
        '(regions_, slots) ← take_bodies op region_indices 0 regions_ slots;
        resolve_nested region_references_ regions_ slots
      else Abort
  end.

Definition all_resolved (regions_ : list (Location * option Region)) : bool :=
  forallb (fun loc_and_region => bool_decide (loc_and_region.2 = None)) regions_.

Definition ResolveFunctions (bef_file_ : BEFFile)
    (function_context : BEFFunctionContext) (module : ModuleOp)
  : M (BEFFunctionContext * ModuleOp) :=
  '(regions_, functions_) ←
    lift_res (resolve_top_level (function_index bef_file_) 0
                (regions function_context) (module_functions module));
  '(regions_, slots) ←
    lift_res (resolve_nested (region_references function_context) regions_
                (module_regions module));
  (* Check all regions are resolved. *)
  if all_resolved regions_ then
    mret (mkContext regions_ (region_references function_context),
          mkModuleOp (module_loc module) functions_ slots)
  else emit_error_at (location bef_file_) "Failed to resolve functions.".

End converter.
End BEFToMLIRConverter.

(** ** ConvertBEFToMLIR *)

Section convert.
Context `{BEFEncoding}.
Import BEFToMLIRConverter.

Definition invalid_attributes_message : string :=
  "Invalid Attributes/AttributeTypes section.".

Definition ConvertBEFToMLIR_log (location_ : Location) (bef_file : ArrayRef)
  : M ModuleOp :=
  let emit_error {A} (m : M A) message := or_error_at location_ m message in
  let bef_file_ := new_BEFFile location_ in
  file_reader_ ← emit_error (lift_res (ReadHeader bef_file))
                   "Invalid BEF file header.";
  (* Read all sections without processing. *)
  '(file_reader_, sections) ←
    emit_error (ReadSections bef_file_ file_reader_ BEFSections.init)
               "Invalid BEF section header.";
  (* The first phase processes all sections and saves types, names and
     attributes. *)
  section ← lift_res (BEFSections.Get sections BEFSectionID.kFormatVersion);
  _ ← emit_error (lift_res (ReadFormatVersion section)) "Invalid BEF version.";
  section ← lift_res (BEFSections.Get sections BEFSectionID.kLocationFilenames);
  bef_file_ ← emit_error (lift_res (ReadLocationFilenames bef_file_ section))
                "Invalid LocationFilenames section.";
  section ← lift_res (BEFSections.Get sections BEFSectionID.kLocationPositions);
  bef_file_ ← emit_error (lift_res (ReadLocationPositions bef_file_ section))
                "Invalid LocationPositions section.";
  section ← lift_res (BEFSections.Get sections BEFSectionID.kStrings);
  bef_file_ ← emit_error (lift_res (ReadStrings bef_file_ section))
                "Invalid Strings section.";
  section ← lift_res (BEFSections.Get sections BEFSectionID.kTypes);
  bef_file_ ← emit_error (lift_res (ReadTypes bef_file_ section))
                "Invalid Types section.";
  attributes_ ← lift_res (BEFSections.Get sections BEFSectionID.kAttributes);
  attribute_types ←
    lift_res (BEFSections.Get sections BEFSectionID.kAttributeTypes);
  '(succeeded, bef_file_) ← ReadAttributes bef_file_ attributes_ attribute_types;
  _ ← (if succeeded : bool then mret tt
       else EmitWarning location_ invalid_attributes_message);
  section ← lift_res (BEFSections.Get sections BEFSectionID.kKernels);
  bef_file_ ← emit_error (lift_res (ReadKernels bef_file_ section))
                "Invalid Kernels section.";
  section ← lift_res (BEFSections.Get sections BEFSectionID.kFunctionIndex);
  bef_file_ ← emit_error (lift_res (ReadFunctionIndex bef_file_ section))
                "Invalid FunctionIndex section.";
  (* The second phase processes all functions and creates corresponding
     region bodies. Nested regions in MLIR operations are not resolved
     yet. *)
  functions_ ← lift_res (BEFSections.Get sections BEFSectionID.kFunctions);
  attribute_names ←
    lift_res (BEFSections.Get sections BEFSectionID.kAttributeNames);
  register_types ←
    lift_res (BEFSections.Get sections BEFSectionID.kRegisterTypes);
  function_context ←
    emit_error (ReadFunctions bef_file_ functions_ attribute_names
                              register_types (mkContext [] []))
               "Invalid Functions section.";
  (* The third phase resolves all functions as either top level MLIR
     functions or nested regions for MLIR operations. *)
  '(_, module) ←
    emit_error (ResolveFunctions bef_file_ function_context
                                 (mkModuleOp location_ [] ∅))
               "Failed to resolve functions.";
  mret module.

(** The module, [Failure] for the null module, and the diagnostics. *)
Definition ConvertBEFToMLIR (location_ : Location) (bef_file : ArrayRef)
  : Res ModuleOp * list Diagnostic :=
  ConvertBEFToMLIR_log location_ bef_file [].

End convert.

(** ** The value of a reverse variable-byte length *)

(** The seven payload bits of a byte. *)
Definition payload (byte : Z) : Z := Z.land byte 0x7F.

(** The groups in the order in which [ReadLength] reads them (the byte at
    [offset - 1] first): the first group read is the most significant. *)
Fixpoint reverse_vbr_value (groups : list Z) : Z :=
  match groups with
  | [] => 0
  | g :: rest => payload g * 128 ^ Z.of_nat (length rest) + reverse_vbr_value rest
  end.

(** The length as the specification words it, for comparison with
    [ReadLength]: the groups in reading order again, but the final byte read
    contributes the most significant bits. *)
Fixpoint length_as_specified (groups : list Z) : Z :=
  match groups with
  | [] => 0
  | g :: rest => payload g + 128 * length_as_specified rest
  end.

(** ** Predicates of the statements *)

(** A call is quiet when it issues no diagnostic unless it fails. *)
Definition quiet {A} (m : M A) : Prop :=
  forall d a d', m d = (Ok a, d') -> d' = d.

(** Two registers that differ at most in their declared number of uses. *)
Definition same_but_uses (r r' : BEFFunctionReader.RegisterInfo) : Prop :=
  BEFFunctionReader.type r = BEFFunctionReader.type r' /\
  BEFFunctionReader.usedbys r = BEFFunctionReader.usedbys r' /\
  BEFFunctionReader.value r = BEFFunctionReader.value r'.

(** Two results, and two calls, that are the same up to [R] on what they
    return; the calls leave the same log. *)
Definition res_rel {A} (R : A -> A -> Prop) (x y : Res A) : Prop :=
  match x, y with
  | Ok a, Ok b => R a b
  | Failure, Failure => True
  | Abort, Abort => True
  | _, _ => False
  end.

Definition m_rel {A} (R : A -> A -> Prop) (m m' : M A) : Prop :=
  forall d, res_rel R (m d).1 (m' d).1 /\ (m d).2 = (m' d).2.

(** What [ReadKernel] and the loop over the kernels return, the same up to
    the declared uses. *)
Definition kernel_rel {T}
    (x y : T * list BEFFunctionReader.RegisterInfo * BEFReader.t
           * list (Operation * list Z)) : Prop :=
  x.1.1.1 = y.1.1.1 /\ Forall2 same_but_uses x.1.1.2 y.1.1.2 /\
  x.1.2 = y.1.2 /\ x.2 = y.2.

(** A section is missing when its slot holds no byte. *)
Definition missing (s : BEFSections.t) (section_id : Z) : bool :=
  match BEFSections.Get s section_id with
  | Ok section_data => ref_empty section_data
  | _ => true
  end.

Definition optional_section_missing (s : BEFSections.t) : bool :=
  missing s BEFSectionID.kAttributeTypes
  || missing s BEFSectionID.kAttributeNames
  || missing s BEFSectionID.kRegisterTypes.

(** The names attr0, attr1, ... of [n] attributes. *)
Definition dummy_names (n : nat) : list string :=
  (fun i => "attr" +:+ utostr i) <$> seq 0 n.

(** The attributes of an operation are named attr0, attr1, ... in order,
    the references to named functions that follow them [callee]. *)
Definition has_dummy_names (op : Operation) : Prop :=
  exists n callees,
    (op_attributes op).*1 = dummy_names n ++ callees /\
    Forall (fun c => c = "callee") callees.

(** [v] is an argument of the block or a result of one of [ops]. *)
Definition defined_in (entry_arguments : list Value) (ops : list Operation)
    (v : Value) : Prop :=
  v ∈ entry_arguments \/ exists op i, op ∈ ops /\ getResult op i = Ok v.

(** The values of the registers are defined in the block so far. *)
Definition registers_defined_in (entry_arguments : list Value)
    (ops : list Operation) (regs : list BEFFunctionReader.RegisterInfo) : Prop :=
  forall reg_info v,
    reg_info ∈ regs -> BEFFunctionReader.value reg_info = Some v ->
    defined_in entry_arguments ops v.

(** Every operand of every operation of [ops] is an argument of the block
    or a result of an operation before it. *)
Definition operands_defined_before (entry_arguments : list Value)
    (ops : list Operation) : Prop :=
  forall (k : nat) op,
    ops !! k = Some op ->
    Forall (defined_in entry_arguments (take k ops)) (op_operands op).

(** The function [f] declared with other result types. *)
Definition with_result_types (f : BEFFunction) (v : list MType) : BEFFunction :=
  mkBEFFunction (function_offset f) (name f) (kind f) (argument_types f) v.

(** The function at index [k] of the function index has a name. *)
Definition named_at (function_index_ : list BEFFunction) (k : nat) : bool :=
  match function_index_ !! k with
  | Some bef_function => IsNamedFunction bef_function
  | None => false
  end.

(** [regions'] is [regions_] with the slots of the indices [I] emptied. *)
Definition emptied_at (I : list Z)
    (regions_ regions' : list (Location * option Region)) : Prop :=
  length regions' = length regions_ /\
  forall (k : nat) x,
    regions_ !! k = Some x ->
    regions' !! k
    = Some (if bool_decide (Z.of_nat k ∈ I) then (x.1, None) else x).

(** The slot of [index] holds a region. *)
Definition holds_region (regions_ : list (Location * option Region))
    (index : Z) : Prop :=
  0 <= index /\
  exists loc region, regions_ !! Z.to_nat index = Some (loc, Some region).

(** The operation [p] was created before the operation number [k] of the
    block of function [fn]. *)
Definition created_before (fn k : nat) (p : OpPtr) : Prop :=
  (p.1 < fn)%nat \/ (p.1 = fn /\ (p.2 < k)%nat).

(** The references recorded so far are those of different operations, all
    created before operation [k] of function [fn]. *)
Definition references_ok (fn k : nat) (refs : list (Operation * list Z)) : Prop :=
  NoDup (op_ptr <$> refs.*1) /\
  Forall (created_before fn k) (op_ptr <$> refs.*1).

(** ** Layouts of the statements *)

(** Strings laid out one after the other, each followed by a NUL. *)
Definition null_terminated (strs : list (list Z)) : list Z :=
  concat ((fun str => str ++ [0]) <$> strs).

(** The offset of string [k] in that layout. *)
Definition string_offset (strs : list (list Z)) (k : nat) : Z :=
  Z.of_nat (length (null_terminated (take k strs))).

(** What [action] makes of the strings [strs], the first of them at
    [offset]. *)
Fixpoint apply_strings {S} (action : Z -> string -> S -> S) (offset : Z)
    (strs : list (list Z)) (s : S) : S :=
  match strs with
  | [] => s
  | str :: strs =>
      apply_strings action (offset + Z.of_nat (length str) + 1) strs
                    (action offset (string_of_bytes str) s)
  end.

(** The value of bytes, the least significant first. *)
Fixpoint little_endian (bytes : list Z) : Z :=
  match bytes with
  | [] => 0
  | b :: rest => b + 256 * little_endian rest
  end.

Definition is_byte (b : Z) : Prop := 0 <= b < 256.

(** The assignment [bef_file_.strings[offset] = str]. *)
Definition insert_string (offset : Z) (str : string) (m : gmap Z string)
  : gmap Z string := <[offset := str]> m.

(** The name of the function is a string of the file and its argument and
    result types are types of the file, none of them null. *)
Definition known_function (bef_file_ : BEFFile) (f : BEFFunction) : Prop :=
  (exists offset, GetString bef_file_ offset = Some (name f)) /\
  Forall (fun type_ => Some type_ ∈ types bef_file_)
         (argument_types f ++ result_types f).

(** The region slot that [ReadFunctions] fills for a function: none for a
    native function, and for another a region that ends with an operation,
    has the argument types of the function as its arguments and [fn] as its
    place. *)
Definition region_of (bef_function : BEFFunction) (fn : nat)
    (loc_and_region : Location * option Region) : Prop :=
  if IsNativeFunction bef_function then loc_and_region = (UnknownLoc, None)
  else exists loc region,
         loc_and_region = (loc, Some region) /\
         region_fn region = fn /\
         region_arguments region = argument_types bef_function /\
         last (region_ops region) <> None.

(** The top level function that the resolution makes of a function of the
    index. *)
Definition func_op_of (bef_function : BEFFunction) (func_op : FuncOp) : Prop :=
  func_name func_op = name bef_function /\
  func_argument_types func_op = argument_types bef_function /\
  if IsNativeFunction bef_function
  then func_body func_op = None /\
       func_result_types func_op = result_types bef_function /\
       func_attributes func_op = [("hex.native", UnitAttr)]
  else func_body func_op <> None /\ func_attributes func_op = [].

(** A call reports its failures with [Q] when the last diagnostic of the
    log of a failed call satisfies [Q]; with a [Q] that nothing satisfies,
    the call never fails. *)
Definition reports {A} (Q : Diagnostic -> Prop) (m : M A) : Prop :=
  forall d d', m d = (Failure, d') -> exists d0 diag, d' = d0 ++ [diag] /\ Q diag.

(** A call logs [P] when the diagnostics that it has added to the log, when
    it returns a value, satisfy [P]. *)
Definition logs {A} (P : Diagnostic -> Prop) (m : M A) : Prop :=
  forall d a d', m d = (Ok a, d') -> exists ds, d' = d ++ ds /\ Forall P ds.

(** The values that a call returns satisfy [R]. *)
Definition returns {A} (R : A -> Prop) (m : M A) : Prop :=
  forall d a d', m d = (Ok a, d') -> R a.

(** The messages with which [ConvertBEFToMLIR] gives up. *)
Definition conversion_errors : list string :=
  ["Invalid BEF file header."; "Invalid BEF section header.";
   "Invalid BEF version."; "Invalid LocationFilenames section.";
   "Invalid LocationPositions section."; "Invalid Strings section.";
   "Invalid Types section."; "Invalid Kernels section.";
   "Invalid FunctionIndex section."; "Invalid Functions section.";
   "Failed to resolve functions."].

(** The messages of the reader of attributes. *)
Definition attribute_errors : list string :=
  ["Unknown attribute type"; "Unknown standard attribute type";
   "Unknown integer attribute width"; "Unknown float attribute width"].

(** An error of the reader of attributes, at [loc]. *)
Definition attribute_error (loc : Location) (diag : Diagnostic) : Prop :=
  diag_loc diag = loc /\ diag_severity diag = SevError /\
  diag_message diag ∈ attribute_errors.

(** The diagnostics that may come with a module. *)
Definition module_diagnostic (loc : Location) (diag : Diagnostic) : Prop :=
  diag_loc diag = loc /\
  ((diag_severity diag = SevWarning /\
    diag_message diag
    ∈ ["Missing AttributeTypes, AttributeNames or RegisterTypes sections.";
       "Invalid Attributes/AttributeTypes section."]) \/
   (diag_severity diag = SevError /\ diag_message diag ∈ attribute_errors)).

(** The registers [regs'] are the registers [regs] with their types and
    their numbers of uses, and with the values that they had; some may have
    got a value that had none. *)
Definition keeps_values (regs regs' : list BEFFunctionReader.RegisterInfo)
  : Prop :=
  length regs' = length regs /\
  forall (k : nat) reg,
    regs !! k = Some reg ->
    exists reg',
      regs' !! k = Some reg' /\
      BEFFunctionReader.type reg' = BEFFunctionReader.type reg /\
      BEFFunctionReader.num_uses reg' = BEFFunctionReader.num_uses reg /\
      forall v, BEFFunctionReader.value reg = Some v ->
                BEFFunctionReader.value reg' = Some v.

(** The register of index [register_index] holds the value [v]. *)
Definition holds_value (regs : list BEFFunctionReader.RegisterInfo)
    (register_index : Z) (v : Value) : Prop :=
  exists reg,
    BEFFunctionReader.GetRegister regs (to_int register_index) = Ok reg /\
    BEFFunctionReader.value reg = Some v.

(** The function of index [index] is one without a name, which stands for
    a region. *)
Definition is_region (bef_file_ : BEFFile) (index : Z) : bool :=
  match GetFunction bef_file_ index with
  | Some bef_function => negb (IsNamedFunction bef_function)
  | None => false
  end.

(** A reference of an operation to its regions: the operation has as many
    region slots as the reference has indices, at least one, and every index
    is that of a function without a name. *)
Definition region_reference (bef_file_ : BEFFile) (ref : Operation * list Z)
  : Prop :=
  op_num_regions ref.1 = length ref.2 /\ ref.2 <> [] /\
  Forall (fun index => is_region bef_file_ index = true) ref.2.

(** The operation is the one at its place in the region of its function. *)
Definition located (regions_ : list (Location * option Region))
    (op : Operation) : Prop :=
  exists loc region,
    regions_ !! (op_ptr op).1 = Some (loc, Some region) /\
    region_ops region !! (op_ptr op).2 = Some op.

(** The attribute that an operation gets for a reference to a named
    function. *)
Definition callee_of (bef_file_ : BEFFile) (attr : string * Attribute) : Prop :=
  exists index bef_function,
    GetFunction bef_file_ index = Some bef_function /\
    IsNamedFunction bef_function = true /\
    attr = ("callee", SymbolRefAttr (name bef_function)).

(** The attribute is of the kind that the type identifier [id] of a
    descriptor stands for; an integer has one of the widths 1, 32 and 64 and
    a value of that width, a float has 32 bits. *)
Definition has_kind (id : Z) (attr : Attribute) : Prop :=
  match attr with
  | IntegerAttr type_ bit_width value =>
      id = AttributeTypeID.kStandardAttribute /\
      type_ = IntegerType bit_width /\
      bit_width ∈ [1; 32; 64] /\ 0 <= value < 2 ^ bit_width
  | FloatAttr type_ bits =>
      id = AttributeTypeID.kStandardAttribute /\ type_ = FloatType 32 /\
      0 <= bits < 2 ^ 32
  | BoolAttr _ => id = AttributeTypeID.kBoolAttribute
  | StringAttr _ => id = AttributeTypeID.kStringAttribute
  | TypeAttr _ => id = AttributeTypeID.kTypeAttribute
  | DenseElementsAttr _ _ _ => id = AttributeTypeID.kDenseElementsAttribute
  | ArrayAttr _ =>
      id = AttributeTypeID.kFlatArrayAttribute \/
      id = AttributeTypeID.kOffsetArrayAttribute
  | UnitAttr | SymbolRefAttr _ => False
  end.

(** ** An instance of the encoding, for the examples *)

Module Example.

Definition sample_parseType (s : string) : option MType :=
  if bool_decide (s = "i1") then Some (IntegerType 1)
  else if bool_decide (s = "i32") then Some (IntegerType 32)
  else if bool_decide (s = "i64") then Some (IntegerType 64)
  else if bool_decide (s = "f32") then Some (FloatType 32)
  else if bool_decide (s = "none") then Some NoneType
  else None.

(** The magic bytes and the version are those of scenario S1 of the
    specification. *)
Definition encoding : BEFEncoding := {|
  kBEFMagic1 := 0xBE;
  kBEFMagic2 := 0xF0;
  kBEFVersion0 := 0;
  AttributeKind_of_byte :=
    fun b => [kI1; kI32; kI64; kF16; kF32; kF64] !! Z.to_nat b;
  descriptor_offset := fun d => d;
  parseType := sample_parseType;
  uninitialized_byte := 0;
|}.

Definition origin : Location := CallerLoc 0.

(** A function [f] with one kernel [k] that has one attribute, named [x],
    at offset 7 of an attribute pool that holds nothing; the AttributeTypes,
    AttributeNames and RegisterTypes sections are there. *)
Definition unknown_attribute_file : ArrayRef :=
  mkArrayRef 0
    [190; 240; 0; 1; 0; 1; 2; 97; 0; 2; 3; 0; 1; 1; 3; 7; 0; 102; 0; 107; 0;
     120; 0; 6; 1; 0; 9; 1; 0; 5; 2; 1; 3; 8; 6; 1; 0; 0; 1; 0; 0; 11; 2; 1; 0;
     10; 4; 1; 1; 0; 5; 7; 35; 0; 0; 1; 0; 0; 0; 0; 0; 0; 0; 0; 0; 0; 0; 0; 0;
     0; 0; 0; 1; 0; 0; 0; 0; 0; 0; 0; 0; 0; 0; 0; 7; 0; 0; 0].

(** A function [f : (i32) -> (i32)] that returns its argument: register 0
    is declared with 5 uses and has one, the operand of the return. *)
Definition use_count_file : ArrayRef :=
  mkArrayRef 0
    [190; 240; 0; 1; 0; 1; 2; 97; 0; 2; 3; 0; 1; 1; 3; 7; 0; 102; 0; 105; 51;
     50; 0; 6; 2; 1; 3; 9; 1; 0; 5; 1; 0; 8; 8; 1; 0; 0; 1; 1; 0; 1; 0; 11; 3;
     1; 1; 0; 10; 3; 1; 1; 0; 7; 45; 0; 1; 5; 1; 0; 0; 0; 0; 0; 0; 0; 0; 0; 0;
     0; 0; 0; 0; 0; 0; 0; 0; 0; 0; 0; 0; 0; 0; 0; 1; 0; 0; 0; 1; 0; 0; 0; 0; 0;
     0; 0; 0; 0; 0; 0].

(** No function; the AttributeTypes section (id 9) announces one attribute
    and ends there. *)
Definition truncated_attribute_types_file : ArrayRef :=
  mkArrayRef 0 [190; 240; 0; 1; 0; 6; 1; 0; 5; 1; 0; 8; 1; 0; 9; 1; 1].

(** No function; the FormatVersion section (id 0) has the two bytes 0, 7. *)
Definition long_format_version_file : ArrayRef :=
  mkArrayRef 0 [190; 240; 0; 2; 0; 7; 6; 1; 0; 5; 1; 0; 8; 1; 0].

(** The tables of a file with the location a:1:1, the kernel name [k], the
    type i32, a function [f] of no argument and no result and two unnamed
    functions. *)
Definition tables : BEFFile :=
  mkBEFFile origin ["a"] {[0 := FileLineColLoc "a" 1 1]}
            {[0 := ""; 1 := "f"]} ∅ ["k"] [Some (IntegerType 32)]
            [mkBEFFunction 0 "f" kBEFFunction [] [];
             mkBEFFunction 0 "" kBEFFunction [] [];
             mkBEFFunction 0 "" kBEFFunction [] []].

(** The body of a function with no register and one kernel [k] that has
    two attributes, at the offsets 3 and 4. *)
Definition two_attributes_function : ArrayRef :=
  mkArrayRef 0
    [0; 0; 1; 0; 0; 0; 0; 0;
     0; 0; 0; 0; 0; 0; 0; 0; 0; 0; 0; 0; 2; 0; 0; 0; 0; 0; 0; 0; 0; 0; 0; 0;
     3; 0; 0; 0; 4; 0; 0; 0].

(** The body of a function [(i32) -> (i32)] that returns its argument: one
    register, defined by the arguments pseudo kernel. *)
Definition identity_function : ArrayRef :=
  mkArrayRef 0
    [0; 1; 1; 1; 0; 0; 0; 0;
     0; 0; 0; 0; 0; 0; 0; 0; 0; 0; 0; 0; 0; 0; 0; 0; 0; 0; 0; 0; 1; 0; 0; 0;
     0; 0; 0; 0; 0; 0; 0; 0].

(** An operation with two region slots, in the region of function 0, and
    the context in which it refers to the functions 1 and 2, in this
    order. *)
Definition nesting_op : Operation :=
  mkOperation (0%nat, 0%nat) "k" (FileLineColLoc "a" 1 1) [] [] [] 2.

Definition return_op (fn : nat) (k : nat) : Operation :=
  mkOperation (fn, k) "hex.return" (FileLineColLoc "a" 1 1) [] [] [] 0.

Definition nesting_context : BEFFunctionContext :=
  mkContext
    [(FileLineColLoc "a" 1 1, Some (mkRegion 0 [] [nesting_op; return_op 0 1]));
     (FileLineColLoc "a" 1 1, Some (mkRegion 1 [] [return_op 1 0]));
     (FileLineColLoc "a" 1 1, Some (mkRegion 2 [] [return_op 2 0]))]
    [(nesting_op, [1; 2])].

(** The file of [unknown_attribute_file] without its AttributeTypes,
    AttributeNames and RegisterTypes sections. *)
Definition degraded_file : ArrayRef :=
  mkArrayRef 0
    [190; 240; 0; 1; 0; 1; 2; 97; 0; 2; 3; 0; 1; 1; 3; 7; 0; 102; 0; 107; 0;
     120; 0; 6; 1; 0; 5; 2; 1; 3; 8; 6; 1; 0; 0; 1; 0; 0; 7; 36; 0; 0; 1; 0; 0;
     0; 0; 0; 0; 0; 0; 0; 0; 0; 0; 0; 0; 0; 0; 0; 1; 0; 0; 0; 0; 0; 0; 0; 0; 0;
     0; 0; 7; 0; 0; 0].

(** A function [f] whose one kernel [k] refers to the functions 1 and 2, and
    two unnamed functions of no kernel, at the offsets 38 and 42 of the
    Functions section. *)
Definition nested_file : ArrayRef :=
  mkArrayRef 0
    [190; 240; 0; 1; 0; 1; 2; 97; 0; 2; 3; 0; 1; 1; 3; 5; 0; 102; 0; 107; 0; 6;
     1; 0; 9; 1; 0; 5; 2; 1; 3; 11; 4; 3; 0; 0; 0; 10; 5; 3; 1; 0; 0; 0; 7; 46;
     0; 0; 1; 0; 0; 0; 0; 0; 0; 0; 0; 0; 0; 0; 0; 0; 0; 0; 0; 0; 0; 0; 2; 0; 0;
     0; 0; 0; 0; 0; 1; 0; 0; 0; 2; 0; 0; 0; 0; 0; 0; 0; 0; 0; 0; 0; 8; 16; 3; 0;
     0; 1; 0; 0; 0; 38; 0; 0; 0; 0; 42; 0; 0; 0].

(** The file of [unknown_attribute_file] with an AttributeTypes section of
    one record, for the offset 0 and the attribute type 7, which is none of
    the types of attributes; the attribute of the kernel is at the offset
    0. *)
Definition unknown_attribute_type_file : ArrayRef :=
  mkArrayRef 0
    [190; 240; 0; 1; 0; 1; 2; 97; 0; 2; 3; 0; 1; 1; 3; 7; 0; 102; 0; 107; 0;
     120; 0; 6; 1; 0; 9; 3; 1; 0; 7; 5; 2; 1; 3; 8; 6; 1; 0; 0; 1; 0; 0; 11; 2;
     1; 0; 10; 4; 1; 1; 0; 5; 7; 33; 0; 0; 1; 0; 0; 0; 0; 0; 0; 0; 0; 0; 0; 0;
     0; 0; 0; 1; 0; 0; 0; 0; 0; 0; 0; 0; 0; 0; 0; 0; 0; 0; 0].

(** The value of the first argument of function 0, two registers of which
    the first holds it, the arguments pseudo kernel that defines register 0
    and a kernel [k] that takes register 0 and defines register 1. *)
Definition argument : Value := mkValue (BlockArgument 0 0) (IntegerType 32).

Definition register (num_uses : Z) (value : option Value)
  : BEFFunctionReader.RegisterInfo :=
  BEFFunctionReader.mkRegisterInfo (IntegerType 32) num_uses
                                   (BEFKernel.mkEntries 0 0) value.

Definition pseudo_kernel : list Z := [0; 0; 0; 0; 0; 1; 1; 0; 0].

Definition unary_kernel : list Z := [0; 0; 1; 0; 0; 1; 0; 0; 1].

(** The tables and the Functions section of [nested_file], which is at the
    offset 46 of the file. *)
Definition nested_tables : BEFFile :=
  mkBEFFile origin ["a"] {[0 := FileLineColLoc "a" 1 1]}
            {[0 := ""; 1 := "f"; 3 := "k"]} ∅ ["k"] []
            [mkBEFFunction 0 "f" kBEFFunction [] [];
             mkBEFFunction 38 "" kBEFFunction [] [];
             mkBEFFunction 42 "" kBEFFunction [] []].

Definition nested_functions : ArrayRef :=
  mkArrayRef 46
    [0; 0; 1; 0; 0; 0; 0; 0; 0; 0; 0; 0; 0; 0; 0; 0; 0; 0; 0; 0; 0; 0; 2; 0; 0;
     0; 0; 0; 0; 0; 1; 0; 0; 0; 2; 0; 0; 0; 0; 0; 0; 0; 0; 0; 0; 0].

(** The header and one empty section of identifier 255. *)
Definition unknown_section_file : ArrayRef :=
  mkArrayRef 0 [190; 240; 255; 0].

End Example.

(** * Properties of the converter *)

(** ** ReadLength: the reverse variable-byte length *)

Section ReadLength.
Import BEFAttributeReader.

Lemma payload_range b : 0 <= payload b < 128.
Proof.
  unfold payload. split.
  - apply Z.land_nonneg. right. lia.
  - assert (Z.land b 127 <= 127); [|lia].
    change 127 with (Z.ones 7). rewrite Z.land_ones by lia.
    pose proof (Z.mod_pos_bound b (2^7)). change (Z.ones 7) with (2^7 - 1). lia.
Qed.

Lemma lor_low_bits x p : 0 <= p < 128 -> Z.lor (x * 128) p = x * 128 + p.
Proof.
  intros Hp.
  rewrite <- Z.lxor_lor, <- Z.add_nocarry_lxor; auto.
  all: change 128 with (2 ^ 7); rewrite <- Z.shiftl_mul_pow2 by lia.
  all: apply Z.bits_inj'; intros n Hn; rewrite Z.land_spec, Z.bits_0.
  all: destruct (decide (n < 7)).
  all: try (rewrite Z.shiftl_spec_low by lia; reflexivity).
  all: replace (Z.testbit p n) with false; [apply andb_false_r|].
  all: symmetry; apply Z.bits_above_log2; [lia|].
  all: destruct (decide (p = 0)) as [->|]; [simpl; lia|].
  all: apply Z.log2_lt_pow2; [lia|]; eapply Z.lt_le_trans; [apply Hp|].
  all: change 128 with (2^7); apply Z.pow_le_mono_r; lia.
Qed.

Lemma vbr_step_value v b :
  vbr_step (v mod 2 ^ 64) b = (v * 128 + payload b) mod 2 ^ 64.
Proof.
  unfold vbr_step, shl64, wrap64. fold (payload b).
  pose proof (payload_range b) as Hp.
  rewrite Z.shiftl_mul_pow2 by lia. change (2 ^ 7) with 128.
  rewrite Zmult_mod_idemp_l.
  change (2 ^ 64) with (2 ^ 57 * 128).
  rewrite Zmult_mod_distr_r.
  rewrite lor_low_bits by done.
  rewrite <- Zplus_mod_idemp_l, Zmult_mod_distr_r.
  pose proof (Z.mod_pos_bound v (2 ^ 57)).
  symmetry. apply Z.mod_small. lia.
Qed.

Lemma reverse_vbr_value_snoc groups g :
  reverse_vbr_value (groups ++ [g]) = reverse_vbr_value groups * 128 + payload g.
Proof.
  induction groups as [|g' groups IH]; simpl; [lia|].
  rewrite IH, length_app; simpl.
  rewrite Nat2Z.inj_add, Z.pow_add_r by lia. change (128 ^ Z.of_nat 1) with 128. lia.
Qed.

Lemma vector_get_middle {A} (l1 : list A) x l2 :
  vector_get (l1 ++ x :: l2) (Z.of_nat (length l1)) = Some x.
Proof.
  unfold vector_get. rewrite length_app. simpl.
  rewrite (proj2 (Z.leb_le _ _)) by lia.
  rewrite (proj2 (Z.ltb_lt _ _)) by lia. simpl.
  rewrite Nat2Z.id. by rewrite list_lookup_middle.
Qed.

Lemma ReadLength_loop_eq attributes_ offset v :
  ReadLength_loop attributes_ offset v =
  match ref_at attributes_ (Z.of_nat offset) with
  | Ok byte =>
      if bool_decide (Z.land byte 0x80 ≠ 0) then
        match offset with
        | O => Abort
        | S offset' => ReadLength_loop attributes_ offset' (vbr_step v byte)
        end
      else Ok (vbr_step v byte)
  | _ => Abort
  end.
Proof. by destruct offset. Qed.

Lemma ReadLength_loop_run a pre last conts post V :
  Z.land last 0x80 = 0 ->
  Forall (fun c => Z.land c 0x80 ≠ 0) conts ->
  ReadLength_loop (mkArrayRef a (pre ++ last :: conts ++ post))
                  (length pre + length conts) (V mod 2 ^ 64)
  = Ok ((V * 128 ^ Z.of_nat (S (length conts))
         + reverse_vbr_value (reverse conts ++ [last])) mod 2 ^ 64).
Proof.
  intros Hlast. revert post V.
  induction conts as [|c cs IH] using rev_ind; intros post V Hconts.
  - rewrite ReadLength_loop_eq. simpl length. rewrite Nat.add_0_r.
    unfold ref_at. cbn [elems app]. rewrite vector_get_middle.
    rewrite bool_decide_eq_false_2 by (intros ?; done).
    rewrite vbr_step_value. simpl. f_equal. f_equal. lia.
  - apply Forall_app in Hconts as [Hcs Hc].
    apply (proj1 (Forall_singleton _ _)) in Hc.
    rewrite length_app. simpl length.
    replace (length pre + (length cs + 1))%nat
      with (S (length pre + length cs)) by lia.
    rewrite ReadLength_loop_eq.
    unfold ref_at. cbn [elems].
    replace (pre ++ last :: (cs ++ [c]) ++ post)
      with ((pre ++ last :: cs) ++ c :: post)
      by (rewrite <- ?app_assoc; simpl; rewrite <- ?app_assoc; reflexivity).
    replace (Z.of_nat (S (length pre + length cs)))
      with (Z.of_nat (length (pre ++ last :: cs)))
      by (rewrite length_app; simpl; lia).
    rewrite vector_get_middle.
    rewrite bool_decide_eq_true_2 by exact Hc.
    rewrite vbr_step_value.
    replace ((pre ++ last :: cs) ++ c :: post)
      with (pre ++ last :: cs ++ (c :: post))
      by (rewrite <- ?app_assoc; reflexivity).
    rewrite IH by done. f_equal. f_equal.
    rewrite reverse_snoc. cbn [app reverse_vbr_value].
    rewrite length_app, length_reverse. simpl length.
    rewrite !Nat2Z.inj_succ, Nat2Z.inj_add, !Z.pow_succ_r by lia.
    change (Z.of_nat 1) with 1. rewrite Z.pow_add_r, Z.pow_1_r by lia. lia.
Qed.

(** C2, as the code has it: the bytes at [offset - 1], [offset - 2], ... each
    carry seven payload bits in their low bits; a byte whose high bit is set
    is followed by one more, read at the next lower address; the byte read
    first, at [offset - 1], contributes the most significant bits, and the
    final byte read (high bit clear, at the smallest address) the least
    significant seven bits of the length, which wraps at 2^64. Here [last]
    is that final byte, [conts] the bytes with the high bit set in address
    order, and the attribute starts right after them. *)
Theorem ReadLength_reverse_vbr a pre last conts post :
  Z.land last 0x80 = 0 ->
  Forall (fun c => Z.land c 0x80 ≠ 0) conts ->
  let result := reverse_vbr_value (reverse conts ++ [last]) mod 2 ^ 64 in
  ReadLength (mkArrayRef a (pre ++ last :: conts ++ post))
             (Z.of_nat (length pre + 1 + length conts)) = Ok result
  /\ result mod 128 = payload last.
Proof.
  intros Hlast Hconts result. split.
  - unfold ReadLength.
    rewrite (proj2 (Z.ltb_lt _ _)) by lia.
    replace (Z.to_nat (Z.of_nat (length pre + 1 + length conts) - 1))
      with (length pre + length conts)%nat by lia.
    change 0 with (0 mod 2 ^ 64) at 1.
    rewrite ReadLength_loop_run by done. by rewrite Z.mul_0_l.
  - unfold result. rewrite reverse_vbr_value_snoc.
    rewrite Z.mod_mod_divide by (by exists (2 ^ 57)).
    rewrite Z.add_comm, Z_mod_plus_full.
    apply Z.mod_small, payload_range.
Qed.

Lemma ReadLength_reverse_vbr_witness :
  Z.land 0x01 0x80 = 0 /\
  ReadLength (mkArrayRef 0 [0x01; 0x82]) 2 = Ok 257 /\ 257 mod 128 = 1.
Proof.
  split; [reflexivity|].
  apply (ReadLength_reverse_vbr 0 [] 0x01 [0x82] []); [reflexivity|].
  constructor; [|constructor]. intros E. vm_compute in E. discriminate E.
Defined.

(** C2 as stated fails: with the bytes 0x01 0x82 before the attribute, the
    final byte read is 0x01 and the length is 2 * 128 + 1, not 1 * 128 + 2. *)
Lemma ReadLength_final_byte_is_not_most_significant :
  ReadLength (mkArrayRef 0 [0x01; 0x82]) 2
  <> Ok (length_as_specified [0x82; 0x01]).
Proof. vm_compute. discriminate. Qed.

End ReadLength.

(** ** The diagnostics log *)

Section log.
Context {A B : Type}.

Lemma bind_Ok (m : M A) (k : A -> M B) d b d' :
  (m ≫= k) d = (Ok b, d') ->
  exists a d1, m d = (Ok a, d1) /\ k a d1 = (Ok b, d').
Proof.
  unfold mbind, M_bind, Mbind_. destruct (m d) as [[a| |] d1]; try discriminate.
  eauto.
Qed.

Lemma bind_run (m : M A) (k : A -> M B) d a d1 :
  m d = (Ok a, d1) -> (m ≫= k) d = k a d1.
Proof. unfold mbind, M_bind, Mbind_. by intros ->. Qed.

Lemma bind_Failure (m : M A) (k : A -> M B) d d1 :
  m d = (Failure, d1) -> (m ≫= k) d = (Failure, d1).
Proof. unfold mbind, M_bind, Mbind_. by intros ->. Qed.

Lemma bind_Abort (m : M A) (k : A -> M B) d d1 :
  m d = (Abort, d1) -> (m ≫= k) d = (Abort, d1).
Proof. unfold mbind, M_bind, Mbind_. by intros ->. Qed.

Lemma lift_res_Ok (r : Res A) d a d' :
  lift_res r d = (Ok a, d') -> r = Ok a /\ d' = d.
Proof. unfold lift_res. by intros [= -> ->]. Qed.

Lemma or_error_at_Ok loc (m : M A) message d a d' :
  or_error_at loc m message d = (Ok a, d') -> m d = (Ok a, d').
Proof.
  unfold or_error_at, emit_error_at.
  by destruct (m d) as [[?| |] ?]; intros [= <- <-].
Qed.

Lemma or_error_at_Failure loc (m : M A) message d d1 :
  m d = (Failure, d1) ->
  or_error_at loc m message d = (Failure, d1 ++ [mkDiag SevError loc message]).
Proof. unfold or_error_at, emit_error_at. by intros ->. Qed.

Lemma bind_lift_Ok (r : Res A) (k : A -> M B) d b d' :
  (lift_res r ≫= k) d = (Ok b, d') -> exists a, r = Ok a /\ k a d = (Ok b, d').
Proof.
  intros E. apply bind_Ok in E as (a & d1 & E1 & E2).
  apply lift_res_Ok in E1 as [-> ->]. eauto.
Qed.

Lemma bind_or_error_Ok loc (m : M A) message (k : A -> M B) d b d' :
  (or_error_at loc m message ≫= k) d = (Ok b, d') ->
  exists a d1, m d = (Ok a, d1) /\ k a d1 = (Ok b, d').
Proof.
  intros E. apply bind_Ok in E as (a & d1 & E1 & E2).
  apply or_error_at_Ok in E1. eauto.
Qed.

Lemma bind_or_error_lift_Ok loc (r : Res A) message (k : A -> M B) d b d' :
  (or_error_at loc (lift_res r) message ≫= k) d = (Ok b, d') ->
  exists a, r = Ok a /\ k a d = (Ok b, d').
Proof.
  intros E. apply bind_or_error_Ok in E as (a & d1 & E1 & E2).
  apply lift_res_Ok in E1 as [-> ->]. eauto.
Qed.

End log.

Section quiet.
Context {A B : Type}.

Lemma quiet_ret (a : A) : quiet (mret a).
Proof. by intros d a' d' [= _ ->]. Qed.

Lemma quiet_lift_res (r : Res A) : quiet (lift_res r).
Proof. intros d a d' E. by apply lift_res_Ok in E as [_ ->]. Qed.

Lemma quiet_fail : quiet (@fail_ A).
Proof. by intros d a d'. Qed.

Lemma quiet_abort : quiet (@abort_ A).
Proof. by intros d a d'. Qed.

Lemma quiet_emit_error_at loc message : quiet (@emit_error_at A loc message).
Proof. by intros d a d'. Qed.

Lemma quiet_or_error_at loc (m : M A) message :
  quiet m -> quiet (or_error_at loc m message).
Proof. intros Hm d a d' E. apply or_error_at_Ok in E. eauto. Qed.

Lemma quiet_bind (m : M A) (k : A -> M B) :
  quiet m -> (forall a, quiet (k a)) -> quiet (m ≫= k).
Proof.
  intros Hm Hk d b d' E. apply bind_Ok in E as (a & d1 & E1 & E2).
  apply Hm in E1 as ->. by apply Hk in E2.
Qed.

End quiet.

Create HintDb quiet.
#[global] Hint Resolve quiet_ret quiet_lift_res quiet_fail quiet_abort
  quiet_emit_error_at : quiet.

(** Proves [quiet] for a call built from quiet calls: a known call first,
    then the structure of the call. *)
Ltac quiet_step :=
  first
    [ solve [auto 1 with quiet nocore]
    | simple apply quiet_or_error_at
    | simple apply quiet_bind; [|intros ?]
    | match goal with
      | |- quiet (match ?x with _ => _ end) => destruct x
      | |- quiet (let (_, _) := ?x in _) => destruct x
      end ].
Ltac quiet_tac := repeat quiet_step.

(** ** A function body that decodes issues no diagnostic *)

Section function_reader_quiet.
Import BEFFunctionReader.
Context `{BEFEncoding}.
Variable bef_file_ : BEFFile.
Variable bef_function_ : BEFFunction.
Variable fn : nat.

Lemma AddDefinition_quiet regs v i : quiet (AddDefinition bef_file_ regs v i).
Proof. unfold AddDefinition, emit_error. quiet_tac. Qed.
#[local] Hint Resolve AddDefinition_quiet : quiet.

Lemma resolve_arguments_quiet n kernel arguments i regs operands :
  quiet (resolve_arguments bef_file_ n kernel arguments i regs operands).
Proof.
  revert i operands. induction n as [|n IH]; intros i operands; simpl;
    unfold emit_error; quiet_tac.
Qed.
#[local] Hint Resolve resolve_arguments_quiet : quiet.

Lemma resolve_functions_quiet n kernel functions i attrs regions indices :
  quiet (resolve_functions bef_file_ n kernel functions i attrs regions indices).
Proof.
  revert i attrs regions indices.
  induction n as [|n IH]; intros i attrs regions indices; simpl;
    unfold emit_error; quiet_tac.
Qed.
#[local] Hint Resolve resolve_functions_quiet : quiet.

Lemma add_definitions_quiet n kernel results op i entry_offset regs :
  quiet (add_definitions bef_file_ n kernel results op i entry_offset regs).
Proof.
  revert i entry_offset regs.
  induction n as [|n IH]; intros i entry_offset regs; simpl; quiet_tac.
Qed.
#[local] Hint Resolve add_definitions_quiet : quiet.

Lemma ReadKernel_quiet kernels_ offset_ op_id regs names refs :
  quiet (ReadKernel bef_file_ kernels_ offset_ op_id regs names refs).
Proof.
  unfold ReadKernel. quiet_tac.
Qed.
#[local] Hint Resolve ReadKernel_quiet : quiet.

Lemma define_arguments_quiet kernel results i entry_arguments regs :
  quiet (define_arguments bef_file_ kernel results i entry_arguments regs).
Proof.
  revert i regs. induction entry_arguments as [|arg args IH]; intros i regs;
    simpl; quiet_tac.
Qed.
#[local] Hint Resolve define_arguments_quiet : quiet.

Lemma ReadArgumentsPseudoKernel_quiet kernels_ entry_arguments regs :
  quiet (ReadArgumentsPseudoKernel bef_file_ kernels_ entry_arguments regs).
Proof.
  unfold ReadArgumentsPseudoKernel. quiet_tac.
Qed.
#[local] Hint Resolve ReadArgumentsPseudoKernel_quiet : quiet.

Lemma ReadKernels_loop_quiet entries kernels_ ops regs names refs :
  quiet (ReadKernels_loop bef_file_ fn entries kernels_ ops regs names refs).
Proof.
  revert ops regs names refs.
  induction entries as [|e entries IH]; intros ops regs names refs; simpl;
    quiet_tac.
Qed.
#[local] Hint Resolve ReadKernels_loop_quiet : quiet.

Lemma return_operands_quiet result_regs_ regs operands :
  quiet (return_operands bef_file_ result_regs_ regs operands).
Proof.
  revert operands. induction result_regs_ as [|r rs IH]; intros operands; simpl;
    unfold emit_error; quiet_tac.
Qed.
#[local] Hint Resolve return_operands_quiet : quiet.

Lemma ReadKernels_quiet kernels_ names args loc regs kernel_table_ result_regs_ refs :
  quiet (ReadKernels bef_file_ fn kernels_ names args loc regs kernel_table_
                     result_regs_ refs).
Proof.
  unfold ReadKernels, or_error. quiet_tac.
Qed.
#[local] Hint Resolve ReadKernels_quiet : quiet.

Lemma ReadFunction_quiet function_reader_ names register_types refs :
  quiet (ReadFunction bef_file_ bef_function_ fn function_reader_ names
                      register_types refs).
Proof.
  unfold ReadFunction, or_error, emit_error. quiet_tac.
Qed.

End function_reader_quiet.

(** ** The attributes of a kernel *)

Section kernel_attributes.
Import BEFFunctionReader.
Variable bef_file_ : BEFFile.

Lemma resolve_attributes_run n kernel e i names attrs :
  resolve_attributes bef_file_ n kernel e i names attrs <> Failure /\
  forall attrs' names',
    resolve_attributes bef_file_ n kernel e i names attrs = Ok (attrs', names') ->
    exists new, attrs' = attrs ++ new /\ length new = n /\
      forall (j : nat) off,
        (j < n)%nat ->
        BEFKernel.entry kernel e (i + Z.of_nat j) = Ok off ->
        GetAttribute bef_file_ off = None ->
        exists name, new !! j = Some (name, dummy_attribute).
Proof.
  revert i names attrs. induction n as [|n IH]; intros i names attrs.
  - simpl. split; [done|]. intros attrs' names' [= <- <-].
    exists []. rewrite app_nil_r. repeat split; auto. intros; lia.
  - cbn [resolve_attributes]. unfold mbind at 1, Res_bind.
    destruct (BEFKernel.entry kernel e i) as [off0| |] eqn:Hentry.
    2: { unfold BEFKernel.entry in Hentry. unfold BEFKernel.word in Hentry.
         repeat case_match; discriminate. }
    2: { split; [done|]. intros; discriminate. }
    destruct (match BEFReader.ReadInt names with
              | (Some o, r) => _
              | (None, r) => _
              end) as [attr_name names1].
    destruct (IH (i + 1) names1
                (attrs ++ [(attr_name,
                            match GetAttribute bef_file_ off0 with
                            | Some attr => attr
                            | None => dummy_attribute
                            end)])) as [Hnf Hok].
    split; [done|]. intros attrs' names' E.
    destruct (Hok _ _ E) as (new & -> & Hlen & Hnew).
    eexists (_ :: new). rewrite <- app_assoc. split; [done|].
    split; [simpl; lia|]. intros [|j] off Hj Hoff Hnone.
    + rewrite Z.add_0_r, Hentry in Hoff. injection Hoff as <-.
      rewrite Hnone. by eexists.
    + simpl. apply (Hnew j off); [lia| |done].
      rewrite <- Hoff. f_equal. lia.
Qed.

(** C4, as the code has it: when a kernel refers to an attribute offset
    that is not in the attribute map of the file, the attribute it gets is
    the placeholder, a 32-bit integer attribute of value 0xDEADBEEF, and the
    kernel goes on: reading its attributes never fails. No diagnostic is
    issued for the substitution: a kernel that is read has left the log as
    it was. *)
Theorem unknown_attribute_is_replaced_silently n kernel e names attrs :
  resolve_attributes bef_file_ n kernel e 0 names attrs <> Failure /\
  (forall attrs' names' (j : nat) off,
     resolve_attributes bef_file_ n kernel e 0 names attrs = Ok (attrs', names') ->
     (j < n)%nat ->
     BEFKernel.entry kernel e (Z.of_nat j) = Ok off ->
     attributes bef_file_ !! off = None ->
     exists name,
       attrs' !! (length attrs + j)%nat
       = Some (name, IntegerAttr (IntegerType 32) 32 0xdeadbeef)) /\
  (forall kernels_ offset_ op_id regs refs d r d',
     ReadKernel bef_file_ kernels_ offset_ op_id regs names refs d = (Ok r, d') ->
     d' = d).
Proof.
  destruct (resolve_attributes_run n kernel e 0 names attrs) as [Hnf Hok].
  split; [done|]. split.
  - intros attrs' names' j off E Hj Hoff Hnone.
    destruct (Hok _ _ E) as (new & -> & Hlen & Hnew).
    destruct (Hnew j off Hj) as [name Hname]; [done| |].
    { unfold GetAttribute. by rewrite Hnone. }
    exists name. rewrite lookup_app_r by lia.
    by replace (length attrs + j - length attrs)%nat with j by lia.
  - intros. by eapply ReadKernel_quiet.
Qed.

End kernel_attributes.

Lemma unknown_attribute_is_replaced_silently_witness :
  let kernel := BEFKernel.mk [0; 0; 0; 1; 0; 0; 7] 0 in
  let e := BEFKernel.mkEntries 6 1 in
  let bef_file_ := new_BEFFile Example.origin in
  BEFFunctionReader.resolve_attributes bef_file_ 1 kernel e 0 empty_ref []
  = Ok ([("attr0", BEFFunctionReader.dummy_attribute)], empty_ref) /\
  exists name,
    [("attr0", BEFFunctionReader.dummy_attribute)] !! 0%nat
    = Some (name, IntegerAttr (IntegerType 32) 32 0xdeadbeef).
Proof.
  intros kernel e bef_file_. split; [reflexivity|].
  destruct (unknown_attribute_is_replaced_silently bef_file_ 1 kernel e
              empty_ref []) as (_ & Hsubst & _).
  apply (Hsubst _ empty_ref 0%nat 7); [reflexivity|lia|reflexivity|reflexivity].
Defined.

(** C4 as stated fails: the file has a kernel whose attribute offset 7 is
    not in the attribute map; the kernel gets the placeholder, the module is
    returned and the log is empty: no warning was issued. *)
Lemma unknown_attribute_file_has_no_warning :
  exists m f body op,
    ConvertBEFToMLIR (H := Example.encoding) Example.origin
                     Example.unknown_attribute_file = (Ok m, []) /\
    module_functions m = [f] /\ func_body f = Some body /\
    region_ops body !! 0%nat = Some op /\
    op_attributes op = [("x", IntegerAttr (IntegerType 32) 32 0xdeadbeef)].
Proof.
  do 4 eexists. split; [vm_compute; reflexivity|].
  repeat split; reflexivity.
Qed.

(** ** The declared number of uses of a register *)

Section relations.
Context {A B : Type}.

Lemma res_rel_eq (x y : Res A) : res_rel eq x y -> x = y.
Proof. destruct x, y; simpl; intros; by subst. Qed.

Lemma res_rel_refl (x : Res A) : res_rel eq x x.
Proof. by destruct x. Qed.

Lemma res_rel_bind (R : A -> A -> Prop) (S : B -> B -> Prop)
    (x y : Res A) (k k' : A -> Res B) :
  res_rel R x y -> (forall a a', R a a' -> res_rel S (k a) (k' a')) ->
  res_rel S (x ≫= k) (y ≫= k').
Proof. destruct x, y; simpl; intros; by auto. Qed.

Lemma m_rel_eq (m m' : M A) : m_rel eq m m' -> forall d, m d = m' d.
Proof.
  intros Hm d. destruct (Hm d) as [H1 H2].
  destruct (m d), (m' d); simpl in *. f_equal; [by apply res_rel_eq|done].
Qed.

Lemma m_rel_refl (m : M A) : m_rel eq m m.
Proof. intros d. split; [apply res_rel_refl|done]. Qed.

Lemma m_rel_ret (R : A -> A -> Prop) a a' : R a a' -> m_rel R (mret a) (mret a').
Proof. by intros Ha d. Qed.

Lemma m_rel_lift_res (R : A -> A -> Prop) (x y : Res A) :
  res_rel R x y -> m_rel R (lift_res x) (lift_res y).
Proof. by intros Hx d. Qed.

Lemma m_rel_bind (R : A -> A -> Prop) (S : B -> B -> Prop)
    (m m' : M A) (k k' : A -> M B) :
  m_rel R m m' -> (forall a a', R a a' -> m_rel S (k a) (k' a')) ->
  m_rel S (m ≫= k) (m' ≫= k').
Proof.
  intros Hm Hk d. unfold mbind, M_bind, Mbind_.
  destruct (Hm d) as [H1 H2].
  destruct (m d) as [[a| |] d1], (m' d) as [[a'| |] d1']; simpl in *;
    subst; try done.
  by apply Hk.
Qed.

Lemma m_rel_or_error_at (R : A -> A -> Prop) loc (m m' : M A) message :
  m_rel R m m' -> m_rel R (or_error_at loc m message) (or_error_at loc m' message).
Proof.
  intros Hm d. unfold or_error_at, emit_error_at. destruct (Hm d) as [H1 H2].
  destruct (m d) as [[a| |] d1], (m' d) as [[a'| |] d1']; simpl in *;
    subst; done.
Qed.

End relations.

Section declared_uses.
Import BEFFunctionReader.
Context `{BEFEncoding}.
Variable bef_file_ : BEFFile.
Variable fn : nat.

Local Abbreviation same_tables := (Forall2 same_but_uses).

Lemma vector_get_rel regs regs' i :
  same_tables regs regs' ->
  option_Forall2 same_but_uses (vector_get regs i) (vector_get regs' i).
Proof.
  intros Hregs. unfold vector_get. rewrite <- (Forall2_length _ _ _ Hregs).
  case_match; [|constructor]. by apply Forall2_lookup.
Qed.

Lemma GetRegister_rel regs regs' i :
  same_tables regs regs' ->
  res_rel same_but_uses (GetRegister regs i) (GetRegister regs' i).
Proof.
  intros Hregs. unfold GetRegister.
  by destruct (vector_get_rel regs regs' i Hregs).
Qed.

Lemma AddDefinition_rel regs regs' v i :
  same_tables regs regs' ->
  m_rel same_tables (AddDefinition bef_file_ regs v i)
                    (AddDefinition bef_file_ regs' v i).
Proof.
  intros Hregs. unfold AddDefinition.
  eapply m_rel_bind; [by apply m_rel_lift_res, GetRegister_rel|].
  intros r r' (Ht & Hu & Hv). rewrite <- Ht, <- Hv.
  destruct (value r); [apply m_rel_refl|].
  case_match; [|apply m_rel_refl].
  apply m_rel_ret, Forall2_insert; [done|]. by repeat split.
Qed.

Lemma set_usedbys_rel regs regs' i e :
  same_tables regs regs' ->
  res_rel same_tables (set_usedbys regs i e) (set_usedbys regs' i e).
Proof.
  intros Hregs. unfold set_usedbys.
  eapply res_rel_bind; [by apply GetRegister_rel|].
  intros r r' (Ht & Hu & Hv). simpl.
  apply Forall2_insert; [done|]. by repeat split.
Qed.

Lemma resolve_arguments_rel n kernel arguments i regs regs' operands :
  same_tables regs regs' ->
  m_rel eq (resolve_arguments bef_file_ n kernel arguments i regs operands)
           (resolve_arguments bef_file_ n kernel arguments i regs' operands).
Proof.
  intros Hregs. revert i operands.
  induction n as [|n IH]; intros i operands; simpl; [apply m_rel_refl|].
  eapply m_rel_bind; [apply m_rel_refl|]. intros register_index ? <-.
  eapply m_rel_bind; [by apply m_rel_lift_res, GetRegister_rel|].
  intros r r' (Ht & Hu & Hv). rewrite <- Hv.
  destruct (value r); [apply IH|apply m_rel_refl].
Qed.

Lemma resolve_results_rel n kernel results i regs regs' types_ :
  same_tables regs regs' ->
  res_rel eq (resolve_results n kernel results i regs types_)
             (resolve_results n kernel results i regs' types_).
Proof.
  intros Hregs. revert i types_.
  induction n as [|n IH]; intros i types_; simpl; [done|].
  eapply res_rel_bind; [apply res_rel_refl|]. intros register_index ? <-.
  eapply res_rel_bind; [by apply GetRegister_rel|].
  intros r r' (Ht & Hu & Hv). rewrite <- Ht. apply IH.
Qed.

Lemma add_definitions_rel n kernel results op i entry_offset regs regs' :
  same_tables regs regs' ->
  m_rel same_tables
    (add_definitions bef_file_ n kernel results op i entry_offset regs)
    (add_definitions bef_file_ n kernel results op i entry_offset regs').
Proof.
  revert i entry_offset regs regs'.
  induction n as [|n IH]; intros i entry_offset regs regs' Hregs; simpl;
    [by apply m_rel_ret|].
  eapply m_rel_bind; [apply m_rel_refl|]. intros register_index ? <-.
  eapply m_rel_bind; [apply m_rel_refl|]. intros v ? <-.
  eapply m_rel_bind; [by apply AddDefinition_rel|]. intros regs1 regs1' Hregs1.
  eapply m_rel_bind; [apply m_rel_refl|]. intros num_used_bys ? <-.
  eapply m_rel_bind; [apply m_rel_refl|]. intros e ? <-.
  eapply m_rel_bind; [by apply m_rel_lift_res, set_usedbys_rel|].
  intros regs2 regs2' Hregs2. by apply IH.
Qed.

Lemma ReadKernel_rel kernels_ offset_ op_id regs regs' names refs :
  same_tables regs regs' ->
  m_rel kernel_rel
    (ReadKernel bef_file_ kernels_ offset_ op_id regs names refs)
    (ReadKernel bef_file_ kernels_ offset_ op_id regs' names refs).
Proof.
  intros Hregs. unfold ReadKernel.
  case_match; [apply m_rel_refl|].
  eapply m_rel_bind; [apply m_rel_refl|]. intros kernel_code ? <-.
  eapply m_rel_bind; [apply m_rel_refl|]. intros name_ ? <-.
  eapply m_rel_bind; [apply m_rel_refl|]. intros kernel_location ? <-.
  eapply m_rel_bind; [apply m_rel_refl|]. intros location_ ? <-.
  eapply m_rel_bind; [apply m_rel_refl|]. intros num_arguments ? <-.
  eapply m_rel_bind; [apply m_rel_refl|]. intros arguments ? <-.
  eapply m_rel_bind; [by apply resolve_arguments_rel|]. intros operands ? <-.
  destruct (match BEFReader.ReadByte names with
            | (Some b, r) => _ | (None, r) => _ end) as [attrs names1].
  eapply m_rel_bind; [apply m_rel_refl|]. intros num_attributes ? <-.
  eapply m_rel_bind; [apply m_rel_refl|]. intros attributes_ ? <-.
  eapply m_rel_bind; [apply m_rel_refl|]. intros [attrs1 names2] ? <-.
  eapply m_rel_bind; [apply m_rel_refl|]. intros num_functions ? <-.
  eapply m_rel_bind; [apply m_rel_refl|]. intros functions ? <-.
  eapply m_rel_bind; [apply m_rel_refl|].
  intros [[attrs2 regions] function_indices] ? <-.
  eapply m_rel_bind; [apply m_rel_refl|]. intros num_results ? <-.
  eapply m_rel_bind; [apply m_rel_refl|]. intros results ? <-.
  eapply m_rel_bind;
    [apply m_rel_lift_res; by apply resolve_results_rel|].
  intros types_ ? <-.
  eapply m_rel_bind; [by apply add_definitions_rel|]. intros regs1 regs1' Hregs1.
  repeat case_match; try apply m_rel_refl; by apply m_rel_ret.
Qed.

Lemma define_arguments_rel kernel results i entry_arguments regs regs' :
  same_tables regs regs' ->
  m_rel same_tables
    (define_arguments bef_file_ kernel results i entry_arguments regs)
    (define_arguments bef_file_ kernel results i entry_arguments regs').
Proof.
  revert i regs regs'.
  induction entry_arguments as [|arg args IH]; intros i regs regs' Hregs; simpl;
    [by apply m_rel_ret|].
  eapply m_rel_bind; [apply m_rel_refl|]. intros register_index ? <-.
  eapply m_rel_bind; [by apply AddDefinition_rel|]. intros regs1 regs1' Hregs1.
  by apply IH.
Qed.

Lemma read_usedbys_rel n kernel results i entry_offset regs regs' :
  same_tables regs regs' ->
  res_rel same_tables (read_usedbys n kernel results i entry_offset regs)
                      (read_usedbys n kernel results i entry_offset regs').
Proof.
  revert i entry_offset regs regs'.
  induction n as [|n IH]; intros i entry_offset regs regs' Hregs; simpl; [done|].
  eapply res_rel_bind; [apply res_rel_refl|]. intros register_index ? <-.
  eapply res_rel_bind; [apply res_rel_refl|]. intros num_used_bys ? <-.
  eapply res_rel_bind; [apply res_rel_refl|]. intros e ? <-.
  eapply res_rel_bind; [by apply set_usedbys_rel|]. intros regs1 regs1' Hregs1.
  by apply IH.
Qed.

Lemma ReadArgumentsPseudoKernel_rel kernels_ entry_arguments regs regs' :
  same_tables regs regs' ->
  m_rel same_tables
    (ReadArgumentsPseudoKernel bef_file_ kernels_ entry_arguments regs)
    (ReadArgumentsPseudoKernel bef_file_ kernels_ entry_arguments regs').
Proof.
  intros Hregs. unfold ReadArgumentsPseudoKernel.
  eapply m_rel_bind; [apply m_rel_refl|]. intros num_arguments ? <-.
  eapply m_rel_bind; [apply m_rel_refl|]. intros num_attributes ? <-.
  eapply m_rel_bind; [apply m_rel_refl|]. intros num_functions ? <-.
  eapply m_rel_bind; [apply m_rel_refl|]. intros num_results ? <-.
  case_match; [apply m_rel_refl|].
  eapply m_rel_bind; [apply m_rel_refl|]. intros results ? <-.
  eapply m_rel_bind; [by apply define_arguments_rel|]. intros regs1 regs1' Hregs1.
  by apply m_rel_lift_res, read_usedbys_rel.
Qed.

Lemma ReadKernels_loop_rel entries kernels_ ops regs regs' names refs :
  same_tables regs regs' ->
  m_rel kernel_rel
    (ReadKernels_loop bef_file_ fn entries kernels_ ops regs names refs)
    (ReadKernels_loop bef_file_ fn entries kernels_ ops regs' names refs).
Proof.
  revert ops regs regs' names refs.
  induction entries as [|e entries IH]; intros ops regs regs' names refs Hregs;
    simpl; [by apply m_rel_ret|].
  eapply m_rel_bind; [by apply ReadKernel_rel|].
  intros [[[op regs1] names1] refs1] [[[op' regs1'] names1'] refs1'].
  intros (Hop & Hregs1 & Hnames & Hrefs). simpl in *. subst. by apply IH.
Qed.

Lemma return_operands_rel result_regs_ regs regs' operands :
  same_tables regs regs' ->
  m_rel eq (return_operands bef_file_ result_regs_ regs operands)
           (return_operands bef_file_ result_regs_ regs' operands).
Proof.
  intros Hregs. revert operands.
  induction result_regs_ as [|r rs IH]; intros operands; simpl;
    [apply m_rel_refl|].
  eapply m_rel_bind; [by apply m_rel_lift_res, GetRegister_rel|].
  intros reg reg' (Ht & Hu & Hv). rewrite <- Hv.
  destruct (value reg); [apply IH|apply m_rel_refl].
Qed.

Lemma ReadKernels_rel kernels_ names args loc regs regs' kernel_table_
    result_regs_ refs :
  same_tables regs regs' ->
  m_rel eq
    (ReadKernels bef_file_ fn kernels_ names args loc regs kernel_table_
                 result_regs_ refs)
    (ReadKernels bef_file_ fn kernels_ names args loc regs' kernel_table_
                 result_regs_ refs).
Proof.
  intros Hregs. unfold ReadKernels.
  eapply m_rel_bind; [apply m_rel_refl|]. intros names1 ? <-.
  eapply (m_rel_bind
            (fun x y => x.1.1 = y.1.1 /\ same_tables x.1.2 y.1.2 /\ x.2 = y.2)).
  { destruct args; [by apply m_rel_ret|].
    eapply m_rel_bind;
      [by apply m_rel_or_error_at, ReadArgumentsPseudoKernel_rel|].
    intros regs1 regs1' Hregs1. repeat case_match; try apply m_rel_refl;
      by apply m_rel_ret. }
  intros [[start regs1] names2] [[start' regs1'] names2'] (Hs & Hregs1 & Hn).
  simpl in *. subst.
  eapply m_rel_bind; [by apply ReadKernels_loop_rel|].
  intros [[[ops regs2] names3] refs3] [[[ops' regs2'] names3'] refs3'].
  intros (Hop & Hregs2 & Hnames & Hrefs). simpl in *. subst.
  eapply m_rel_bind; [by apply return_operands_rel|]. intros operands ? <-.
  apply m_rel_refl.
Qed.

Lemma push_registers_uses i reg_type_indices reg_uses regs :
  push_registers bef_file_ i reg_type_indices reg_uses = Ok regs ->
  num_uses <$> regs = reg_uses.
Proof.
  revert i regs. induction reg_uses as [|uses reg_uses IH]; intros i regs; simpl.
  - by intros [= <-].
  - unfold mbind, Res_bind.
    repeat case_match; try discriminate; intros [= <-]; simpl; f_equal; eauto.
Qed.

(** C5, as the code has it: the declared number of uses of a register is
    read from the register-uses array into the register table and is never
    looked at again. Two register tables that differ only in the declared
    numbers of uses are read the same way: the same block or the same
    failure, and the same log. The decoder neither fails nor warns when the
    declared number differs from the number of operand positions that use
    the register: a function body that decodes has issued no diagnostic. *)
Theorem declared_uses_are_never_checked kernels_ names args loc regs regs'
    kernel_table_ result_regs_ refs :
  Forall2 same_but_uses regs regs' ->
  (forall d,
     ReadKernels bef_file_ fn kernels_ names args loc regs kernel_table_
                 result_regs_ refs d
     = ReadKernels bef_file_ fn kernels_ names args loc regs' kernel_table_
                   result_regs_ refs d) /\
  (forall d r d',
     ReadKernels bef_file_ fn kernels_ names args loc regs kernel_table_
                 result_regs_ refs d = (Ok r, d') -> d' = d) /\
  (forall function_reader_ register_types reg_uses r1 regs0 r2 r3,
     ReadIntArray function_reader_ = (Some reg_uses, r1) ->
     ReadRegisterTable bef_file_ function_reader_ register_types
     = Ok (regs0, r2, r3) ->
     num_uses <$> regs0 = reg_uses).
Proof.
  intros Hregs. split; [|split].
  - by apply m_rel_eq, ReadKernels_rel.
  - intros d r d' E. by eapply ReadKernels_quiet.
  - intros function_reader_ register_types reg_uses r1 regs0 r2 r3 Huses.
    unfold ReadRegisterTable. rewrite Huses.
    destruct (match ReadIntArray register_types with
              | (Some i, r) => _ | (None, r) => _ end) as [indices rt].
    case_match; [|discriminate]. unfold mbind, Res_bind.
    destruct (push_registers _ _ _ _) as [regs1| |] eqn:Hpush; try discriminate.
    intros [= <- _ _]. by eapply push_registers_uses.
Qed.

End declared_uses.

Lemma declared_uses_are_never_checked_witness :
  let bef_file_ := new_BEFFile Example.origin in
  let i32 := IntegerType 32 in
  let arg := mkValue (BlockArgument 0 0) i32 in
  let reg uses :=
    BEFFunctionReader.mkRegisterInfo i32 uses (BEFKernel.mkEntries 0 0) None in
  let read regs :=
    BEFFunctionReader.ReadKernels (H := Example.encoding) bef_file_ 0
      [0; 0; 0; 0; 0; 1; 1; 0; 0] empty_ref [arg] UnknownLoc regs
      [BEFFunctionReader.mkKernelTableEntry 0 0] [0] [] [] in
  read [reg 5] = read [reg 1] /\
  read [reg 5]
  = (Ok ([mkOperation (0%nat, 0%nat) "hex.return" UnknownLoc [arg] [] [] 0],
         empty_ref, []), []).
Proof.
  intros bef_file_ i32 arg reg read. split; [|reflexivity].
  apply (declared_uses_are_never_checked (H := Example.encoding)).
  constructor; [|constructor]. by repeat split.
Defined.

(** C5 as stated fails: register 0 of the function of the file is declared
    with 5 uses and is used once, by the return op; the module is returned
    and the log is empty: no warning reports the mismatch. *)
Lemma use_count_mismatch_is_not_reported :
  exists m f body,
    ConvertBEFToMLIR (H := Example.encoding) Example.origin
                     Example.use_count_file = (Ok m, []) /\
    module_functions m = [f] /\ func_body f = Some body /\
    op_operands <$> region_ops body
    = [[mkValue (BlockArgument 0 0) (IntegerType 32)]].
Proof.
  do 3 eexists. split; [vm_compute; reflexivity|].
  repeat split; reflexivity.
Qed.

(** ** The header, the sections and the format version *)

Section container.
Import BEFToMLIRConverter.
Context `{BEFEncoding}.

Lemma ReadHeader_Failure (file : ArrayRef) :
  elems file !! 0%nat <> Some kBEFMagic1 \/ elems file !! 1%nat <> Some kBEFMagic2 ->
  ReadHeader file = Failure.
Proof.
  unfold ReadHeader, BEFReader.ReadByte.
  destruct (elems file) as [|b1 [|b2 rest]]; simpl; [done| |].
  - intros [Hb|Hb]; [|by case_bool_decide].
    rewrite bool_decide_eq_true_2; [done|]. by intros ->.
  - intros [Hb|Hb]; case_bool_decide; try done; case_bool_decide; try done.
    + destruct Hb. by subst.
    + destruct Hb. by f_equal.
Qed.

Lemma ConvertBEFToMLIR_bad_header loc file :
  ReadHeader file = Failure ->
  ConvertBEFToMLIR loc file
  = (Failure, [mkDiag SevError loc "Invalid BEF file header."]).
Proof.
  intros E. unfold ConvertBEFToMLIR, ConvertBEFToMLIR_log. cbv zeta.
  erewrite bind_Failure; [done|].
  rewrite (or_error_at_Failure _ _ _ _ []); [done|]. by rewrite E.
Qed.

Lemma ConvertBEFToMLIR_bad_version loc file r r' s d payload :
  ReadHeader file = Ok r ->
  ReadSections (new_BEFFile loc) r BEFSections.init [] = (Ok (r', s), d) ->
  BEFSections.Get s BEFSectionID.kFormatVersion = Ok payload ->
  ReadFormatVersion payload = Failure ->
  ConvertBEFToMLIR loc file
  = (Failure, d ++ [mkDiag SevError loc "Invalid BEF version."]).
Proof.
  intros Hheader Hsections Hget Hversion.
  unfold ConvertBEFToMLIR, ConvertBEFToMLIR_log. cbv zeta.
  erewrite bind_run; [|unfold or_error_at, lift_res; by rewrite Hheader].
  erewrite bind_run; [|unfold or_error_at; by rewrite Hsections].
  cbv beta iota.
  erewrite bind_run; [|unfold lift_res; by rewrite Hget].
  erewrite bind_Failure; [done|].
  apply or_error_at_Failure. unfold lift_res. by rewrite Hversion.
Qed.

Lemma ReadFormatVersion_Failure payload :
  head (elems payload) <> Some kBEFVersion0 ->
  ReadFormatVersion payload = Failure.
Proof.
  unfold ReadFormatVersion, BEFReader.ReadByte.
  destruct (elems payload) as [|b rest]; simpl; [done|].
  intros Hb. rewrite bool_decide_eq_true_2; [done|]. by intros ->.
Qed.

(** C9, as the code has it: no module is produced when either of the first
    two bytes of the input is not the magic byte expected there, and none
    when the first byte of the payload of the FormatVersion section is not
    the supported version, or is missing. Only that first byte is read: the
    bytes of the payload after it play no part. *)
Theorem bad_magic_or_version_gives_no_module loc file r r' s d payload a b rest :
  (elems file !! 0%nat <> Some kBEFMagic1 \/
   elems file !! 1%nat <> Some kBEFMagic2 ->
   ConvertBEFToMLIR loc file
   = (Failure, [mkDiag SevError loc "Invalid BEF file header."])) /\
  (ReadHeader file = Ok r ->
   ReadSections (new_BEFFile loc) r BEFSections.init [] = (Ok (r', s), d) ->
   BEFSections.Get s BEFSectionID.kFormatVersion = Ok payload ->
   head (elems payload) <> Some kBEFVersion0 ->
   ConvertBEFToMLIR loc file
   = (Failure, d ++ [mkDiag SevError loc "Invalid BEF version."])) /\
  ReadFormatVersion (mkArrayRef a (b :: rest))
  = ReadFormatVersion (mkArrayRef a [b]).
Proof.
  split; [|split].
  - intros Hmagic. by apply ConvertBEFToMLIR_bad_header, ReadHeader_Failure.
  - intros Hheader Hsections Hget Hversion.
    eapply ConvertBEFToMLIR_bad_version; eauto.
    by apply ReadFormatVersion_Failure.
  - done.
Qed.

Lemma ReadInt_zero a rest :
  BEFReader.ReadInt (mkArrayRef a (0 :: rest)) = (Some 0, mkArrayRef (a + 1) rest).
Proof. done. Qed.

Lemma Set_unknown_section s id section_data :
  length s = 12%nat -> 12 <= id < 256 ->
  BEFSections.Set_ s id section_data = Abort.
Proof.
  intros Hs Hid. unfold BEFSections.Set_, vector_get.
  rewrite Z.mod_small, Hs by lia.
  rewrite (proj2 (Z.ltb_ge _ _)), andb_false_r by lia. done.
Qed.

Lemma ReadNextSection_unknown a id rest s :
  length s = 12%nat -> 12 <= id < 256 ->
  ReadNextSection (mkArrayRef a (id :: 0 :: rest)) s = Abort.
Proof.
  intros Hs Hid. unfold ReadNextSection, BEFReader.ReadSection.
  cbn [BEFReader.ReadByte elems data]. rewrite ReadInt_zero.
  rewrite (proj2 (Z.leb_le 0 _)) by (unfold ref_size; lia).
  by rewrite Set_unknown_section.
Qed.

(** C6: a section whose identifier is outside the known set is not skipped.
    [BEFSections::Set] indexes the vector of sections with [at], which is
    out of range for such an identifier: the conversion of a file whose
    first section has one stops there, whatever follows; it neither returns
    a module nor a null module and issues no diagnostic. *)
Theorem unknown_section_id_aborts loc a id rest :
  12 <= id < 256 ->
  ConvertBEFToMLIR loc
    (mkArrayRef a (kBEFMagic1 :: kBEFMagic2 :: id :: 0 :: rest))
  = (Abort, []).
Proof.
  intros Hid. unfold ConvertBEFToMLIR, ConvertBEFToMLIR_log. cbv zeta.
  erewrite bind_run.
  2: { unfold or_error_at, lift_res, ReadHeader. simpl.
       by rewrite !bool_decide_eq_false_2 by (by intros []). }
  erewrite bind_Abort; [done|].
  unfold or_error_at, ReadSections.
  erewrite bind_Abort; [done|].
  unfold lift_res. cbn [elems length ReadSections_loop BEFReader.Empty ref_empty].
  by rewrite ReadNextSection_unknown.
Qed.


End container.

Lemma bad_magic_or_version_gives_no_module_witness :
  let convert := ConvertBEFToMLIR (H := Example.encoding) Example.origin in
  convert (mkArrayRef 0 [0xBE; 0x00])
  = (Failure, [mkDiag SevError Example.origin "Invalid BEF file header."]) /\
  convert (mkArrayRef 0 [0xBE; 0xF0; 0; 1; 1])
  = (Failure,
     [mkDiag SevWarning Example.origin
             BEFToMLIRConverter.missing_sections_message;
      mkDiag SevError Example.origin "Invalid BEF version."]).
Proof.
  split.
  - apply (bad_magic_or_version_gives_no_module (H := Example.encoding)
             Example.origin (mkArrayRef 0 [0xBE; 0x00]) empty_ref empty_ref []
             [] empty_ref 0 0 []).
    right. intros E. vm_compute in E. discriminate E.
  - eapply (fun r r' s payload =>
              proj1 (proj2 (bad_magic_or_version_gives_no_module
                              (H := Example.encoding) Example.origin
                              (mkArrayRef 0 [0xBE; 0xF0; 0; 1; 1]) r r' s
                              [mkDiag SevWarning Example.origin
                                 BEFToMLIRConverter.missing_sections_message]
                              payload 0 0 []))).
    + vm_compute. reflexivity.
    + vm_compute. reflexivity.
    + vm_compute. reflexivity.
    + intros E. vm_compute in E. discriminate E.
Defined.

(** C9 as stated fails: the payload of the FormatVersion section of the
    file is the two bytes 0, 7, not exactly one byte, and the file is
    converted to a module. *)
Lemma long_format_version_is_accepted :
  exists r r' s d m,
    BEFToMLIRConverter.ReadHeader (H := Example.encoding)
      Example.long_format_version_file = Ok r /\
    BEFToMLIRConverter.ReadSections (new_BEFFile Example.origin) r
      BEFSections.init [] = (Ok (r', s), d) /\
    BEFSections.Get s BEFSectionID.kFormatVersion = Ok (mkArrayRef 4 [0; 7]) /\
    ConvertBEFToMLIR (H := Example.encoding) Example.origin
                     Example.long_format_version_file = (Ok m, d).
Proof.
  do 5 eexists. split; [vm_compute; reflexivity|].
  split; [vm_compute; reflexivity|].
  split; vm_compute; reflexivity.
Qed.

Lemma unknown_section_id_aborts_witness :
  ConvertBEFToMLIR (H := Example.encoding) Example.origin
                   Example.unknown_section_file = (Abort, []).
Proof.
  apply (unknown_section_id_aborts (H := Example.encoding) Example.origin 0 255 []).
  lia.
Defined.



(** ** Decoding without the optional sections *)

Section degraded.
Import BEFToMLIRConverter BEFFunctionReader.
Context `{BEFEncoding}.

Lemma Set_length s id section_data s' :
  BEFSections.Set_ s id section_data = Ok s' -> length s' = length s.
Proof.
  unfold BEFSections.Set_. case_match; [|done]. intros [= <-].
  apply length_insert.
Qed.

Lemma ReadSections_loop_length fuel r s r' s' :
  ReadSections_loop fuel r s = Ok (r', s') -> length s' = length s.
Proof.
  revert r s. induction fuel as [|fuel IH]; intros r s; simpl.
  - case_match; [|done]. by intros [= _ <-].
  - case_match; [by intros [= _ <-]|].
    unfold ReadNextSection.
    destruct (BEFReader.ReadSection r) as [[[id section_data]|] r1]; [|done].
    simpl. destruct (BEFSections.Set_ _ _ _) as [s1| |] eqn:Hset; [|done..].
    simpl. intros E. apply IH in E. rewrite E. by eapply Set_length.
Qed.

Lemma Get_known s id :
  length s = 12%nat -> 0 <= id < 12 -> exists a, BEFSections.Get s id = Ok a.
Proof.
  intros Hs Hid. unfold BEFSections.Get, vector_get.
  rewrite Z.mod_small, Hs by lia.
  rewrite (proj2 (Z.leb_le _ _)), (proj2 (Z.ltb_lt _ _)) by lia. simpl.
  destruct (s !! Z.to_nat id) eqn:E; [by eexists|].
  apply lookup_ge_None in E. lia.
Qed.

Lemma ReadSections_run bef_file_ r d :
  ReadSections bef_file_ r BEFSections.init d
  = match ReadSections_loop (length (elems r)) r BEFSections.init with
    | Ok (r', s) =>
        (Ok (r', s),
         d ++ if optional_section_missing s
              then [mkDiag SevWarning (location bef_file_)
                           missing_sections_message]
              else [])
    | Failure => (Failure, d)
    | Abort => (Abort, d)
    end.
Proof.
  unfold ReadSections.
  destruct (ReadSections_loop _ _ _) as [[r' s]| |] eqn:Hloop; [|done..].
  erewrite bind_run; [|done]. cbv beta iota.
  apply ReadSections_loop_length in Hloop.
  destruct (Get_known s BEFSectionID.kAttributeTypes) as [a1 H1]; [done..|].
  destruct (Get_known s BEFSectionID.kAttributeNames) as [a2 H2]; [done..|].
  destruct (Get_known s BEFSectionID.kRegisterTypes) as [a3 H3]; [done..|].
  unfold optional_section_missing, missing. rewrite H1, H2, H3.
  unfold mbind, M_bind, Mbind_, lift_res.
  destruct (_ || _); simpl; [done|]. by rewrite app_nil_r.
Qed.

Lemma ReadInt_empty r : elems r = [] -> BEFReader.ReadInt r = (None, r).
Proof. destruct r as [a l]. simpl. by intros ->. Qed.

Lemma ReadByte_empty r : elems r = [] -> BEFReader.ReadByte r = (None, r).
Proof. unfold BEFReader.ReadByte. by intros ->. Qed.

Lemma ReadIntArray_empty r : elems r = [] -> ReadIntArray r = (None, r).
Proof. intros Hr. unfold ReadIntArray. by rewrite ReadInt_empty. Qed.

Lemma push_registers_type bef_file_ i indices reg_uses regs (k : nat) r :
  push_registers bef_file_ i indices reg_uses = Ok regs ->
  regs !! k = Some r ->
  type r = match indices with
           | [] => NoneType
           | _ => default NoneType (indices !! (i + k)%nat ≫= GetType bef_file_)
           end.
Proof.
  revert i regs k. induction reg_uses as [|uses reg_uses IH]; intros i regs k;
    simpl.
  - by intros [= <-].
  - unfold mbind at 1, Res_bind.
    destruct (match indices with [] => _ | _ => _ end) as [ty| |] eqn:Hty;
      [|done..].
    unfold mbind at 1, Res_bind.
    destruct (push_registers _ _ _ _) as [rest| |] eqn:Hrest; [|done..].
    intros [= <-]. destruct k as [|k]; simpl.
    + intros [= <-]. simpl. rewrite Nat.add_0_r.
      destruct indices; [by injection Hty as <-|].
      destruct (_ !! i); [|done]. by injection Hty as <-.
    + intros Hk. rewrite (IH _ _ _ Hrest Hk).
      by replace (S i + k)%nat with (i + S k)%nat by lia.
Qed.

Lemma resolve_attributes_dummy_names bef_file_ n kernel e i names attrs
    attrs' names' :
  elems names = [] -> 0 <= i ->
  resolve_attributes bef_file_ n kernel e i names attrs = Ok (attrs', names') ->
  attrs'.*1
  = attrs.*1 ++ ((fun j => "attr" +:+ utostr (Z.to_nat i + j)) <$> seq 0 n)
  /\ names' = names.
Proof.
  intros Hnames. revert i attrs.
  induction n as [|n IH]; intros i attrs Hi; simpl.
  - intros [= <- <-]. by rewrite app_nil_r.
  - unfold mbind at 1, Res_bind.
    destruct (BEFKernel.entry kernel e i) as [off| |]; [|done..].
    rewrite ReadInt_empty by done.
    intros E. apply IH in E as [-> ->]; [|lia]. split; [|done].
    rewrite fmap_app, <- app_assoc. simpl. f_equal.
    rewrite Nat.add_0_r. f_equal.
    rewrite <- fmap_S_seq, <- list_fmap_compose. apply list_fmap_ext.
    intros _ j _. simpl. do 2 f_equal. lia.
Qed.

Lemma resolve_functions_callees bef_file_ n kernel functions i attrs regions
    indices d attrs' regions' indices' d' :
  resolve_functions bef_file_ n kernel functions i attrs regions indices d
  = (Ok (attrs', regions', indices'), d') ->
  exists callees,
    attrs' = attrs ++ callees /\ Forall (fun c => c.1 = "callee") callees.
Proof.
  revert i attrs regions indices.
  induction n as [|n IH]; intros i attrs regions indices; simpl.
  - intros [= <- _ _ _]. exists []. by rewrite app_nil_r.
  - intros E. apply bind_lift_Ok in E as (fn_idx & _ & E).
    destruct (GetFunction bef_file_ fn_idx) as [f|]; [|done].
    destruct (IsNamedFunction f).
    + apply IH in E as (callees & -> & Hcallees).
      eexists (_ :: callees). rewrite <- app_assoc. split; [done|].
      by constructor.
    + by apply IH in E.
Qed.

Lemma ReadKernel_dummy_names bef_file_ kernels_ offset_ op_id regs names refs d
    op regs' names' refs' d' :
  elems names = [] ->
  ReadKernel bef_file_ kernels_ offset_ op_id regs names refs d
  = (Ok (op, regs', names', refs'), d') ->
  has_dummy_names op /\ names' = names.
Proof.
  intros Hnames. unfold ReadKernel. case_match; [done|]. intros E.
  apply bind_lift_Ok in E as (kernel_code & _ & E).
  apply bind_lift_Ok in E as (name_ & _ & E).
  apply bind_lift_Ok in E as (kernel_location & _ & E).
  apply bind_lift_Ok in E as (location_ & _ & E).
  apply bind_lift_Ok in E as (num_arguments & _ & E).
  apply bind_lift_Ok in E as (arguments & _ & E).
  apply bind_Ok in E as (operands & d1 & _ & E).
  rewrite ReadByte_empty in E by done.
  apply bind_lift_Ok in E as (num_attributes & _ & E).
  apply bind_lift_Ok in E as (attributes_ & _ & E).
  apply bind_lift_Ok in E as ([attrs1 names1] & Hattrs & E).
  apply resolve_attributes_dummy_names in Hattrs as [Hattrs1 ->]; [|done..].
  apply bind_lift_Ok in E as (num_functions & _ & E).
  apply bind_lift_Ok in E as (functions & _ & E).
  apply bind_Ok in E as ([[attrs2 regions] indices] & d2 & Hfunctions & E).
  apply resolve_functions_callees in Hfunctions as (callees & -> & Hcallees).
  apply bind_lift_Ok in E as (num_results & _ & E).
  apply bind_lift_Ok in E as (results & _ & E).
  apply bind_lift_Ok in E as (types_ & _ & E).
  apply bind_Ok in E as (regs1 & d3 & _ & E).
  assert (has_dummy_names
            (mkOperation op_id name_ location_ operands types_
                         (attrs1 ++ callees) regions)) as Hop.
  { exists (Z.to_nat (BEFKernel.size attributes_)), (callees.*1). simpl.
    rewrite fmap_app, Hattrs1. simpl. split; [done|].
    by apply Forall_fmap. }
  repeat case_match; try done; by injection E as <- <- <- <-.
Qed.

Lemma ReadKernels_loop_dummy_names bef_file_ fn entries kernels_ ops regs names
    refs d ops' regs' names' refs' d' :
  elems names = [] -> Forall has_dummy_names ops ->
  ReadKernels_loop bef_file_ fn entries kernels_ ops regs names refs d
  = (Ok (ops', regs', names', refs'), d') ->
  Forall has_dummy_names ops' /\ names' = names.
Proof.
  intros Hnames. revert ops regs refs d.
  induction entries as [|e entries IH]; intros ops regs refs d Hops; simpl.
  - by intros [= <- _ <- _ _].
  - intros E. apply bind_Ok in E as ([[[op regs1] names1] refs1] & d1 & Hop & E).
    apply ReadKernel_dummy_names in Hop as [Hop ->]; [|done].
    apply IH in E; [done|]. apply Forall_app. split; [done|].
    by constructor.
Qed.

Lemma ReadKernels_dummy_names bef_file_ fn kernels_ names args loc regs
    kernel_table_ result_regs_ refs d ops names' refs' d' :
  elems names = [] ->
  ReadKernels bef_file_ fn kernels_ names args loc regs kernel_table_
              result_regs_ refs d = (Ok (ops, names', refs'), d') ->
  Forall has_dummy_names ops /\ names' = names.
Proof.
  intros Hnames. unfold ReadKernels. rewrite ReadInt_empty by done. intros E.
  apply bind_Ok in E as (names1 & d1 & [= <- <-] & E).
  apply bind_Ok in E as ([[start regs1] names2] & d2 & Hpseudo & E).
  assert (names2 = names) as ->.
  { destruct args; [by injection Hpseudo as _ _ <- _|].
    apply bind_Ok in Hpseudo as (regs2 & d3 & _ & Hpseudo).
    rewrite ReadByte_empty in Hpseudo by done.
    case_match; [|done]. by injection Hpseudo as _ _ <- _. }
  apply bind_Ok in E as ([[[ops1 regs2] names3] refs3] & d3 & Hloop & E).
  apply ReadKernels_loop_dummy_names in Hloop as [Hops ->]; [|done..].
  apply bind_Ok in E as (operands & d4 & _ & E).
  injection E as <- <- <- <-. split; [|done].
  apply Forall_app. split; [done|]. constructor; [|done].
  by exists 0%nat, [].
Qed.


End degraded.

(** ** Uses and definitions of registers *)

Section def_use.
Import BEFFunctionReader.
Context `{BEFEncoding}.
Variable bef_file_ : BEFFile.
Variable entry_arguments : list Value.

Lemma defined_in_mono ops ops' v :
  ops ⊆ ops' -> defined_in entry_arguments ops v ->
  defined_in entry_arguments ops' v.
Proof. intros Hsub [Hv|(op & i & Hop & Hi)]; [by left|right; eauto]. Qed.

Lemma registers_defined_in_mono ops ops' regs :
  ops ⊆ ops' -> registers_defined_in entry_arguments ops regs ->
  registers_defined_in entry_arguments ops' regs.
Proof. intros Hsub Hregs r v Hr Hv. eapply defined_in_mono; eauto. Qed.

Lemma registers_defined_in_insert ops regs (i : nat) reg_info :
  registers_defined_in entry_arguments ops regs ->
  (forall v, value reg_info = Some v -> defined_in entry_arguments ops v) ->
  registers_defined_in entry_arguments ops (<[i := reg_info]> regs).
Proof.
  intros Hregs Hnew r v Hr Hv.
  apply list_elem_of_lookup in Hr as [j Hj].
  destruct (decide (i = j)) as [<-|Hne].
  - destruct (decide (i < length regs)%nat) as [Hlt|Hge].
    + rewrite list_lookup_insert_eq in Hj by done. injection Hj as <-. auto.
    + rewrite list_insert_ge in Hj by lia.
      eapply Hregs; [|done]. by eapply list_elem_of_lookup_2.
  - rewrite list_lookup_insert_ne in Hj by done.
    eapply Hregs; [|done]. by eapply list_elem_of_lookup_2.
Qed.

Lemma GetRegister_elem_of regs i reg_info :
  GetRegister regs i = Ok reg_info -> reg_info ∈ regs.
Proof.
  unfold GetRegister, vector_get. repeat case_match; try done.
  intros [= <-]. by eapply list_elem_of_lookup_2.
Qed.

Lemma AddDefinition_defined ops regs v i d regs' d' :
  registers_defined_in entry_arguments ops regs ->
  defined_in entry_arguments ops v ->
  AddDefinition bef_file_ regs v i d = (Ok regs', d') ->
  registers_defined_in entry_arguments ops regs'.
Proof.
  intros Hregs Hv. unfold AddDefinition. intros E.
  apply bind_lift_Ok in E as (r & Hr & E).
  destruct (value r); [done|]. case_match; [|done]. injection E as <- <-.
  apply registers_defined_in_insert; [done|]. simpl. by intros ? [= <-].
Qed.

Lemma set_usedbys_defined ops regs i e regs' :
  registers_defined_in entry_arguments ops regs ->
  set_usedbys regs i e = Ok regs' ->
  registers_defined_in entry_arguments ops regs'.
Proof.
  intros Hregs. unfold set_usedbys, mbind, Res_bind.
  destruct (GetRegister regs i) as [r| |] eqn:Hr; [|done..].
  intros [= <-]. apply registers_defined_in_insert; [done|]. simpl.
  intros v Hv. eapply Hregs; [|done]. by eapply GetRegister_elem_of.
Qed.

Lemma resolve_arguments_defined ops n kernel arguments i regs operands d
    operands' d' :
  registers_defined_in entry_arguments ops regs ->
  Forall (defined_in entry_arguments ops) operands ->
  resolve_arguments bef_file_ n kernel arguments i regs operands d
  = (Ok operands', d') ->
  Forall (defined_in entry_arguments ops) operands'.
Proof.
  intros Hregs. revert i operands.
  induction n as [|n IH]; intros i operands Hoperands; simpl.
  - by intros [= <- _].
  - intros E. apply bind_lift_Ok in E as (register_index & _ & E).
    apply bind_lift_Ok in E as (r & Hr & E).
    destruct (value r) as [v|] eqn:Hv; [|done].
    apply IH in E; [done|]. apply Forall_app. split; [done|].
    constructor; [|done]. eapply Hregs; [|done]. by eapply GetRegister_elem_of.
Qed.

Lemma add_definitions_defined ops n kernel results op i entry_offset regs d
    regs' d' :
  op ∈ ops ->
  registers_defined_in entry_arguments ops regs ->
  add_definitions bef_file_ n kernel results op i entry_offset regs d
  = (Ok regs', d') ->
  registers_defined_in entry_arguments ops regs'.
Proof.
  intros Hop. revert i entry_offset regs d.
  induction n as [|n IH]; intros i entry_offset regs d Hregs; simpl.
  - by intros [= <- _].
  - intros E. apply bind_lift_Ok in E as (register_index & _ & E).
    apply bind_lift_Ok in E as (v & Hv & E).
    apply bind_Ok in E as (regs1 & d1 & Hadd & E).
    apply bind_lift_Ok in E as (num_used_bys & _ & E).
    apply bind_lift_Ok in E as (e & _ & E).
    apply bind_lift_Ok in E as (regs2 & Hset & E).
    apply IH in E; [done|].
    eapply set_usedbys_defined; [|done].
    eapply AddDefinition_defined; [done| |done]. right. eauto.
Qed.

Lemma ReadKernel_defined ops kernels_ offset_ op_id regs names refs d
    op regs' names' refs' d' :
  registers_defined_in entry_arguments ops regs ->
  ReadKernel bef_file_ kernels_ offset_ op_id regs names refs d
  = (Ok (op, regs', names', refs'), d') ->
  Forall (defined_in entry_arguments ops) (op_operands op) /\
  registers_defined_in entry_arguments (ops ++ [op]) regs'.
Proof.
  intros Hregs. unfold ReadKernel. case_match; [done|]. intros E.
  apply bind_lift_Ok in E as (kernel_code & _ & E).
  apply bind_lift_Ok in E as (name_ & _ & E).
  apply bind_lift_Ok in E as (kernel_location & _ & E).
  apply bind_lift_Ok in E as (location_ & _ & E).
  apply bind_lift_Ok in E as (num_arguments & _ & E).
  apply bind_lift_Ok in E as (arguments & _ & E).
  apply bind_Ok in E as (operands & d1 & Hoperands & E).
  apply resolve_arguments_defined with (ops := ops) in Hoperands; [|done..].
  destruct (match BEFReader.ReadByte names with
            | (Some b, r) => _ | (None, r) => _ end) as [attrs names1].
  apply bind_lift_Ok in E as (num_attributes & _ & E).
  apply bind_lift_Ok in E as (attributes_ & _ & E).
  apply bind_lift_Ok in E as ([attrs1 names2] & _ & E).
  apply bind_lift_Ok in E as (num_functions & _ & E).
  apply bind_lift_Ok in E as (functions & _ & E).
  apply bind_Ok in E as ([[attrs2 regions] indices] & d2 & _ & E).
  apply bind_lift_Ok in E as (num_results & _ & E).
  apply bind_lift_Ok in E as (results & _ & E).
  apply bind_lift_Ok in E as (types_ & _ & E).
  apply bind_Ok in E as (regs1 & d3 & Hdefs & E).
  apply add_definitions_defined with (ops := ops ++ [mkOperation op_id name_
    location_ operands types_ attrs2 regions]) in Hdefs.
  2: { apply elem_of_app. right. by apply list_elem_of_singleton. }
  2: { eapply registers_defined_in_mono; [|done]. set_solver. }
  repeat case_match; try done; by injection E as <- <- <- <-.
Qed.

Lemma define_arguments_defined ops kernel results i args regs d regs' d' :
  args ⊆ entry_arguments ->
  registers_defined_in entry_arguments ops regs ->
  define_arguments bef_file_ kernel results i args regs d = (Ok regs', d') ->
  registers_defined_in entry_arguments ops regs'.
Proof.
  revert i regs d. induction args as [|arg args IH]; intros i regs d Hsub Hregs;
    simpl.
  - by intros [= <- _].
  - intros E. apply bind_lift_Ok in E as (register_index & _ & E).
    apply bind_Ok in E as (regs1 & d1 & Hadd & E).
    apply IH in E; [done|set_solver|].
    eapply AddDefinition_defined; [done| |done]. left. set_solver.
Qed.

Lemma read_usedbys_defined ops n kernel results i entry_offset regs regs' :
  registers_defined_in entry_arguments ops regs ->
  read_usedbys n kernel results i entry_offset regs = Ok regs' ->
  registers_defined_in entry_arguments ops regs'.
Proof.
  revert i entry_offset regs.
  induction n as [|n IH]; intros i entry_offset regs Hregs; simpl.
  - by intros [= <-].
  - unfold mbind at 1, Res_bind. case_match; [|done..].
    unfold mbind at 1, Res_bind. case_match; [|done..].
    unfold mbind at 1, Res_bind. case_match; [|done..].
    unfold mbind at 1, Res_bind.
    destruct (set_usedbys _ _ _) as [regs1| |] eqn:Hset; [|done..].
    apply IH. by eapply set_usedbys_defined.
Qed.

Lemma ReadArgumentsPseudoKernel_defined ops kernels_ regs d regs' d' :
  registers_defined_in entry_arguments ops regs ->
  ReadArgumentsPseudoKernel bef_file_ kernels_ entry_arguments regs d
  = (Ok regs', d') ->
  registers_defined_in entry_arguments ops regs'.
Proof.
  intros Hregs. unfold ReadArgumentsPseudoKernel. intros E.
  apply bind_lift_Ok in E as (num_arguments & _ & E).
  apply bind_lift_Ok in E as (num_attributes & _ & E).
  apply bind_lift_Ok in E as (num_functions & _ & E).
  apply bind_lift_Ok in E as (num_results & _ & E).
  case_match; [done|].
  apply bind_lift_Ok in E as (results & _ & E).
  apply bind_Ok in E as (regs1 & d1 & Hdefine & E).
  apply lift_res_Ok in E as [E _].
  eapply read_usedbys_defined; [|done].
  eapply define_arguments_defined; [|done..].
  apply subseteq_take.
Qed.

Lemma operands_defined_before_snoc ops op :
  operands_defined_before entry_arguments ops ->
  Forall (defined_in entry_arguments ops) (op_operands op) ->
  operands_defined_before entry_arguments (ops ++ [op]).
Proof.
  intros Hops Hop k op' Hk.
  destruct (decide (k < length ops)%nat) as [Hlt|Hge].
  - rewrite lookup_app_l in Hk by done.
    rewrite take_app_le by lia. by apply Hops.
  - rewrite lookup_app_r in Hk by lia.
    apply list_lookup_singleton_Some in Hk as [Hk <-].
    replace k with (length ops) by lia.
    by rewrite take_app_length.
Qed.

Lemma ReadKernels_loop_defined fn entries kernels_ ops regs names refs d
    ops' regs' names' refs' d' :
  operands_defined_before entry_arguments ops ->
  registers_defined_in entry_arguments ops regs ->
  ReadKernels_loop bef_file_ fn entries kernels_ ops regs names refs d
  = (Ok (ops', regs', names', refs'), d') ->
  operands_defined_before entry_arguments ops' /\
  registers_defined_in entry_arguments ops' regs'.
Proof.
  revert ops regs names refs d.
  induction entries as [|e entries IH]; intros ops regs names refs d Hops Hregs;
    simpl.
  - by intros [= <- <- _ _ _].
  - intros E. apply bind_Ok in E as ([[[op regs1] names1] refs1] & d1 & Hop & E).
    apply ReadKernel_defined with (ops := ops) in Hop as [Hop Hregs1]; [|done].
    apply IH in E; [done| |done]. by apply operands_defined_before_snoc.
Qed.

Lemma return_operands_defined ops result_regs_ regs operands d operands' d' :
  registers_defined_in entry_arguments ops regs ->
  Forall (defined_in entry_arguments ops) operands ->
  return_operands bef_file_ result_regs_ regs operands d = (Ok operands', d') ->
  Forall (defined_in entry_arguments ops) operands'.
Proof.
  intros Hregs. revert operands.
  induction result_regs_ as [|i rs IH]; intros operands Hoperands; simpl.
  - by intros [= <- _].
  - intros E. apply bind_lift_Ok in E as (r & Hr & E).
    destruct (value r) as [v|] eqn:Hv; [|done].
    apply IH in E; [done|]. apply Forall_app. split; [done|].
    constructor; [|done]. eapply Hregs; [|done]. by eapply GetRegister_elem_of.
Qed.

Lemma ReadKernels_defined fn kernels_ names loc regs kernel_table_ result_regs_
    refs d ops names' refs' d' :
  registers_defined_in entry_arguments [] regs ->
  ReadKernels bef_file_ fn kernels_ names entry_arguments loc regs kernel_table_
              result_regs_ refs d = (Ok (ops, names', refs'), d') ->
  operands_defined_before entry_arguments ops.
Proof.
  intros Hregs. unfold ReadKernels. intros E.
  apply bind_Ok in E as (names1 & d1 & _ & E).
  apply bind_Ok in E as ([[start regs1] names2] & d2 & Hpseudo & E).
  assert (registers_defined_in entry_arguments [] regs1) as Hregs1.
  { destruct entry_arguments as [|arg args] eqn:Hargs;
      [by injection Hpseudo as _ <- _ _|].
    apply bind_or_error_Ok in Hpseudo as (regs2 & d3 & Hpseudo & E').
    rewrite <- Hargs in *.
    apply ReadArgumentsPseudoKernel_defined with (ops := []) in Hpseudo;
      [|done].
    repeat case_match; try done; by injection E' as _ <- _ _. }
  apply bind_Ok in E as ([[[ops1 regs2] names3] refs3] & d3 & Hloop & E).
  apply ReadKernels_loop_defined in Hloop as [Hops Hregs2]; [|done..].
  apply bind_Ok in E as (operands & d4 & Hreturn & E).
  injection E as <- <- <- <-.
  apply operands_defined_before_snoc; [done|].
  by eapply return_operands_defined.
Qed.

Lemma push_registers_undefined i indices reg_uses regs :
  push_registers bef_file_ i indices reg_uses = Ok regs ->
  Forall (fun reg_info => value reg_info = None) regs.
Proof.
  revert i regs. induction reg_uses as [|uses reg_uses IH]; intros i regs; simpl.
  - by intros [= <-].
  - unfold mbind at 1, Res_bind. case_match; [|done..].
    unfold mbind at 1, Res_bind.
    destruct (push_registers _ _ _ _) as [rest| |] eqn:Hrest; [|done..].
    intros [= <-]. constructor; [done|]. by eapply IH.
Qed.

End def_use.

Section def_use_function.
Import BEFFunctionReader.
Context `{BEFEncoding}.

Lemma ReadFunction_defined bef_file_ bef_function_ fn function_reader_ names
    register_types refs d loc region names' register_types' refs' d' :
  ReadFunction bef_file_ bef_function_ fn function_reader_ names register_types
               refs d
  = (Ok (loc, region, names', register_types', refs'), d') ->
  operands_defined_before (getArguments region) (region_ops region).
Proof.
  unfold ReadFunction.
  destruct (BEFReader.ReadInt function_reader_) as [[offset_|] r0]; [|done].
  destruct (GetLocationPosition _ _) as [location_|]; [|done].
  intros E. apply bind_or_error_lift_Ok in E as ([[regs r1] rt1] & Hregs & E).
  apply bind_Ok in E as ([kernel_table_ r2] & d2 & _ & E).
  apply bind_Ok in E as ([result_regs_ r3] & d3 & _ & E).
  apply bind_Ok in E as ([[ops names1] refs1] & d4 & Hkernels & E).
  injection E as <- <- <- <- <- <-.
  apply or_error_at_Ok in Hkernels.
  destruct (BEFReader.ReadAlignment r3 _) as [[[]|] r4]; [|done].
  eapply ReadKernels_defined; [|done].
  unfold ReadRegisterTable in Hregs.
  destruct (match ReadIntArray register_types with
            | (Some i, r) => _ | (None, r) => _ end) as [indices rt].
  destruct (ReadIntArray r0) as [[reg_uses|] r]; [|done].
  case_match; [|done]. unfold mbind, Res_bind in Hregs.
  destruct (push_registers _ _ _ _) as [regs1| |] eqn:Hpush; [|done..].
  injection Hregs as <- _ _.
  apply push_registers_undefined in Hpush.
  intros r' v Hr' Hv. rewrite Forall_forall in Hpush.
  apply Hpush in Hr'. congruence.
Qed.

End def_use_function.

Section def_use_failures.
Import BEFFunctionReader.
Context `{BEFEncoding}.
Variable bef_file_ : BEFFile.

Lemma resolve_arguments_undefined n kernel arguments i regs operands d (j : nat)
    register_index reg_info :
  (j < n)%nat ->
  (forall j' : nat, (j' < j)%nat ->
     exists ri r v,
       BEFKernel.entry kernel arguments (i + Z.of_nat j') = Ok ri /\
       GetRegister regs (to_int ri) = Ok r /\ value r = Some v) ->
  BEFKernel.entry kernel arguments (i + Z.of_nat j) = Ok register_index ->
  GetRegister regs (to_int register_index) = Ok reg_info ->
  value reg_info = None ->
  resolve_arguments bef_file_ n kernel arguments i regs operands d
  = (Failure,
     d ++ [mkDiag SevError (location bef_file_) "Using undefined registers."]).
Proof.
  revert n i operands.
  induction j as [|j IH]; intros n i operands Hn Hbefore Hentry Hreg Hvalue;
    (destruct n as [|n]; [lia|]); simpl.
  - rewrite Z.add_0_r in Hentry.
    erewrite bind_run; [|unfold lift_res; by rewrite Hentry].
    erewrite bind_run; [|unfold lift_res; by rewrite Hreg].
    by rewrite Hvalue.
  - destruct (Hbefore 0%nat) as (ri & r & v & Hri & Hr & Hv); [lia|].
    rewrite Z.add_0_r in Hri.
    erewrite bind_run; [|unfold lift_res; by rewrite Hri].
    erewrite bind_run; [|unfold lift_res; by rewrite Hr].
    rewrite Hv. apply IH; [lia| | |done..].
    + intros j' Hj'. destruct (Hbefore (S j')) as (ri' & r' & v' & E & ?);
        [lia|]. exists ri', r', v'. split; [|done]. rewrite <- E. f_equal. lia.
    + rewrite <- Hentry. f_equal. lia.
Qed.

Lemma AddDefinition_redefinition regs v i reg_info v0 d :
  GetRegister regs (to_int i) = Ok reg_info ->
  value reg_info = Some v0 ->
  AddDefinition bef_file_ regs v i d
  = (Failure,
     d ++ [mkDiag SevError (location bef_file_) "Redefinition of registers"]).
Proof.
  intros Hreg Hvalue. unfold AddDefinition.
  erewrite bind_run; [|unfold lift_res; by rewrite Hreg].
  by rewrite Hvalue.
Qed.

Lemma add_definitions_redefinition n kernel results op i entry_offset regs d
    register_index v reg_info v0 :
  BEFKernel.entry kernel results i = Ok register_index ->
  getResult op (Z.to_nat i) = Ok v ->
  GetRegister regs (to_int register_index) = Ok reg_info ->
  value reg_info = Some v0 ->
  add_definitions bef_file_ (S n) kernel results op i entry_offset regs d
  = (Failure,
     d ++ [mkDiag SevError (location bef_file_) "Redefinition of registers"]).
Proof.
  intros Hentry Hresult Hreg Hvalue. simpl.
  erewrite bind_run; [|unfold lift_res; by rewrite Hentry].
  erewrite bind_run; [|unfold lift_res; by rewrite Hresult].
  erewrite bind_Failure; [done|]. by eapply AddDefinition_redefinition.
Qed.

Lemma ReadKernel_Ok_inv kernels_ offset_ op_id regs names refs d
    op regs' names' refs' d' :
  ReadKernel bef_file_ kernels_ offset_ op_id regs names refs d
  = (Ok (op, regs', names', refs'), d') ->
  exists kernel arguments results entry_offset,
    resolve_arguments bef_file_ (Z.to_nat (BEFKernel.size arguments)) kernel
                      arguments 0 regs [] d = (Ok (op_operands op), d) /\
    add_definitions bef_file_ (Z.to_nat (BEFKernel.size results)) kernel results
                    op 0 entry_offset regs d = (Ok regs', d').
Proof.
  unfold ReadKernel. case_match; [done|]. intros E.
  apply bind_lift_Ok in E as (kernel_code & _ & E).
  apply bind_lift_Ok in E as (name_ & _ & E).
  apply bind_lift_Ok in E as (kernel_location & _ & E).
  apply bind_lift_Ok in E as (location_ & _ & E).
  apply bind_lift_Ok in E as (num_arguments & _ & E).
  apply bind_lift_Ok in E as (arguments & _ & E).
  apply bind_Ok in E as (operands & d1 & Hoperands & E).
  pose proof (resolve_arguments_quiet _ _ _ _ _ _ _ _ _ _ Hoperands) as ->.
  destruct (match BEFReader.ReadByte names with
            | (Some b, r) => _ | (None, r) => _ end) as [attrs names1].
  apply bind_lift_Ok in E as (num_attributes & _ & E).
  apply bind_lift_Ok in E as (attributes_ & _ & E).
  apply bind_lift_Ok in E as ([attrs1 names2] & _ & E).
  apply bind_lift_Ok in E as (num_functions & _ & E).
  apply bind_lift_Ok in E as (functions & _ & E).
  apply bind_Ok in E as ([[attrs2 regions] indices] & d2 & Hfunctions & E).
  pose proof (resolve_functions_quiet _ _ _ _ _ _ _ _ _ _ _ Hfunctions) as ->.
  apply bind_lift_Ok in E as (num_results & _ & E).
  apply bind_lift_Ok in E as (results & _ & E).
  apply bind_lift_Ok in E as (types_ & _ & E).
  apply bind_Ok in E as (regs1 & d3 & Hdefs & E).
  eexists _, arguments, results, _.
  repeat case_match; try done; injection E as <- <- <- <- <-; by split.
Qed.


End def_use_failures.

(** ** The result types of a function *)

Section result_types.
Import BEFToMLIRConverter BEFFunctionReader.
Context `{BEFEncoding}.
Variable bef_file_ : BEFFile.

Lemma return_operands_length result_regs_ regs operands d operands' d' :
  return_operands bef_file_ result_regs_ regs operands d = (Ok operands', d') ->
  length operands' = (length operands + length result_regs_)%nat.
Proof.
  revert operands. induction result_regs_ as [|i rs IH]; intros operands; simpl.
  - intros [= <- _]. lia.
  - intros E. apply bind_lift_Ok in E as (r & _ & E).
    destruct (value r); [|done]. apply IH in E. rewrite E, length_app. simpl. lia.
Qed.

Lemma ReadResultRegs_loop_length n r regs r' :
  ReadResultRegs_loop n r = Ok (regs, r') -> length regs = n.
Proof.
  revert r regs r'. induction n as [|n IH]; intros r regs r'; simpl.
  - by intros [= <- _].
  - destruct (BEFReader.ReadInt r) as [[i|] r1]; [|done].
    unfold mbind, Res_bind.
    destruct (ReadResultRegs_loop n r1) as [[regs1 r2]| |] eqn:E; [|done..].
    intros [= <- _]. simpl. f_equal. by eapply IH.
Qed.

Lemma ReadFunction_return_op bef_function_ fn function_reader_ names
    register_types refs d loc region names' register_types' refs' d' :
  ReadFunction bef_file_ bef_function_ fn function_reader_ names register_types
               refs d
  = (Ok (loc, region, names', register_types', refs'), d') ->
  exists return_op,
    last (region_ops region) = Some return_op /\
    op_name return_op = "hex.return" /\
    length (op_operands return_op) = length (result_types bef_function_) /\
    region_arguments region = argument_types bef_function_.
Proof.
  unfold ReadFunction.
  destruct (BEFReader.ReadInt function_reader_) as [[offset_|] r0]; [|done].
  destruct (GetLocationPosition _ _) as [location_|]; [|done].
  intros E. apply bind_Ok in E as ([[regs r1] rt1] & d1 & _ & E).
  apply bind_Ok in E as ([kernel_table_ r2] & d2 & _ & E).
  apply bind_or_error_lift_Ok in E as ([result_regs_ r3] & Hregs & E).
  apply ReadResultRegs_loop_length in Hregs.
  apply bind_Ok in E as ([[ops names1] refs1] & d4 & Hkernels & E).
  injection E as <- <- <- <- <- <-.
  apply or_error_at_Ok in Hkernels.
  destruct (BEFReader.ReadAlignment r3 _) as [[[]|] r4]; [|done].
  unfold ReadKernels in Hkernels.
  apply bind_Ok in Hkernels as (names2 & d5 & _ & E).
  apply bind_Ok in E as ([[start regs1] names3] & d6 & _ & E).
  apply bind_Ok in E as ([[[ops1 regs2] names4] refs2] & d7 & _ & E).
  apply bind_Ok in E as (operands & d8 & Hreturn & E).
  injection E as <- <- <- <-. eexists. simpl. rewrite last_snoc.
  repeat split. simpl. apply return_operands_length in Hreturn.
  rewrite Hreturn, Hregs. done.
Qed.

(** C10: the result types of the top level function created for a named
    function that is not native are the types of the operands of the return
    operation that ends its region. The result types declared in the
    FunctionIndex entry are not used for it: their number is the number of
    result registers read from the function body, and a function declared
    with other result types, as many, is read and created in the same
    way. *)
Theorem result_types_come_from_the_return_op :
  (forall loc bef_function region func_op,
     CreateBEFFuncOp loc bef_function region = Ok func_op ->
     exists return_op,
       last (region_ops region) = Some return_op /\
       func_result_types func_op = value_type <$> op_operands return_op /\
       func_argument_types func_op = argument_types bef_function /\
       func_name func_op = name bef_function /\
       func_body func_op = Some region) /\
  (forall bef_function fn function_reader_ names register_types refs d
          loc region names' register_types' refs' d',
     ReadFunction bef_file_ bef_function fn function_reader_ names
                  register_types refs d
     = (Ok (loc, region, names', register_types', refs'), d') ->
     exists return_op,
       last (region_ops region) = Some return_op /\
       op_name return_op = "hex.return" /\
       length (op_operands return_op) = length (result_types bef_function) /\
       region_arguments region = argument_types bef_function) /\
  (forall bef_function function_reader_ regs r,
     ReadResultRegs bef_function function_reader_ = Ok (regs, r) ->
     length regs = length (result_types bef_function)) /\
  (forall bef_function declared fn function_reader_ names register_types refs
          loc region,
     length declared = length (result_types bef_function) ->
     ReadFunction bef_file_ (with_result_types bef_function declared) fn
                  function_reader_ names register_types refs
     = ReadFunction bef_file_ bef_function fn function_reader_ names
                    register_types refs /\
     CreateBEFFuncOp loc (with_result_types bef_function declared) region
     = CreateBEFFuncOp loc bef_function region) /\
  (forall bef_function function_index_ (i : nat) regions_ functions_ loc region,
     IsNamedFunction bef_function = true ->
     IsNativeFunction bef_function = false ->
     regions_ !! i = Some (loc, Some region) ->
     resolve_top_level (bef_function :: function_index_) i regions_ functions_
     = func_op ← CreateBEFFuncOp loc bef_function region;
       resolve_top_level function_index_ (S i) (<[i := (loc, None)]> regions_)
                         (functions_ ++ [func_op])).
Proof.
  split; [|split; [|split; [|split]]].
  - intros loc bef_function region func_op. unfold CreateBEFFuncOp.
    destruct (last (region_ops region)) as [return_op|]; [|done].
    intros [= <-]. by exists return_op.
  - intros. by eapply ReadFunction_return_op.
  - intros bef_function function_reader_ regs r.
    apply ReadResultRegs_loop_length.
  - intros bef_function declared fn function_reader_ names register_types refs
      loc region Hlen. split; [|done].
    unfold ReadFunction, ReadResultRegs. simpl. by rewrite Hlen.
  - intros bef_function function_index_ i regions_ functions_ loc region
      Hnamed Hnative Hregion. simpl. by rewrite Hnamed, Hregion, Hnative.
Qed.

End result_types.

(** ** The resolution of the functions *)

Section resolve.
Import BEFToMLIRConverter.

Lemma vector_get_Some {A} (v : list A) index x :
  vector_get v index = Some x <-> 0 <= index /\ v !! Z.to_nat index = Some x.
Proof.
  unfold vector_get. split.
  - destruct (Z.leb_spec 0 index); [|done]. destruct (Z.ltb_spec index
      (Z.of_nat (length v))); [|done]. by simpl.
  - intros [Hindex Hx]. rewrite (proj2 (Z.leb_le _ _)) by done.
    apply lookup_lt_Some in Hx as Hlt.
    by rewrite (proj2 (Z.ltb_lt _ _)) by lia.
Qed.

Lemma emptied_at_holds I regs regs' index :
  emptied_at I regs regs' -> holds_region regs' index ->
  holds_region regs index /\ index ∉ I.
Proof.
  intros [Hlen Hregs] [Hindex (loc & r & Hr)].
  destruct (regs !! Z.to_nat index) as [x|] eqn:Hx.
  2: { apply lookup_ge_None in Hx. apply lookup_lt_Some in Hr. lia. }
  rewrite (Hregs _ _ Hx) in Hr. rewrite Z2Nat.id in Hr by done.
  case_bool_decide; [done|]. injection Hr as ->. split; [|done].
  split; [done|]. eauto.
Qed.

Lemma emptied_at_lookup I regs regs' index loc r :
  emptied_at I regs regs' -> 0 <= index ->
  regs' !! Z.to_nat index = Some (loc, Some r) ->
  regs !! Z.to_nat index = Some (loc, Some r).
Proof.
  intros Hregs Hindex Hr.
  destruct (emptied_at_holds I regs regs' index Hregs) as [[_ (l & r' & E)] _];
    [split; eauto|].
  destruct Hregs as [_ Hregs]. rewrite (Hregs _ _ E) in Hr.
  case_bool_decide; [done|]. by rewrite E.
Qed.

Lemma emptied_at_trans I J regs regs1 regs2 :
  emptied_at I regs regs1 -> emptied_at J regs1 regs2 ->
  emptied_at (I ++ J) regs regs2.
Proof.
  intros [Hlen1 H1] [Hlen2 H2]. split; [congruence|]. intros k x Hx.
  rewrite (H2 _ _ (H1 _ _ Hx)). f_equal.
  repeat case_bool_decide; simpl; try done; set_solver.
Qed.

Lemma take_bodies_run op indices i regs slots regs' slots' :
  take_bodies op indices i regs slots = Ok (regs', slots') ->
  NoDup indices /\ Forall (holds_region regs) indices /\
  emptied_at indices regs regs' /\
  (forall (j : nat) index,
     indices !! j = Some index ->
     exists loc r,
       regs !! Z.to_nat index = Some (loc, Some r) /\
       slots' !! (op_ptr op, (i + j)%nat) = Some r) /\
  (forall key, key.1 <> op_ptr op \/ (key.2 < i)%nat -> slots' !! key = slots !! key).
Proof.
  revert i regs slots.
  induction indices as [|index indices IH]; intros i regs slots; simpl.
  - intros [= <- <-]. split; [constructor|]. split; [constructor|].
    split; [|split; [by intros j index Hj|done]]. split; [done|].
    intros k x Hx. rewrite Hx. case_bool_decide; [set_solver|done].
  - destruct (vector_get regs index) as [[loc [child|]]|] eqn:Hget; [|done..].
    apply vector_get_Some in Hget as [Hindex Hchild].
    intros E. apply IH in E as (Hnodup & Hholds & Hemptied & Hslots & Hother).
    assert (emptied_at [index] regs (<[Z.to_nat index := (loc, None)]> regs))
      as Hfirst.
    { split; [apply length_insert|]. intros k x Hx.
      destruct (decide (k = Z.to_nat index)) as [->|Hne].
      - rewrite list_lookup_insert_eq by (by eapply lookup_lt_Some).
        rewrite bool_decide_eq_true_2 by (rewrite Z2Nat.id by done; set_solver).
        rewrite Hchild in Hx. by injection Hx as <-.
      - rewrite list_lookup_insert_ne by done.
        rewrite bool_decide_eq_false_2; [done|].
        intros Hin. apply list_elem_of_singleton in Hin. lia. }
    assert (Forall (fun index' => holds_region regs index' /\ index' <> index)
                   indices) as Hrest.
    { eapply Forall_impl; [exact Hholds|]. intros index' Hindex'.
      destruct (emptied_at_holds _ _ _ _ Hfirst Hindex') as [? Hne].
      split; [done|]. set_solver. }
    split; [|split; [|split; [|split]]].
    + constructor; [|done]. intros Hin. rewrite Forall_forall in Hrest.
      by destruct (Hrest _ Hin).
    + constructor; [split; eauto|]. eapply Forall_impl; [exact Hrest|].
      by intros ? [? _].
    + by apply (emptied_at_trans [index] indices _ _ _ Hfirst).
    + intros [|j] index' Hj; simpl in Hj.
      * injection Hj as <-. exists loc, child. split; [done|].
        rewrite Hother by (right; simpl; lia). rewrite Nat.add_0_r.
        apply lookup_insert_eq.
      * destruct (Hslots _ _ Hj) as (loc' & r' & Hr' & Hslot).
        exists loc', r'. split.
        -- rewrite Forall_forall in Hrest.
           destruct (Hrest index') as [[Hpos _] Hne];
             [by eapply list_elem_of_lookup_2|].
           by eapply emptied_at_lookup.
        -- rewrite <- Hslot. f_equal. f_equal. lia.
    + intros key Hkey. rewrite Hother by (destruct Hkey; [by left|right; lia]).
      apply lookup_insert_ne. intros <-. simpl in Hkey. destruct Hkey; [done|lia].
Qed.

Lemma elem_of_concat {A} (x : A) (ls : list (list A)) :
  x ∈ concat ls <-> exists l, x ∈ l /\ l ∈ ls.
Proof.
  induction ls as [|l ls IH]; simpl.
  - split; [by intros ?%elem_of_nil|]. by intros (l & _ & ?%elem_of_nil).
  - rewrite elem_of_app, IH. split.
    + intros [Hx|(l' & Hx & Hl')]; [exists l|exists l']; set_solver.
    + intros (l' & Hx & [->|Hl']%elem_of_cons); [by left|right; eauto].
Qed.

Lemma resolve_nested_run refs regs slots regs' slots' :
  NoDup (op_ptr <$> refs.*1) ->
  resolve_nested refs regs slots = Ok (regs', slots') ->
  NoDup (concat refs.*2) /\ Forall (holds_region regs) (concat refs.*2) /\
  emptied_at (concat refs.*2) regs regs' /\
  (forall op indices (j : nat) index,
     (op, indices) ∈ refs -> indices !! j = Some index ->
     exists loc r,
       regs !! Z.to_nat index = Some (loc, Some r) /\
       slots' !! (op_ptr op, j) = Some r) /\
  (forall key, key.1 ∉ op_ptr <$> refs.*1 -> slots' !! key = slots !! key).
Proof.
  revert regs slots.
  induction refs as [|[op indices] refs IH]; intros regs slots Hptrs; simpl.
  - intros [= <- <-]. split; [constructor|]. split; [constructor|].
    split; [|split; [by intros ???? ?%elem_of_nil|done]]. split; [done|].
    intros k x Hx. rewrite Hx. case_bool_decide; [set_solver|done].
  - case_bool_decide; [|done]. unfold mbind at 1, Res_bind.
    destruct (take_bodies op indices 0 regs slots) as [[regs1 slots1]| |]
      eqn:Htake; [|done..].
    apply take_bodies_run in Htake
      as (Hnodup1 & Hholds1 & Hemptied1 & Hslots1 & Hother1).
    simpl in Hptrs. apply NoDup_cons in Hptrs as [Hop Hptrs].
    intros E. apply IH in E
      as (Hnodup2 & Hholds2 & Hemptied2 & Hslots2 & Hother2); [|done].
    assert (Forall (fun index => holds_region regs index /\ index ∉ indices)
                   (concat refs.*2)) as Hrest.
    { eapply Forall_impl; [exact Hholds2|]. intros index Hindex.
      by eapply emptied_at_holds. }
    split; [|split; [|split; [|split]]].
    + apply NoDup_app. split; [done|]. split; [|done].
      intros index Hin Hin'. rewrite Forall_forall in Hrest.
      by destruct (Hrest _ Hin').
    + apply Forall_app. split; [done|]. eapply Forall_impl; [exact Hrest|].
      by intros ? [? _].
    + by eapply emptied_at_trans.
    + intros op' indices' j index Hin Hj.
      apply elem_of_cons in Hin as [[= -> ->]|Hin].
      * destruct (Hslots1 _ _ Hj) as (loc & r & Hr & Hslot).
        exists loc, r. split; [done|]. by rewrite Hother2.
      * destruct (Hslots2 _ _ _ _ Hin Hj) as (loc & r & Hr & Hslot).
        exists loc, r. split; [|done].
        rewrite Forall_forall in Hholds2.
        destruct (Hholds2 index) as [Hpos _].
        { apply elem_of_concat. exists indices'. split.
          - by eapply list_elem_of_lookup_2.
          - apply list_elem_of_fmap. by exists (op', indices'). }
        by eapply emptied_at_lookup.
    + intros key Hkey. rewrite Hother2 by set_solver.
      apply Hother1. left. set_solver.
Qed.

Lemma resolve_top_level_run function_index_ i regs functions_ regs' functions' :
  resolve_top_level function_index_ i regs functions_ = Ok (regs', functions') ->
  length regs' = length regs /\
  forall (k : nat) x,
    regs !! k = Some x ->
    regs' !! k
    = Some (if bool_decide (i <= k)%nat && named_at function_index_ (k - i)
            then (x.1, None) else x).
Proof.
  revert i regs functions_.
  induction function_index_ as [|f fs IH]; intros i regs functions_; simpl.
  - intros [= <- _]. split; [done|]. intros k x ->. unfold named_at.
    rewrite lookup_nil. by rewrite andb_false_r.
  - assert (forall k, named_at (f :: fs) (k - i)
                      = if bool_decide (k <= i)%nat then IsNamedFunction f
                        else named_at fs (k - S i)) as Hnamed.
    { intros k. unfold named_at. case_bool_decide.
      - by replace (k - i)%nat with 0%nat by lia.
      - by replace (k - i)%nat with (S (k - S i)) by lia. }
    destruct (IsNamedFunction f) eqn:Hf.
    + destruct (regs !! i) as [[loc region]|] eqn:Hi; [|done].
      destruct (IsNativeFunction f).
      * destruct region; [done|]. unfold mbind, Res_bind.
        destruct (CreateNativeFuncOp loc f); [|done..].
        intros E. apply IH in E as [Hlen Hregs]. split; [done|].
        intros k x Hx. rewrite (Hregs _ _ Hx), Hnamed. f_equal.
        destruct (decide (k = i)) as [->|Hne];
          [rewrite Hi in Hx; injection Hx as <-|];
          repeat case_bool_decide; simpl; try lia; done.
      * destruct region as [region|]; [|done]. unfold mbind, Res_bind.
        destruct (CreateBEFFuncOp loc f region); [|done..].
        intros E. apply IH in E as [Hlen Hregs].
        rewrite length_insert in Hlen. split; [done|].
        intros k x Hx. rewrite Hnamed.
        destruct (decide (k = i)) as [->|Hne].
        -- rewrite (Hregs i (loc, None))
             by (rewrite list_lookup_insert_eq; [done|by eapply lookup_lt_Some]).
           rewrite Hi in Hx. injection Hx as <-. f_equal.
           repeat case_bool_decide; simpl; try lia; done.
        -- rewrite (Hregs k x) by (by rewrite list_lookup_insert_ne).
           f_equal. repeat case_bool_decide; simpl; try lia; done.
    + intros E. apply IH in E as [Hlen Hregs]. split; [done|].
      intros k x Hx. rewrite (Hregs _ _ Hx), Hnamed. f_equal.
      repeat case_bool_decide; simpl; try lia; done.
Qed.

Lemma all_resolved_Forall regs :
  all_resolved regs = true <-> Forall (fun x => x.2 = None) regs.
Proof.
  unfold all_resolved. induction regs as [|x regs IH]; simpl.
  - split; [constructor|done].
  - rewrite andb_true_iff, IH, Forall_cons, bool_decide_eq_true. done.
Qed.

(** C3: when the functions are resolved, every region slot [i] of every
    operation with deferred references has taken the region of the function
    whose index is entry [i] of its list, an unnamed function; every unnamed
    region is moved once and only once: the indices of all the lists are
    pairwise different and every unnamed function with a region is one of
    them; all the slots of the regions are empty afterwards. When a region
    is left after the two passes, the resolution fails with an error, and so
    does the conversion, which returns no module. The references are those
    of a map keyed by operation: no operation has two lists, as
    [ReadFunctions_references] below shows of what [ReadFunctions]
    records. *)
Theorem nested_regions_are_moved_once bef_file_ function_context module d :
  NoDup (op_ptr <$> (region_references function_context).*1) ->
  (forall function_context' module' d',
     ResolveFunctions bef_file_ function_context module d
     = (Ok (function_context', module'), d') ->
     (forall op indices (i : nat) index,
        (op, indices) ∈ region_references function_context ->
        indices !! i = Some index ->
        exists loc region,
          regions function_context !! Z.to_nat index = Some (loc, Some region) /\
          named_at (function_index bef_file_) (Z.to_nat index) = false /\
          module_regions module' !! (op_ptr op, i) = Some region) /\
     NoDup (concat (region_references function_context).*2) /\
     (forall (k : nat) loc region,
        regions function_context !! k = Some (loc, Some region) ->
        named_at (function_index bef_file_) k = false ->
        Z.of_nat k ∈ concat (region_references function_context).*2) /\
     Forall (fun loc_and_region => loc_and_region.2 = None)
            (regions function_context') /\
     d' = d) /\
  (forall regions1 functions_ regions2 slots loc,
     resolve_top_level (function_index bef_file_) 0 (regions function_context)
                       (module_functions module) = Ok (regions1, functions_) ->
     resolve_nested (region_references function_context) regions1
                    (module_regions module) = Ok (regions2, slots) ->
     Exists (fun loc_and_region => loc_and_region.2 <> None) regions2 ->
     or_error_at loc (ResolveFunctions bef_file_ function_context module)
                 "Failed to resolve functions." d
     = (Failure,
        d ++ [mkDiag SevError (location bef_file_)
                     "Failed to resolve functions.";
              mkDiag SevError loc "Failed to resolve functions."])).
Proof.
  intros Hptrs. split.
  - intros function_context' module' d'. unfold ResolveFunctions. intros E.
    apply bind_lift_Ok in E as ([regs1 funcs] & Htop & E).
    apply bind_lift_Ok in E as ([regs2 slots] & Hnested & E).
    destruct (all_resolved regs2) eqn:Hall; [|done].
    injection E as <- <- <-. apply all_resolved_Forall in Hall.
    apply resolve_top_level_run in Htop as [Hlen1 Hregs1].
    apply resolve_nested_run in Hnested
      as (Hnodup & Hholds & [Hlen2 Hregs2] & Hslots & _); [|done].
    assert (forall (k : nat) loc region,
              regs1 !! k = Some (loc, Some region) ->
              regions function_context !! k = Some (loc, Some region) /\
              named_at (function_index bef_file_) k = false) as Hback.
    { intros k loc region Hk.
      destruct (regions function_context !! k) as [x|] eqn:Hx.
      2: { apply lookup_ge_None in Hx. apply lookup_lt_Some in Hk. lia. }
      rewrite (Hregs1 _ _ Hx), Nat.sub_0_r in Hk.
      rewrite bool_decide_eq_true_2 in Hk by lia. simpl in Hk.
      destruct (named_at _ k); [done|]. by injection Hk as ->. }
    split; [|split; [done|split; [|done]]].
    + intros op indices i index Hin Hi.
      destruct (Hslots _ _ _ _ Hin Hi) as (loc & region & Hregion & Hslot).
      exists loc, region. apply Hback in Hregion as [? ?]. done.
    + intros k loc region Hk Hnamed.
      pose proof (Hregs1 _ _ Hk) as Hk1.
      rewrite Nat.sub_0_r, Hnamed, andb_false_r in Hk1.
      pose proof (Hregs2 _ _ Hk1) as Hk2.
      rewrite Forall_lookup in Hall. apply Hall in Hk2.
      by case_bool_decide.
  - intros regions1 functions_ regions2 slots loc Htop Hnested Hleft.
    change (d ++ [?x; ?y]) with (d ++ [x] ++ [y]). rewrite app_assoc.
    apply or_error_at_Failure. unfold ResolveFunctions.
    erewrite bind_run; [|unfold lift_res; by rewrite Htop]. cbv beta iota.
    erewrite bind_run; [|unfold lift_res; by rewrite Hnested]. cbv beta iota.
    destruct (all_resolved regions2) eqn:Hall; [|done].
    apply all_resolved_Forall in Hall. apply Exists_exists in Hleft
      as (x & Hx & Hne). rewrite Forall_forall in Hall. by apply Hall in Hx.
Qed.

End resolve.

(** ** The bounds of the loops are never reached *)

Section bounds.
Import BEFToMLIRConverter.
Context `{BEFEncoding}.

Lemma ReadByte_shorter r b r' :
  BEFReader.ReadByte r = (Some b, r') ->
  (length (elems r') < length (elems r))%nat.
Proof.
  unfold BEFReader.ReadByte. destruct (elems r); [done|].
  intros [= _ <-]. simpl. lia.
Qed.

Lemma ReadInt_loop_shorter bytes addr shift value v r' :
  BEFReader.ReadInt_loop bytes addr shift value = (Some v, r') ->
  (length (elems r') < length bytes)%nat.
Proof.
  revert addr shift value.
  induction bytes as [|b bytes IH]; intros addr shift value; simpl; [done|].
  case_bool_decide.
  - intros [= _ <-]. simpl. lia.
  - intros E. apply IH in E. lia.
Qed.

Lemma ReadInt_shorter r v r' :
  BEFReader.ReadInt r = (Some v, r') ->
  (length (elems r') < length (elems r))%nat.
Proof. apply ReadInt_loop_shorter. Qed.

Lemma ReadNextSection_shorter r sections r' sections' :
  ReadNextSection r sections = Ok (r', sections') ->
  (length (elems r') < length (elems r))%nat.
Proof.
  unfold ReadNextSection, BEFReader.ReadSection.
  destruct (BEFReader.ReadByte r) as [[section_id|] r1] eqn:Hid; [|done].
  destruct (BEFReader.ReadInt r1) as [[len|] r2] eqn:Hlen; [|done].
  apply ReadByte_shorter in Hid. apply ReadInt_shorter in Hlen.
  destruct (len <=? ref_size r2); [|done]. simpl.
  destruct (BEFSections.Set_ _ _ _); [|done..].
  intros [= <- _]. unfold BEFReader.SkipPast. simpl.
  rewrite length_drop. lia.
Qed.

Lemma Empty_nil (r : BEFReader.t) :
  length (elems r) = 0%nat -> BEFReader.Empty r = true.
Proof.
  unfold BEFReader.Empty, ref_empty. by destruct (elems r).
Qed.

(** Any bound from the number of remaining bytes on gives [ReadSections]
    the same result. *)
Lemma ReadSections_loop_bound fuel fuel' r sections :
  (length (elems r) <= fuel)%nat -> (length (elems r) <= fuel')%nat ->
  ReadSections_loop fuel r sections = ReadSections_loop fuel' r sections.
Proof.
  revert fuel' r sections.
  induction fuel as [|fuel IH]; intros fuel' r sections Hle Hle'.
  - destruct fuel'; simpl; rewrite Empty_nil; done || lia.
  - destruct fuel' as [|fuel'].
    + simpl; rewrite Empty_nil; done || lia.
    + simpl. destruct (BEFReader.Empty r); [done|].
      destruct (ReadNextSection r sections) as [[r1 sections1]| |] eqn:Hnext;
        [|done..].
      apply ReadNextSection_shorter in Hnext. simpl. apply IH; lia.
Qed.

(** With that bound, [ReadSections_loop] stops only at the end of the file
    or at a section that cannot be read. *)
Lemma ReadSections_loop_unfold r sections :
  ReadSections_loop (length (elems r)) r sections
  = if BEFReader.Empty r then Ok (r, sections)
    else '(r', sections') ← ReadNextSection r sections;
         ReadSections_loop (length (elems r')) r' sections'.
Proof.
  destruct (length (elems r)) as [|n] eqn:Hlen.
  - simpl. by rewrite Empty_nil.
  - simpl. destruct (BEFReader.Empty r); [done|].
    destruct (ReadNextSection r sections) as [[r1 sections1]| |] eqn:Hnext;
      [|done..].
    apply ReadNextSection_shorter in Hnext. simpl.
    apply ReadSections_loop_bound; lia.
Qed.

Lemma ReadNullTerminatedStrings_loop_bound {S} fuel fuel' original_size
    section_data (action : Z -> string -> S -> S) s :
  (length section_data <= fuel)%nat -> (length section_data <= fuel')%nat ->
  ReadNullTerminatedStrings_loop fuel original_size section_data action s
  = ReadNullTerminatedStrings_loop fuel' original_size section_data action s.
Proof.
  revert fuel' section_data s.
  induction fuel as [|fuel IH]; intros fuel' section_data s Hle Hle'.
  - destruct section_data; [|simpl in Hle; lia]. by destruct fuel'.
  - destruct section_data as [|b section_data]; [by destruct fuel'|].
    destruct fuel' as [|fuel']; [simpl in Hle'; lia|].
    cbn [ReadNullTerminatedStrings_loop]. case_match; [done|].
    apply IH; rewrite length_drop; lia.
Qed.

Lemma ReadLocationPositions_loop_bound fuel fuel' original_size r bef_file_ :
  (length (elems r) <= fuel)%nat -> (length (elems r) <= fuel')%nat ->
  ReadLocationPositions_loop fuel original_size r bef_file_
  = ReadLocationPositions_loop fuel' original_size r bef_file_.
Proof.
  revert fuel' r bef_file_.
  induction fuel as [|fuel IH]; intros fuel' r bef_file_ Hle Hle'.
  - destruct fuel'; simpl; rewrite Empty_nil; done || lia.
  - destruct fuel' as [|fuel'].
    + simpl; rewrite Empty_nil; done || lia.
    + simpl. destruct (BEFReader.Empty r); [done|].
      destruct (BEFReader.ReadInt r) as [[index|] r1] eqn:H1; [|done].
      destruct (BEFReader.ReadInt r1) as [[line|] r2] eqn:H2; [|done].
      destruct (BEFReader.ReadInt r2) as [[column|] r3] eqn:H3; [|done].
      apply ReadInt_shorter in H1, H2, H3.
      destruct (GetLocationFilename _ _); [|done]. apply IH; lia.
Qed.

End bounds.

Section attribute_depth.
Import BEFAttributeReader.
Context `{BEFEncoding}.
Variable attributes_ : ArrayRef.
Variable bef_file_ : BEFFile.

Lemma read_elements_ext n read read' reader d :
  (forall reader d, read reader d = read' reader d) ->
  read_elements n read reader d = read_elements n read' reader d.
Proof.
  intros Hext. revert reader d.
  induction n as [|n IH]; intros reader d; simpl; [done|].
  unfold mbind, M_bind, Mbind_. rewrite Hext.
  destruct (read' reader d) as [[[element reader1]| |] d1]; [|done..].
  by rewrite IH.
Qed.

Lemma payload_bound depth attribute_type :
  0 <= attribute_type < 8 ^ Z.of_nat (S depth) ->
  0 <= Z.shiftr attribute_type AttributeTypeID.kAttributeTypeIDShift
    < 8 ^ Z.of_nat depth.
Proof.
  intros [Hlo Hhi]. unfold AttributeTypeID.kAttributeTypeIDShift.
  rewrite Z.shiftr_div_pow2 by lia. change (2 ^ 3) with 8.
  rewrite Nat2Z.inj_succ, Z.pow_succ_r in Hhi by lia.
  split; [apply Z.div_pos; lia|]. apply Z.div_lt_upper_bound; lia.
Qed.

(** A descriptor of [3 * depth] bits is read the same way with any larger
    bound on the nesting of flat arrays. *)
Lemma ReadAttribute_rec_bound depth depth' reader attribute_type d :
  0 <= attribute_type < 8 ^ Z.of_nat depth ->
  attribute_type < 8 ^ Z.of_nat depth' ->
  ReadAttribute_rec attributes_ bef_file_ depth reader attribute_type d
  = ReadAttribute_rec attributes_ bef_file_ depth' reader attribute_type d.
Proof.
  revert depth' reader attribute_type d.
  induction depth as [|depth IH]; intros depth' reader attribute_type d Hlt Hlt'.
  - assert (attribute_type = 0) as -> by (simpl in Hlt; lia).
    by destruct depth'.
  - destruct depth' as [|depth'].
    + assert (attribute_type = 0) as -> by (simpl in Hlt'; lia). done.
    + cbn [ReadAttribute_rec]. repeat (case_bool_decide; [done|]).
      case_bool_decide; [|done].
      unfold mbind, M_bind, Mbind_, lift_res.
      destruct (offset_of _ _) as [offset| |]; [|done..].
      destruct (ReadLength _ _) as [length| |]; [|done..].
      case_bool_decide; [done|].
      erewrite read_elements_ext; [done|].
      intros reader' d'. apply IH; apply payload_bound; lia.
Qed.

(** The bound of [ReadAttribute] is enough for every 64 bit descriptor. *)
Lemma ReadAttribute_reader_bound depth reader attribute_type d :
  0 <= attribute_type < 2 ^ 64 -> (22 <= depth)%nat ->
  ReadAttribute_rec attributes_ bef_file_ depth reader attribute_type d
  = ReadAttribute_reader attributes_ bef_file_ reader attribute_type d.
Proof.
  intros Hrange Hdepth. unfold ReadAttribute_reader.
  symmetry. apply ReadAttribute_rec_bound.
  - change (8 ^ Z.of_nat 22) with (2 ^ 66). lia.
  - assert (8 ^ Z.of_nat 22 <= 8 ^ Z.of_nat depth)
      by (apply Z.pow_le_mono_r; lia).
    change (8 ^ Z.of_nat 22) with (2 ^ 66) in *. lia.
Qed.

End attribute_depth.

(** ** The deferred references are those of different operations *)

Section references.
Import BEFToMLIRConverter BEFFunctionReader.
Context `{BEFEncoding}.
Variable bef_file_ : BEFFile.

Lemma references_ok_mono fn k fn' k' refs :
  (fn < fn')%nat \/ (fn = fn' /\ (k <= k')%nat) ->
  references_ok fn k refs -> references_ok fn' k' refs.
Proof.
  intros Hle [Hnodup Hbefore]. split; [done|].
  eapply Forall_impl; [exact Hbefore|]. unfold created_before. intros p. lia.
Qed.

Lemma references_ok_snoc fn k refs op indices :
  op_ptr op = (fn, k) -> references_ok fn k refs ->
  references_ok fn (S k) (refs ++ [(op, indices)]).
Proof.
  intros Hop [Hnodup Hbefore]. unfold references_ok.
  rewrite !fmap_app. simpl. rewrite Hop. split.
  - apply NoDup_app. split; [done|]. split; [|apply NoDup_singleton].
    intros p Hp Hp'. apply list_elem_of_singleton in Hp' as ->.
    rewrite Forall_forall in Hbefore. apply Hbefore in Hp.
    unfold created_before in Hp. simpl in Hp. lia.
  - apply Forall_app. split.
    + eapply Forall_impl; [exact Hbefore|]. unfold created_before. intros p. lia.
    + constructor; [|done]. right. simpl. lia.
Qed.

Lemma ReadKernel_references kernels_ offset_ fn k regs names refs d
    op regs' names' refs' d' :
  references_ok fn k refs ->
  ReadKernel bef_file_ kernels_ offset_ (fn, k) regs names refs d
  = (Ok (op, regs', names', refs'), d') ->
  references_ok fn (S k) refs'.
Proof.
  intros Hrefs. unfold ReadKernel. case_match; [done|]. intros E.
  apply bind_lift_Ok in E as (kernel_code & _ & E).
  apply bind_lift_Ok in E as (name_ & _ & E).
  apply bind_lift_Ok in E as (kernel_location & _ & E).
  apply bind_lift_Ok in E as (location_ & _ & E).
  apply bind_lift_Ok in E as (num_arguments & _ & E).
  apply bind_lift_Ok in E as (arguments & _ & E).
  apply bind_Ok in E as (operands & d1 & _ & E).
  destruct (match BEFReader.ReadByte names with
            | (Some b, r) => _ | (None, r) => _ end) as [attrs names1].
  apply bind_lift_Ok in E as (num_attributes & _ & E).
  apply bind_lift_Ok in E as (attributes_ & _ & E).
  apply bind_lift_Ok in E as ([attrs1 names2] & _ & E).
  apply bind_lift_Ok in E as (num_functions & _ & E).
  apply bind_lift_Ok in E as (functions & _ & E).
  apply bind_Ok in E as ([[attrs2 regions] indices] & d2 & _ & E).
  apply bind_lift_Ok in E as (num_results & _ & E).
  apply bind_lift_Ok in E as (results & _ & E).
  apply bind_lift_Ok in E as (types_ & _ & E).
  apply bind_Ok in E as (regs1 & d3 & _ & E).
  repeat case_match; try done; injection E as <- <- <- <- <-.
  - by apply references_ok_snoc.
  - eapply references_ok_mono; [|done]. lia.
Qed.

Lemma ReadKernels_loop_references fn entries kernels_ ops regs names refs d
    ops' regs' names' refs' d' :
  references_ok fn (length ops) refs ->
  ReadKernels_loop bef_file_ fn entries kernels_ ops regs names refs d
  = (Ok (ops', regs', names', refs'), d') ->
  references_ok fn (length ops') refs'.
Proof.
  revert ops regs names refs d.
  induction entries as [|e entries IH]; intros ops regs names refs d Hrefs; simpl.
  - by intros [= <- _ _ <- _].
  - intros E. apply bind_Ok in E as ([[[op regs1] names1] refs1] & d1 & Hop & E).
    apply ReadKernel_references in Hop; [|done].
    apply IH in E; [done|]. rewrite length_app. simpl.
    by replace (length ops + 1)%nat with (S (length ops)) by lia.
Qed.

Lemma ReadFunction_references bef_function_ fn function_reader_ names
    register_types refs d loc region names' register_types' refs' d' :
  references_ok fn 0 refs ->
  ReadFunction bef_file_ bef_function_ fn function_reader_ names register_types
               refs d
  = (Ok (loc, region, names', register_types', refs'), d') ->
  references_ok (S fn) 0 refs'.
Proof.
  intros Hrefs. unfold ReadFunction.
  destruct (BEFReader.ReadInt function_reader_) as [[offset_|] r0]; [|done].
  destruct (GetLocationPosition _ _) as [location_|]; [|done].
  intros E. apply bind_Ok in E as ([[regs r1] rt1] & d1 & _ & E).
  apply bind_Ok in E as ([kernel_table_ r2] & d2 & _ & E).
  apply bind_Ok in E as ([result_regs_ r3] & d3 & _ & E).
  apply bind_Ok in E as ([[ops names1] refs1] & d4 & Hkernels & E).
  injection E as <- <- <- <- <- <-.
  apply or_error_at_Ok in Hkernels.
  destruct (BEFReader.ReadAlignment r3 _) as [[[]|] r4]; [|done].
  unfold ReadKernels in Hkernels.
  apply bind_Ok in Hkernels as (names2 & d5 & _ & E).
  apply bind_Ok in E as ([[start regs1] names3] & d6 & _ & E).
  apply bind_Ok in E as ([[[ops1 regs2] names4] refs2] & d7 & Hloop & E).
  apply bind_Ok in E as (operands & d8 & _ & E).
  injection E as <- <- <- <-.
  apply ReadKernels_loop_references in Hloop; [|done].
  eapply references_ok_mono; [|done]. lia.
Qed.

Lemma ReadFunctions_loop_references functions_ function_index_ names
    register_types function_context d function_context' d' :
  references_ok (length (regions function_context)) 0
                (region_references function_context) ->
  ReadFunctions_loop functions_ function_index_ bef_file_ names register_types
                     function_context d = (Ok function_context', d') ->
  references_ok (length (regions function_context')) 0
                (region_references function_context').
Proof.
  revert names register_types function_context d.
  induction function_index_ as [|f fs IH];
    intros names register_types function_context d Hrefs; simpl.
  - by intros [= <- _].
  - destruct (IsNativeFunction f).
    + intros E. apply IH in E; [done|]. simpl. rewrite length_app. simpl.
      eapply references_ok_mono; [|done]. lia.
    + intros E. apply bind_lift_Ok in E as (function & _ & E).
      apply bind_Ok in E
        as ([[[[loc region] names1] rt1] refs1] & d1 & Hfunction & E).
      apply ReadFunction_references in Hfunction; [|done].
      apply IH in E; [done|]. simpl. rewrite length_app. simpl.
      by replace (length (regions function_context) + 1)%nat
        with (S (length (regions function_context))) by lia.
Qed.

(** The references that [ReadFunctions] records from scratch are those of a
    map keyed by operation. *)
Lemma ReadFunctions_references functions_ attribute_names register_types d
    function_context d' :
  ReadFunctions bef_file_ functions_ attribute_names register_types
                (mkContext [] []) d = (Ok function_context, d') ->
  NoDup (op_ptr <$> (region_references function_context).*1).
Proof.
  unfold ReadFunctions. intros E.
  apply ReadFunctions_loop_references in E as [Hnodup _]; [done|].
  split; simpl; constructor.
Qed.

End references.

(** ** The theorems at work *)



Lemma nested_regions_are_moved_once_witness :
  exists loc,
    regions Example.nesting_context !! 2%nat
    = Some (loc, Some (mkRegion 2 [] [Example.return_op 2 0])) /\
    (BEFToMLIRConverter.ResolveFunctions Example.tables Example.nesting_context
       (mkModuleOp Example.origin [] ∅) []).1
    ≫= (fun r => Ok (module_regions r.2 !! ((0%nat, 0%nat), 1%nat)))
    = Ok (Some (mkRegion 2 [] [Example.return_op 2 0])).
Proof.
  destruct (nested_regions_are_moved_once Example.tables Example.nesting_context
              (mkModuleOp Example.origin [] ∅) []) as [Hmoved _].
  { repeat constructor. by intros ?%elem_of_nil. }
  destruct (BEFToMLIRConverter.ResolveFunctions Example.tables
              Example.nesting_context (mkModuleOp Example.origin [] ∅) [])
    as [[[ctx' module']| |] d'] eqn:E; [|vm_compute in E; discriminate E..].
  destruct (Hmoved ctx' module' d' eq_refl) as (Hslots & _).
  destruct (Hslots Example.nesting_op [1; 2] 1%nat 2)
    as (loc & region & Hregion & _ & Hslot).
  { repeat constructor. }
  { reflexivity. }
  vm_compute in Hregion. injection Hregion as <- <-.
  eexists. split; [reflexivity|].
  change (Ok (module_regions module' !! (op_ptr Example.nesting_op, 1%nat))
          = Ok (Some (mkRegion 2 [] [Example.return_op 2 0]))).
  by rewrite Hslot.
Defined.

Lemma result_types_come_from_the_return_op_witness :
  let f := mkBEFFunction 0 "f" kBEFFunction [IntegerType 32] [IntegerType 32] in
  let g := with_result_types f [IntegerType 64] in
  BEFFunctionReader.ReadFunction (H := Example.encoding) Example.tables g 0
    Example.identity_function empty_ref empty_ref []
  = BEFFunctionReader.ReadFunction (H := Example.encoding) Example.tables f 0
      Example.identity_function empty_ref empty_ref [] /\
  exists loc region func_op,
    BEFFunctionReader.ReadFunction (H := Example.encoding) Example.tables g 0
      Example.identity_function empty_ref empty_ref [] []
    = (Ok (loc, region, empty_ref, empty_ref, []), []) /\
    BEFToMLIRConverter.CreateBEFFuncOp loc g region = Ok func_op /\
    func_result_types func_op = [IntegerType 32].
Proof.
  intros f g.
  destruct (result_types_come_from_the_return_op (H := Example.encoding)
              Example.tables) as (_ & _ & _ & Hsame & _).
  split.
  - exact (proj1 (Hsame f [IntegerType 64] 0%nat Example.identity_function
                        empty_ref empty_ref [] UnknownLoc (mkRegion 0 [] [])
                        eq_refl)).
  - do 3 eexists. split; [vm_compute; reflexivity|]. split; reflexivity.
Defined.

(** The file without the three optional sections gives a module and the one
    warning; the attribute of its kernel is the placeholder, named attr0. *)
Lemma degraded_file_gives_a_module :
  exists module,
    @ConvertBEFToMLIR Example.encoding Example.origin Example.degraded_file
    = (Ok module,
       [mkDiag SevWarning Example.origin
               BEFToMLIRConverter.missing_sections_message]) /\
    (fun f => region_ops <$> func_body f) <$> module_functions module
    = [Some [mkOperation (0%nat, 0%nat) "k" (FileLineColLoc "a" 1 1) [] []
               [("attr0", BEFFunctionReader.dummy_attribute)] 0;
             Example.return_op 0 1]].
Proof. eexists. split; [vm_compute; reflexivity|]. vm_compute. reflexivity. Qed.

(** The two unnamed functions of the nested file become the regions of the
    kernel of [f], in the order of its references, and [f] is the one
    function of the module. *)
Lemma nested_file_gives_a_module :
  exists module,
    @ConvertBEFToMLIR Example.encoding Example.origin Example.nested_file
    = (Ok module, []) /\
    func_name <$> module_functions module = ["f"] /\
    module_regions module !! ((0%nat, 0%nat), 0%nat)
    = Some (mkRegion 1 [] [Example.return_op 1 0]) /\
    module_regions module !! ((0%nat, 0%nat), 1%nat)
    = Some (mkRegion 2 [] [Example.return_op 2 0]).
Proof.
  eexists. split; [vm_compute; reflexivity|]. by vm_compute.
Qed.

(** * Further properties of the converter *)

(** ** The section table *)

Section section_table.
Import BEFSections.

Lemma vector_get_lookup {A} (v : list A) index a :
  vector_get v index = Some a <->
  0 <= index < Z.of_nat (length v) /\ v !! Z.to_nat index = Some a.
Proof.
  unfold vector_get.
  destruct (Z.leb_spec 0 index); destruct (Z.ltb_spec index (Z.of_nat (length v)));
    simpl; split; (done || lia || intros [? ?]; done || lia).
Qed.

Lemma vector_get_None {A} (v : list A) index :
  vector_get v index = None <-> index < 0 \/ Z.of_nat (length v) <= index.
Proof.
  unfold vector_get.
  destruct (Z.leb_spec 0 index); destruct (Z.ltb_spec index (Z.of_nat (length v)));
    simpl; split; try done; try lia.
  intros Hnone. apply lookup_ge_None in Hnone. lia.
Qed.

(** X1: the section table behaves as an array of [kNumSectionIDs] slices
    indexed by the identifier as a byte. A section that was set is the one
    that is got, whatever was there before, and the other sections are as
    they were; before any is set every known section is the empty slice;
    getting or setting a section outside the known ones is the failed
    range check of [at]. *)
Theorem section_set_then_get s section_id section_data s' :
  Set_ s section_id section_data = Ok s' ->
  Get s' section_id = Ok section_data /\
  (forall other,
     other mod 256 <> section_id mod 256 -> Get s' other = Get s other) /\
  (forall id,
     Get init id
     = if id mod 256 <? BEFSectionID.kNumSectionIDs then Ok empty_ref
       else Abort) /\
  (forall id data,
     BEFSectionID.kNumSectionIDs <= id mod 256 -> Set_ init id data = Abort).
Proof.
  unfold Set_, Get, t in *. intros Hset.
  destruct (vector_get s (section_id mod 256)) as [old|] eqn:Hold; [|done].
  injection Hset as <-. apply vector_get_lookup in Hold as [Hrange Hold].
  apply lookup_lt_Some in Hold as Hlt.
  split; [|split; [|split]].
  - assert (vector_get (<[Z.to_nat (section_id mod 256):=section_data]> s)
                       (section_id mod 256) = Some section_data) as ->; [|done].
    apply vector_get_lookup. rewrite length_insert.
    split; [done|]. by apply list_lookup_insert_eq.
  - intros other Hother.
    assert (0 <= other mod 256 < 256) by (apply Z.mod_pos_bound; lia).
    assert (vector_get (<[Z.to_nat (section_id mod 256):=section_data]> s)
                       (other mod 256) = vector_get s (other mod 256)) as ->;
      [|done].
    unfold vector_get. rewrite length_insert.
    destruct ((0 <=? other mod 256) && (other mod 256 <? Z.of_nat (length s)));
      [|done].
    apply list_lookup_insert_ne. lia.
  - intros id. assert (0 <= id mod 256 < 256) by (apply Z.mod_pos_bound; lia).
    unfold init. change (Z.to_nat (BEFSectionID.kNumSectionIDs mod 256)) with 12%nat.
    change BEFSectionID.kNumSectionIDs with 12.
    destruct (Z.ltb_spec (id mod 256) 12).
    + assert (vector_get (replicate 12 empty_ref) (id mod 256) = Some empty_ref)
        as ->; [|done].
      apply vector_get_lookup. rewrite length_replicate.
      split; [lia|]. apply lookup_replicate_2. lia.
    + assert (vector_get (replicate 12 empty_ref) (id mod 256) = None) as ->;
        [|done].
      apply vector_get_None. rewrite length_replicate. lia.
  - intros id data. change BEFSectionID.kNumSectionIDs with 12. intros Hid.
    unfold init. change (Z.to_nat (BEFSectionID.kNumSectionIDs mod 256)) with 12%nat.
    assert (vector_get (replicate 12 empty_ref) (id mod 256) = None) as ->;
      [|done].
    apply vector_get_None. rewrite length_replicate. lia.
Qed.

End section_table.

Lemma section_set_then_get_witness :
  BEFSections.Get
    (<[3%nat := mkArrayRef 7 [1; 2]]> BEFSections.init) BEFSectionID.kStrings
  = Ok (mkArrayRef 7 [1; 2]).
Proof.
  refine (proj1 (section_set_then_get BEFSections.init BEFSectionID.kStrings
                   (mkArrayRef 7 [1; 2]) _ _)).
  reflexivity.
Defined.

(** ** The tables of the file *)

Section tables.

Lemma to_int_period x : to_int (x + 2 ^ 32) = to_int x.
Proof.
  assert ((x + 2 ^ 32) mod 2 ^ 32 = x mod 2 ^ 32) as Hmod.
  { replace (x + 2 ^ 32) with (x + 1 * 2 ^ 32) by lia. apply Z.mod_add. lia. }
  unfold to_int. by rewrite Hmod.
Qed.

Lemma to_int_nonneg x :
  0 <= to_int x -> to_int x = x mod 2 ^ 32 /\ to_int x < 2 ^ 31.
Proof.
  unfold to_int. assert (0 <= x mod 2 ^ 32 < 2 ^ 32) by (apply Z.mod_pos_bound; lia).
  destruct (x mod 2 ^ 32 <? 2 ^ 31) eqn:Hlt; lia.
Qed.

(** X2: the types, the functions and the location filenames are looked up
    with the index converted to [int]: an index and the index [2^32] further
    give the same entry, and an entry is returned only when the index modulo
    [2^32] is below [2^31] and below the size of the table, the entry being
    the one at that place. No lookup reads outside its table. *)
Theorem table_lookups_take_the_index_as_an_int bef_file_ index :
  (GetType bef_file_ (index + 2 ^ 32) = GetType bef_file_ index /\
   GetFunction bef_file_ (index + 2 ^ 32) = GetFunction bef_file_ index /\
   GetLocationFilename bef_file_ (index + 2 ^ 32)
   = GetLocationFilename bef_file_ index) /\
  (forall type_,
     GetType bef_file_ index = Some type_ ->
     index mod 2 ^ 32 < 2 ^ 31 /\
     types bef_file_ !! Z.to_nat (index mod 2 ^ 32) = Some (Some type_)) /\
  (forall bef_function,
     GetFunction bef_file_ index = Some bef_function ->
     index mod 2 ^ 32 < 2 ^ 31 /\
     function_index bef_file_ !! Z.to_nat (index mod 2 ^ 32)
     = Some bef_function) /\
  (forall filename,
     GetLocationFilename bef_file_ index = Some filename ->
     index mod 2 ^ 32 < 2 ^ 31 /\
     location_filenames bef_file_ !! Z.to_nat (index mod 2 ^ 32)
     = Some filename).
Proof.
  unfold GetType, GetFunction, GetLocationFilename. rewrite !to_int_period.
  split; [done|]. split; [|split].
  - intros type_.
    destruct (vector_get (types bef_file_) (to_int index)) as [t|] eqn:Hget;
      [|done].
    intros ->. apply vector_get_lookup in Hget as [[Hlo _] Hget].
    apply to_int_nonneg in Hlo as [Heq Hlt]. rewrite <- Heq. split; [lia|done].
  - intros bef_function Hget. apply vector_get_lookup in Hget as [[Hlo _] Hget].
    apply to_int_nonneg in Hlo as [Heq Hlt]. rewrite <- Heq. split; [lia|done].
  - intros filename Hget. apply vector_get_lookup in Hget as [[Hlo _] Hget].
    apply to_int_nonneg in Hlo as [Heq Hlt]. rewrite <- Heq. split; [lia|done].
Qed.

End tables.

Lemma table_lookups_take_the_index_as_an_int_witness :
  (2 ^ 32 + 0) mod 2 ^ 32 < 2 ^ 31 /\
  types Example.tables !! Z.to_nat ((2 ^ 32 + 0) mod 2 ^ 32)
  = Some (Some (IntegerType 32)).
Proof.
  refine (proj1 (proj2 (table_lookups_take_the_index_as_an_int
                          Example.tables (2 ^ 32 + 0))) (IntegerType 32) _).
  reflexivity.
Defined.

(** ** Arrays of integers *)

Section int_arrays.

Lemma ReadInt_loop_range bytes addr shift value v r' :
  BEFReader.ReadInt_loop bytes addr shift value = (Some v, r') ->
  0 <= v < 2 ^ 64.
Proof.
  revert addr shift value.
  induction bytes as [|b bytes IH]; intros addr shift value; simpl; [done|].
  case_bool_decide.
  - intros [= <- _]. unfold wrap64. apply Z.mod_pos_bound. lia.
  - apply IH.
Qed.

Lemma ReadInt_range r v r' :
  BEFReader.ReadInt r = (Some v, r') -> 0 <= v < 2 ^ 64.
Proof. apply ReadInt_loop_range. Qed.

Lemma ReadIntArray_items_Some n r items r' :
  ReadIntArray_items n r = (Some items, r') ->
  length items = n /\
  (length (elems r') + n <= length (elems r))%nat /\
  Forall (fun item => 0 <= item < 2 ^ 64) items.
Proof.
  revert r items. induction n as [|n IH]; intros r items; simpl.
  - intros [= <- <-]. split; [done|]. split; [lia|constructor].
  - destruct (BEFReader.ReadInt r) as [[item|] r1] eqn:Hitem; [|done].
    destruct (ReadIntArray_items n r1) as [[items1|] r2] eqn:Hitems; [|done].
    intros [= <- <-]. apply IH in Hitems as (Hlen & Hle & Hall).
    apply ReadInt_shorter in Hitem as Hshort. apply ReadInt_range in Hitem.
    simpl. split; [lia|]. split; [lia|]. by constructor.
Qed.

(** X3: an array of integers that is read has as many items as the count
    at its head says, every item is an unsigned 64 bit integer, and the
    count and the items have each taken at least one byte of the reader. *)
Theorem ReadIntArray_reads_the_count r items r' :
  ReadIntArray r = (Some items, r') ->
  (exists r0, BEFReader.ReadInt r = (Some (Z.of_nat (length items)), r0)) /\
  (length (elems r') + length items < length (elems r))%nat /\
  Forall (fun item => 0 <= item < 2 ^ 64) items.
Proof.
  unfold ReadIntArray.
  destruct (BEFReader.ReadInt r) as [[num_items|] r0] eqn:Hnum; [|done].
  intros Hitems. apply ReadIntArray_items_Some in Hitems as (Hlen & Hle & Hall).
  apply ReadInt_shorter in Hnum as Hshort. apply ReadInt_range in Hnum.
  split; [|split; [lia|done]].
  exists r0. do 2 f_equal. lia.
Qed.

End int_arrays.

Lemma ReadIntArray_reads_the_count_witness :
  (exists r0,
     BEFReader.ReadInt (mkArrayRef 0 [2; 130; 1; 5; 9])
     = (Some (Z.of_nat (length [130; 5])), r0)) /\
  (length [9] + length [130; 5] < length [2; 130; 1; 5; 9])%nat /\
  Forall (fun item => 0 <= item < 2 ^ 64) [130; 5].
Proof.
  apply (ReadIntArray_reads_the_count (mkArrayRef 0 [2; 130; 1; 5; 9])
           [130; 5] (mkArrayRef 4 [9])).
  reflexivity.
Defined.

(** ** Sections of strings *)

Section string_sections.
Import BEFToMLIRConverter.
Context `{BEFEncoding}.

Lemma c_str_app str rest :
  Forall (fun b => b <> 0) str -> c_str (str ++ 0 :: rest) = str.
Proof.
  induction 1 as [|b str Hb _ IH]; simpl; [done|].
  rewrite bool_decide_eq_false_2 by done. by rewrite IH.
Qed.

Lemma c_str_length bytes : (length (c_str bytes) <= length bytes)%nat.
Proof.
  induction bytes as [|b bytes IH]; simpl; [done|].
  case_bool_decide; simpl; lia.
Qed.

Lemma c_str_whole bytes :
  (length bytes <= length (c_str bytes))%nat -> Forall (fun b => b <> 0) bytes.
Proof.
  induction bytes as [|b bytes IH]; simpl; [constructor|].
  case_bool_decide; simpl; [lia|]. intros Hle. constructor; [done|].
  apply IH. lia.
Qed.

Lemma c_str_terminated bytes :
  (length (c_str bytes) < length bytes)%nat ->
  bytes = c_str bytes ++ 0 :: drop (length (c_str bytes) + 1) bytes.
Proof.
  induction bytes as [|b bytes IH]; simpl; [lia|].
  case_bool_decide as Hb; simpl.
  - intros _. by rewrite Hb, drop_0.
  - intros Hlt. f_equal. apply IH. lia.
Qed.

Lemma ReadNullTerminatedStrings_loop_step {T} fuel original_size section_data
    (action : Z -> string -> T -> T) s :
  section_data <> [] ->
  ReadNullTerminatedStrings_loop (S fuel) original_size section_data action s
  = if (length section_data <=? length (c_str section_data))%nat then Failure
    else ReadNullTerminatedStrings_loop fuel original_size
           (drop (length (c_str section_data) + 1) section_data) action
           (action (original_size - Z.of_nat (length section_data))
                   (string_of_bytes (c_str section_data)) s).
Proof. by destruct section_data. Qed.

Lemma null_terminated_cons str strs :
  null_terminated (str :: strs) = str ++ 0 :: null_terminated strs.
Proof. unfold null_terminated. simpl. by rewrite <- app_assoc. Qed.

Lemma ReadNullTerminatedStrings_loop_run {T} fuel original_size strs
    (action : Z -> string -> T -> T) s :
  Forall (Forall (fun b => b <> 0)) strs ->
  (length (null_terminated strs) <= fuel)%nat ->
  ReadNullTerminatedStrings_loop fuel original_size (null_terminated strs)
                                 action s
  = Ok (apply_strings action
          (original_size - Z.of_nat (length (null_terminated strs))) strs s).
Proof.
  intros Hstrs. revert fuel s.
  induction Hstrs as [|str strs Hstr _ IH]; intros fuel s Hfuel.
  - by destruct fuel.
  - rewrite null_terminated_cons in *.
    destruct fuel as [|fuel]; [rewrite length_app in Hfuel; simpl in Hfuel; lia|].
    rewrite ReadNullTerminatedStrings_loop_step by (by destruct str).
    rewrite c_str_app by done.
    rewrite length_app in *. simpl in *.
    destruct (Nat.leb_spec (length str + S (length (null_terminated strs)))
                           (length str)); [lia|].
    replace (length str + 1)%nat with (length (str ++ [0]))
      by (rewrite length_app; done).
    replace (str ++ 0 :: null_terminated strs)
      with ((str ++ [0]) ++ null_terminated strs)
      by (by rewrite <- app_assoc).
    rewrite drop_app_length. rewrite IH by lia. simpl. do 2 f_equal. lia.
Qed.

Lemma ReadNullTerminatedStrings_loop_result {T} fuel original_size section_data
    (action : Z -> string -> T -> T) s :
  (length section_data <= fuel)%nat ->
  match ReadNullTerminatedStrings_loop fuel original_size section_data action s
  with
  | Ok _ => last section_data = None \/ last section_data = Some 0
  | Failure => exists b, last section_data = Some b /\ b <> 0
  | Abort => False
  end.
Proof.
  revert section_data s.
  induction fuel as [|fuel IH]; intros section_data s Hfuel.
  - destruct section_data; [|simpl in Hfuel; lia]. simpl. by left.
  - destruct section_data as [|b data]; [simpl; by left|].
    rewrite ReadNullTerminatedStrings_loop_step by done.
    destruct (Nat.leb_spec (length (b :: data)) (length (c_str (b :: data))))
      as [Hwhole|Hterminated].
    + apply c_str_whole in Hwhole.
      destruct (last (b :: data)) as [x|] eqn:Hlast;
        [|by apply last_None in Hlast].
      exists x. split; [done|].
      apply last_Some in Hlast as [l' Hl']. rewrite Hl' in Hwhole.
      apply Forall_app in Hwhole as [_ Hx]. by inversion Hx.
    + pose proof (c_str_terminated _ Hterminated) as Hsplit.
      set (rest := drop (length (c_str (b :: data)) + 1) (b :: data)) in *.
      assert (length rest < length (b :: data))%nat as Hshorter
        by (unfold rest; rewrite length_drop; simpl; lia).
      ospecialize (IH rest
        (action (original_size - Z.of_nat (length (b :: data)))
                (string_of_bytes (c_str (b :: data))) s) _);
        [simpl in *; lia|].
      assert (last (b :: data)
              = match last rest with Some y => Some y | None => Some 0 end)
        as ->.
      { rewrite Hsplit, last_app_cons. change (0 :: rest) with ([0] ++ rest).
        rewrite last_app. by destruct (last rest). }
      destruct (ReadNullTerminatedStrings_loop fuel original_size rest _ _)
        as [s'| |]; [| |done].
      * right. by destruct IH as [-> | ->].
      * destruct IH as (x & -> & Hx). by exists x.
Qed.

(** X4: a section of strings is read with success exactly when it is empty
    or its last byte is a NUL; when its last byte is another one the read
    fails, the last string having no terminator in the section. This is so
    for the LocationFilenames and the Strings sections, whatever strings
    they hold. *)
Theorem string_sections_end_with_a_NUL bef_file_ section_data :
  match ReadLocationFilenames bef_file_ section_data,
        ReadStrings bef_file_ section_data with
  | Ok _, Ok _ =>
      last (elems section_data) = None \/ last (elems section_data) = Some 0
  | Failure, Failure =>
      exists b, last (elems section_data) = Some b /\ b <> 0
  | _, _ => False
  end.
Proof.
  unfold ReadLocationFilenames, ReadStrings, ReadNullTerminatedStrings.
  pose proof (ReadNullTerminatedStrings_loop_result
    (length (elems section_data)) (ref_size section_data) (elems section_data)
    (fun offset str f =>
       with_location_filenames f (location_filenames f ++ [str]))
    bef_file_ (le_n _)) as Hfilenames.
  pose proof (ReadNullTerminatedStrings_loop_result
    (length (elems section_data)) (ref_size section_data) (elems section_data)
    (fun offset str f => with_strings f (<[offset := str]> (strings f)))
    bef_file_ (le_n _)) as Hstrings.
  destruct (ReadNullTerminatedStrings_loop _ _ _ _ _) as [f1| |];
    destruct (ReadNullTerminatedStrings_loop _ _ _ _ _) as [f2| |]; try done.
  - destruct Hstrings as (b & Hb & Hnonzero).
    destruct Hfilenames as [Hlast|Hlast]; rewrite Hlast in Hb; congruence.
  - destruct Hfilenames as (b & Hb & Hnonzero).
    destruct Hstrings as [Hlast|Hlast]; rewrite Hlast in Hb; congruence.
Qed.

Lemma apply_strings_filenames strs offset bef_file_ :
  apply_strings
    (fun offset str f =>
       with_location_filenames f (location_filenames f ++ [str]))
    offset strs bef_file_
  = with_location_filenames bef_file_
      (location_filenames bef_file_ ++ (string_of_bytes <$> strs)).
Proof.
  revert offset bef_file_.
  induction strs as [|str strs IH]; intros offset bef_file_; simpl.
  - rewrite app_nil_r. by destruct bef_file_.
  - rewrite IH. unfold with_location_filenames. simpl.
    by rewrite <- app_assoc.
Qed.

(** X5: the filenames of a LocationFilenames section made of strings that
    are each followed by a NUL are these strings, in the order of the
    section, after the filenames that the file had. *)
Theorem ReadLocationFilenames_reads_the_strings bef_file_ a strs :
  Forall (Forall (fun b => b <> 0)) strs ->
  ReadLocationFilenames bef_file_ (mkArrayRef a (null_terminated strs))
  = Ok (with_location_filenames bef_file_
          (location_filenames bef_file_ ++ (string_of_bytes <$> strs))).
Proof.
  intros Hstrs. unfold ReadLocationFilenames, ReadNullTerminatedStrings. simpl.
  rewrite ReadNullTerminatedStrings_loop_run by done.
  by rewrite apply_strings_filenames.
Qed.

Lemma apply_strings_strings strs offset bef_file_ :
  apply_strings
    (fun offset str f => with_strings f (<[offset := str]> (strings f)))
    offset strs bef_file_
  = with_strings bef_file_
      (apply_strings insert_string offset strs (strings bef_file_)).
Proof.
  revert offset bef_file_.
  induction strs as [|str strs IH]; intros offset bef_file_; simpl.
  - by destruct bef_file_.
  - by rewrite IH.
Qed.

Lemma apply_strings_before strs offset m k :
  k < offset -> apply_strings insert_string offset strs m !! k = m !! k.
Proof.
  revert offset m. induction strs as [|str strs IH]; intros offset m Hk; simpl.
  - done.
  - rewrite IH by lia. unfold insert_string. apply lookup_insert_ne. lia.
Qed.

Lemma string_offset_0 str strs : string_offset (str :: strs) 0 = 0.
Proof. done. Qed.

Lemma string_offset_S str strs k :
  string_offset (str :: strs) (S k)
  = Z.of_nat (length str) + 1 + string_offset strs k.
Proof.
  unfold string_offset. simpl. rewrite null_terminated_cons, length_app.
  simpl. lia.
Qed.

Lemma string_offset_nonneg strs k : 0 <= string_offset strs k.
Proof. unfold string_offset. lia. Qed.

Lemma apply_strings_at strs offset m (k : nat) str :
  strs !! k = Some str ->
  apply_strings insert_string offset strs m !! (offset + string_offset strs k)
  = Some (string_of_bytes str).
Proof.
  revert offset m k.
  induction strs as [|str0 strs IH]; intros offset m k; [done|].
  destruct k as [|k]; simpl.
  - intros [= ->]. rewrite string_offset_0, Z.add_0_r.
    rewrite apply_strings_before by lia. apply lookup_insert_eq.
  - intros Hk. rewrite string_offset_S.
    replace (offset + (Z.of_nat (length str0) + 1 + string_offset strs k))
      with (offset + Z.of_nat (length str0) + 1 + string_offset strs k) by lia.
    by apply IH.
Qed.

Lemma apply_strings_elsewhere strs offset m off :
  (forall k : nat, (k < length strs)%nat -> off <> offset + string_offset strs k) ->
  apply_strings insert_string offset strs m !! off = m !! off.
Proof.
  revert offset m.
  induction strs as [|str strs IH]; intros offset m Hoff; simpl; [done|].
  rewrite IH.
  - unfold insert_string. apply lookup_insert_ne.
    specialize (Hoff 0%nat). rewrite string_offset_0 in Hoff.
    simpl in Hoff. lia.
  - intros k Hk. specialize (Hoff (S k)). rewrite string_offset_S in Hoff.
    simpl in Hoff. lia.
Qed.

(** X6: in a Strings section made of strings that are each followed by a
    NUL, every string is found at the offset of its first byte, and no
    other offset of the section gives a string: an offset inside a string
    is not one. What the file held at other offsets is kept. *)
Theorem ReadStrings_keys_are_the_string_starts bef_file_ a strs :
  Forall (Forall (fun b => b <> 0)) strs ->
  exists bef_file',
    ReadStrings bef_file_ (mkArrayRef a (null_terminated strs)) = Ok bef_file' /\
    (forall (k : nat) str,
       strs !! k = Some str ->
       GetString bef_file' (string_offset strs k) = Some (string_of_bytes str)) /\
    (forall offset,
       (forall k : nat, (k < length strs)%nat -> offset <> string_offset strs k) ->
       GetString bef_file' offset = GetString bef_file_ offset).
Proof.
  intros Hstrs. unfold ReadStrings, ReadNullTerminatedStrings. simpl.
  rewrite ReadNullTerminatedStrings_loop_run by done.
  rewrite apply_strings_strings. eexists. split; [done|].
  unfold GetString, ref_size. simpl. rewrite Z.sub_diag. split.
  - intros k str Hk.
    by rewrite <- (apply_strings_at strs 0 (strings bef_file_) k str Hk).
  - intros offset Hoffset. apply apply_strings_elsewhere.
    intros k Hk. rewrite Z.add_0_l. by apply Hoffset.
Qed.

End string_sections.

Lemma ReadLocationFilenames_reads_the_strings_witness :
  BEFToMLIRConverter.ReadLocationFilenames
    (new_BEFFile UnknownLoc) (mkArrayRef 0 (null_terminated [[97; 98]; []; [99]]))
  = Ok (with_location_filenames (new_BEFFile UnknownLoc)
          ([] ++ (string_of_bytes <$> [[97; 98]; []; [99]]))).
Proof.
  apply (ReadLocationFilenames_reads_the_strings
           (new_BEFFile UnknownLoc) 0 [[97; 98]; []; [99]]).
  repeat constructor; done.
Defined.

Lemma ReadStrings_keys_are_the_string_starts_witness :
  exists bef_file',
    BEFToMLIRConverter.ReadStrings
      (new_BEFFile UnknownLoc) (mkArrayRef 0 (null_terminated [[]; [102]; [107]]))
    = Ok bef_file' /\
    GetString bef_file' 3 = Some "k" /\ GetString bef_file' 2 = None.
Proof.
  destruct (ReadStrings_keys_are_the_string_starts
              (new_BEFFile UnknownLoc) 0 [[]; [102]; [107]])
    as (bef_file' & Hread & Hat & Helsewhere).
  - repeat constructor; done.
  - exists bef_file'. split; [exact Hread|]. split.
    + exact (Hat 2%nat [107] eq_refl).
    + rewrite Helsewhere; [reflexivity|].
      intros k Hk. simpl in Hk.
      destruct k as [|[|[|k]]]; [vm_compute; discriminate..|lia].
Defined.

(** ** Locations *)

Section locations.
Import BEFToMLIRConverter.

Lemma dense_insert_old {V} k (v : V) m k' x :
  m !! k' = Some x -> dense_insert k v m !! k' = Some x.
Proof.
  unfold dense_insert. intros Hold. destruct (m !! k) eqn:Hk; [done|].
  rewrite lookup_insert_ne; [done|]. intros ->. congruence.
Qed.

Lemma dense_insert_inv {V} k (v : V) m k' x :
  dense_insert k v m !! k' = Some x -> m !! k' = Some x \/ (k' = k /\ x = v).
Proof.
  unfold dense_insert. destruct (m !! k) eqn:Hk; [by left|].
  destruct (decide (k' = k)) as [->|Hne].
  - rewrite lookup_insert_eq. intros [= <-]. by right.
  - rewrite lookup_insert_ne by done. by left.
Qed.

Lemma ReadLocationPositions_loop_Ok fuel original_size r bef_file_ bef_file' :
  ReadLocationPositions_loop fuel original_size r bef_file_ = Ok bef_file' ->
  bef_file'
  = with_location_positions bef_file_ (location_positions bef_file') /\
  (forall offset loc,
     location_positions bef_file_ !! offset = Some loc ->
     location_positions bef_file' !! offset = Some loc) /\
  (forall offset loc,
     location_positions bef_file' !! offset = Some loc ->
     location_positions bef_file_ !! offset = Some loc \/
     exists filename line column,
       loc = FileLineColLoc filename line column /\
       filename ∈ location_filenames bef_file_ /\
       0 <= line < 2 ^ 32 /\ 0 <= column < 2 ^ 32).
Proof.
  revert r bef_file_.
  induction fuel as [|fuel IH]; intros r bef_file_; simpl.
  - destruct (BEFReader.Empty r); [|done]. intros [= <-].
    split; [by destruct bef_file_|]. split; [done|]. intros ? ? ?. by left.
  - destruct (BEFReader.Empty r).
    { intros [= <-]. split; [by destruct bef_file_|]. split; [done|].
      intros ? ? ?. by left. }
    destruct (BEFReader.ReadInt r) as [[index|] r1]; [|done].
    destruct (BEFReader.ReadInt r1) as [[line|] r2]; [|done].
    destruct (BEFReader.ReadInt r2) as [[column|] r3]; [|done].
    destruct (GetLocationFilename bef_file_ index) as [filename|] eqn:Hname;
      [|done].
    intros Hloop. apply IH in Hloop as (Hsame & Hkept & Hnew).
    simpl in *. split; [|split].
    + rewrite Hsame at 1. by destruct bef_file_.
    + intros offset loc Hloc. by apply Hkept, dense_insert_old.
    + intros offset loc Hloc. apply Hnew in Hloc as [Hloc|Hloc]; [|by right].
      apply dense_insert_inv in Hloc as [Hloc|[_ ->]]; [by left|].
      right. exists filename, (line mod 2 ^ 32), (column mod 2 ^ 32).
      split; [done|]. split.
      * apply vector_get_lookup in Hname as [_ Hname].
        by eapply list_elem_of_lookup_2.
      * split; apply Z.mod_pos_bound; lia.
Qed.

(** X7: reading the LocationPositions section changes nothing in the file
    but its positions; the positions that the file had are kept, and a
    position that is added is a file, line and column location whose file
    is one of the filenames of the LocationFilenames section and whose line
    and column are 32 bit numbers. *)
Theorem ReadLocationPositions_names_known_files bef_file_ section_data bef_file' :
  ReadLocationPositions bef_file_ section_data = Ok bef_file' ->
  bef_file'
  = with_location_positions bef_file_ (location_positions bef_file') /\
  (forall offset loc,
     location_positions bef_file_ !! offset = Some loc ->
     location_positions bef_file' !! offset = Some loc) /\
  (forall offset loc,
     location_positions bef_file' !! offset = Some loc ->
     location_positions bef_file_ !! offset = Some loc \/
     exists filename line column,
       loc = FileLineColLoc filename line column /\
       filename ∈ location_filenames bef_file_ /\
       0 <= line < 2 ^ 32 /\ 0 <= column < 2 ^ 32).
Proof. apply ReadLocationPositions_loop_Ok. Qed.

End locations.

Lemma ReadLocationPositions_names_known_files_witness :
  exists bef_file',
    BEFToMLIRConverter.ReadLocationPositions
      (with_location_filenames (new_BEFFile UnknownLoc) ["a"; "b"])
      (mkArrayRef 0 [1; 3; 4])
    = Ok bef_file' /\
    location_positions bef_file' !! 0 = Some (FileLineColLoc "b" 3 4) /\
    forall offset loc,
      location_positions bef_file' !! offset = Some loc ->
      exists filename line column,
        loc = FileLineColLoc filename line column /\ filename ∈ ["a"; "b"].
Proof.
  eexists. split; [reflexivity|]. split; [reflexivity|].
  intros offset loc Hloc.
  destruct (ReadLocationPositions_names_known_files
              (with_location_filenames (new_BEFFile UnknownLoc) ["a"; "b"])
              (mkArrayRef 0 [1; 3; 4]) _ eq_refl) as (_ & _ & Hnew).
  destruct (Hnew offset loc Hloc) as [Hold|(f & l & c & -> & Hf & _)].
  - simpl in Hold. rewrite lookup_empty in Hold. discriminate Hold.
  - exists f, l, c. split; [reflexivity|exact Hf].
Defined.

(** ** Attributes *)

Section attribute_values.
Import BEFAttributeReader.

Lemma lor_byte b v : is_byte b -> 0 <= v -> Z.lor b (Z.shiftl v 8) = b + 256 * v.
Proof.
  intros [Hlo Hhi] Hv. rewrite Z.lor_comm, Z.shiftl_mul_pow2 by lia.
  rewrite <- Z.lxor_lor, <- Z.add_nocarry_lxor.
  - change (2 ^ 8) with 256. lia.
  - apply Z.bits_inj'. intros n Hn. rewrite Z.land_spec, Z.bits_0.
    destruct (decide (n < 8)).
    + rewrite Z.mul_pow2_bits_low by lia. done.
    + replace (Z.testbit b n) with false; [apply andb_false_r|].
      symmetry. destruct (decide (b = 0)) as [->|]; [apply Z.bits_0|].
      apply Z.bits_above_log2; [lia|].
      apply Z.log2_lt_pow2; [lia|]. eapply Z.lt_le_trans; [exact Hhi|].
      change 256 with (2 ^ 8). apply Z.pow_le_mono_r; lia.
  - apply Z.bits_inj'. intros n Hn. rewrite Z.land_spec, Z.bits_0.
    destruct (decide (n < 8)).
    + rewrite Z.mul_pow2_bits_low by lia. done.
    + replace (Z.testbit b n) with false; [apply andb_false_r|].
      symmetry. destruct (decide (b = 0)) as [->|]; [apply Z.bits_0|].
      apply Z.bits_above_log2; [lia|].
      apply Z.log2_lt_pow2; [lia|]. eapply Z.lt_le_trans; [exact Hhi|].
      change 256 with (2 ^ 8). apply Z.pow_le_mono_r; lia.
Qed.

Lemma little_endian_nonneg bytes : Forall is_byte bytes -> 0 <= little_endian bytes.
Proof. induction 1 as [|b bytes [? ?] _ IH]; simpl; lia. Qed.

Lemma ReadBytesLE_run n r :
  (n <= length (elems r))%nat ->
  Forall is_byte (take n (elems r)) ->
  BEFReader.ReadBytesLE n r
  = (Some (little_endian (take n (elems r))),
     mkArrayRef (data r + Z.of_nat n) (drop n (elems r))).
Proof.
  revert r. induction n as [|n IH]; intros [a bytes]; simpl.
  - intros _ _. rewrite Z.add_0_r, drop_0. done.
  - destruct bytes as [|b bytes]; simpl; [lia|]. intros Hlen Hbytes.
    apply Forall_cons in Hbytes as [Hb Hbytes].
    unfold BEFReader.ReadByte. simpl.
    assert (n <= length bytes)%nat as Hn by lia.
    rewrite (IH (mkArrayRef (a + 1) bytes) Hn Hbytes). simpl.
    rewrite lor_byte by (done || by apply little_endian_nonneg).
    do 2 f_equal. lia.
Qed.

Lemma ReadBytesLE_short n r :
  (length (elems r) < n)%nat -> (BEFReader.ReadBytesLE n r).1 = None.
Proof.
  revert r. induction n as [|n IH]; intros [a bytes]; simpl; [lia|].
  destruct bytes as [|b bytes]; simpl; [done|]. intros Hlen.
  unfold BEFReader.ReadByte. simpl.
  specialize (IH (mkArrayRef (a + 1) bytes)). simpl in IH.
  destruct (BEFReader.ReadBytesLE n _) as [[v|] r1]; [|done].
  ospecialize (IH _); [lia|]. done.
Qed.

(** X8: an integer attribute of 1, 32 or 64 bits is read from 1, 4 or 8
    bytes, the least significant byte first, and cut to its width, so that
    of a 1 bit integer only the low bit of its byte is kept; the reader
    moves past these bytes and nothing is reported. When fewer bytes remain
    there is no value, and nothing is reported either. Any other width is
    reported as an error, there is no value and no byte is taken. *)
Theorem ReadIntegerAttribute_is_little_endian bef_file_ reader d :
  (forall bit_width (num_bytes : nat),
     (bit_width, num_bytes) ∈ [(1, 1%nat); (32, 4%nat); (64, 8%nat)] ->
     ((num_bytes <= length (elems reader))%nat ->
      Forall is_byte (take num_bytes (elems reader)) ->
      ReadIntegerAttribute bef_file_ reader bit_width d
      = (Ok (Some (little_endian (take num_bytes (elems reader))
                   mod 2 ^ bit_width),
             mkArrayRef (data reader + Z.of_nat num_bytes)
                        (drop num_bytes (elems reader))), d)) /\
     ((length (elems reader) < num_bytes)%nat ->
      exists reader',
        ReadIntegerAttribute bef_file_ reader bit_width d
        = (Ok (None, reader'), d))) /\
  (forall bit_width,
     bit_width <> 1 -> bit_width <> 32 -> bit_width <> 64 ->
     ReadIntegerAttribute bef_file_ reader bit_width d
     = (Ok (None, reader),
        d ++ [mkDiag SevError (location bef_file_)
                     "Unknown integer attribute width"])).
Proof.
  split.
  - intros bit_width num_bytes Hwidth.
    assert ((bit_width = 1 /\ num_bytes = 1%nat) \/
            (bit_width = 32 /\ num_bytes = 4%nat) \/
            (bit_width = 64 /\ num_bytes = 8%nat)) as Hcases.
    { repeat (apply elem_of_cons in Hwidth as [[= -> ->]|Hwidth]; [tauto|]).
      by apply elem_of_nil in Hwidth. }
    split.
    + intros Hlen Hbytes. unfold ReadIntegerAttribute. cbv zeta.
      destruct Hcases as [[-> ->]|[[-> ->]|[-> ->]]];
        repeat (case_bool_decide; try done);
        by rewrite ReadBytesLE_run.
    + intros Hlen. unfold ReadIntegerAttribute. cbv zeta.
      pose proof (ReadBytesLE_short num_bytes reader Hlen) as Hshort.
      destruct Hcases as [[-> ->]|[[-> ->]|[-> ->]]];
        repeat (case_bool_decide; try done);
        destruct (BEFReader.ReadBytesLE _ reader) as [[v|] reader'];
        try done; by exists reader'.
  - intros bit_width H1 H32 H64. unfold ReadIntegerAttribute.
    by rewrite !bool_decide_eq_false_2 by done.
Qed.

End attribute_values.

Lemma ReadIntegerAttribute_is_little_endian_witness :
  BEFAttributeReader.ReadIntegerAttribute
    (new_BEFFile UnknownLoc) (mkArrayRef 5 [0x78; 0x56; 0x34; 0x12; 9]) 32 []
  = (Ok (Some 0x12345678, mkArrayRef 9 [9]), []).
Proof.
  refine (proj1 (proj1 (ReadIntegerAttribute_is_little_endian
                          (new_BEFFile UnknownLoc)
                          (mkArrayRef 5 [0x78; 0x56; 0x34; 0x12; 9]) [])
                   32 4%nat _) _ _).
  - set_solver.
  - simpl. lia.
  - repeat constructor; unfold is_byte; lia.
Defined.

Section attribute_lengths.
Import BEFAttributeReader.

Lemma vbr_step_range value byte :
  0 <= value < 2 ^ 64 -> 0 <= vbr_step value byte < 2 ^ 64.
Proof.
  intros Hvalue. rewrite <- (Z.mod_small value (2 ^ 64)) by done.
  rewrite vbr_step_value. apply Z.mod_pos_bound. lia.
Qed.

Lemma ref_at_lookup attributes_ (k : nat) :
  ref_at attributes_ (Z.of_nat k)
  = match elems attributes_ !! k with Some b => Ok b | None => Abort end.
Proof.
  unfold ref_at. destruct (elems attributes_ !! k) as [b|] eqn:Hk.
  - assert (vector_get (elems attributes_) (Z.of_nat k) = Some b) as ->; [|done].
    apply vector_get_lookup. rewrite Nat2Z.id. split; [|done].
    apply lookup_lt_Some in Hk. lia.
  - assert (vector_get (elems attributes_) (Z.of_nat k) = None) as ->; [|done].
    apply vector_get_None. apply lookup_ge_None in Hk. lia.
Qed.

Lemma ReadLength_loop_result attributes_ k value :
  0 <= value < 2 ^ 64 ->
  match ReadLength_loop attributes_ k value with
  | Ok v =>
      (k < length (elems attributes_))%nat /\ 0 <= v < 2 ^ 64 /\
      Exists (fun b => Z.land b 0x80 = 0) (take (S k) (elems attributes_))
  | Failure => False
  | Abort =>
      (length (elems attributes_) <= k)%nat \/
      Forall (fun b => Z.land b 0x80 <> 0) (take (S k) (elems attributes_))
  end.
Proof.
  revert value. induction k as [|k IH]; intros value Hvalue;
    rewrite ReadLength_loop_eq, ref_at_lookup;
    destruct (elems attributes_ !! _) as [b|] eqn:Hb;
    try (left; apply lookup_ge_None in Hb; lia);
    apply lookup_lt_Some in Hb as Hlt;
    rewrite (take_S_r _ _ _ Hb); case_bool_decide as Hcont.
  - right. simpl. by constructor.
  - split; [done|]. split; [by apply vbr_step_range|].
    apply Exists_app. right. constructor.
    destruct (decide (Z.land b 128 = 0)); [done|]. by destruct Hcont.
  - specialize (IH (vbr_step value b) (vbr_step_range _ _ Hvalue)).
    destruct (ReadLength_loop attributes_ k (vbr_step value b)) as [v| |];
      [|done|].
    + destruct IH as (_ & Hv & Hfinal). split; [done|]. split; [done|].
      apply Exists_app. by left.
    + right. destruct IH as [Hshort|Hall]; [lia|].
      apply Forall_app. split; [done|]. by constructor.
  - split; [done|]. split; [by apply vbr_step_range|].
    apply Exists_app. right. constructor.
    destruct (decide (Z.land b 128 = 0)); [done|]. by destruct Hcont.
Qed.

(** X9: the length before an attribute is read only inside the attributes:
    there is a length exactly when the offset of the attribute is above 0
    and not beyond the end of the section and one of the bytes before the
    attribute has its high bit clear, the length read being a 64 bit number;
    in every other case (the offset 0, an offset past the end, nothing but
    bytes with the high bit set down to the start of the section) a check
    of the reader fails, which is never reported as a decoding failure. *)
Theorem ReadLength_stays_inside_the_attributes attributes_ offset :
  match ReadLength attributes_ offset with
  | Ok v =>
      0 < offset <= ref_size attributes_ /\ 0 <= v < 2 ^ 64 /\
      Exists (fun b => Z.land b 0x80 = 0)
             (take (Z.to_nat offset) (elems attributes_))
  | Failure => False
  | Abort =>
      offset <= 0 \/ ref_size attributes_ < offset \/
      Forall (fun b => Z.land b 0x80 <> 0)
             (take (Z.to_nat offset) (elems attributes_))
  end.
Proof.
  unfold ReadLength, ref_size. destruct (Z.ltb_spec 0 offset); [|by left].
  pose proof (ReadLength_loop_result attributes_ (Z.to_nat (offset - 1)) 0)
    as Hloop.
  replace (S (Z.to_nat (offset - 1))) with (Z.to_nat offset) in Hloop by lia.
  destruct (ReadLength_loop attributes_ (Z.to_nat (offset - 1)) 0) as [v| |].
  - destruct Hloop as (Hlt & Hv & Hfinal); [lia|]. split; [lia|done].
  - apply Hloop. lia.
  - right. destruct Hloop as [Hshort|Hall]; [lia|left; lia|by right].
Qed.


End attribute_lengths.


Section attribute_table.
Import BEFToMLIRConverter.
Context `{BEFEncoding}.

Lemma ReadAttributes_loop_Ok n attributes_ r bef_file_ d succeeded bef_file' d' :
  ReadAttributes_loop n attributes_ r bef_file_ d
  = (Ok (succeeded, bef_file'), d') ->
  bef_file' = with_attributes bef_file_ (attributes bef_file') /\
  (forall offset attr,
     attributes bef_file_ !! offset = Some attr ->
     attributes bef_file' !! offset = Some attr).
Proof.
  revert r bef_file_ d. induction n as [|n IH]; intros r bef_file_ d; simpl.
  - intros [= _ <- _]. split; [by destruct bef_file_|done].
  - destruct (BEFReader.ReadInt r) as [[offset|] r1].
    2:{ intros [= _ <- _]. split; [by destruct bef_file_|done]. }
    destruct (BEFReader.ReadInt r1) as [[attribute_type|] r2].
    2:{ intros [= _ <- _]. split; [by destruct bef_file_|done]. }
    intros E. apply bind_Ok in E as (attr & d1 & _ & E).
    apply IH in E as [Hsame Hkept]. simpl in *. split.
    + rewrite Hsame at 1. by destruct bef_file_.
    + intros offset' attr' Hold. by apply Hkept, dense_insert_old.
Qed.

(** X11: reading the attributes changes nothing in the file but its
    attributes, and an offset that has an attribute keeps it: of two records
    of the AttributeTypes section for one offset, the first gives the
    attribute. This is so whether or not the section is read to its end.
    Without an AttributeTypes section nothing is read, nothing is reported,
    and the read is a success. *)
Theorem ReadAttributes_keeps_the_first_attribute
    bef_file_ attributes_ attribute_types d :
  (forall succeeded bef_file' d',
     ReadAttributes bef_file_ attributes_ attribute_types d
     = (Ok (succeeded, bef_file'), d') ->
     bef_file' = with_attributes bef_file_ (attributes bef_file') /\
     (forall offset attr,
        attributes bef_file_ !! offset = Some attr ->
        attributes bef_file' !! offset = Some attr)) /\
  (elems attribute_types = [] ->
   ReadAttributes bef_file_ attributes_ attribute_types d
   = (Ok (true, bef_file_), d)).
Proof.
  unfold ReadAttributes, ref_empty. split.
  - intros succeeded bef_file' d'. destruct (elems attribute_types).
    { intros [= _ <- _]. split; [by destruct bef_file_|done]. }
    destruct (BEFReader.ReadInt attribute_types) as [[num_attributes|] r].
    + apply ReadAttributes_loop_Ok.
    + intros [= _ <- _]. split; [by destruct bef_file_|done].
  - by intros ->.
Qed.

End attribute_table.

Lemma ReadAttributes_keeps_the_first_attribute_witness :
  exists bef_file',
    @BEFToMLIRConverter.ReadAttributes Example.encoding
      (with_types (new_BEFFile UnknownLoc) [Some (IntegerType 32)])
      (mkArrayRef 0 [1; 0; 0; 0; 2; 0; 0; 0]) (mkArrayRef 0 [2; 0; 0; 0; 1]) []
    = (Ok (true, bef_file'), []) /\
    attributes bef_file' !! 0 = Some (Some (IntegerAttr (IntegerType 32) 32 1)) /\
    types bef_file' = [Some (IntegerType 32)].
Proof.
  eexists. split; [reflexivity|]. split; [reflexivity|].
  destruct (proj1 (@ReadAttributes_keeps_the_first_attribute Example.encoding
              (with_types (new_BEFFile UnknownLoc) [Some (IntegerType 32)])
              (mkArrayRef 0 [1; 0; 0; 0; 2; 0; 0; 0])
              (mkArrayRef 0 [2; 0; 0; 0; 1]) []) _ _ _ eq_refl) as [Hsame _].
  exact (f_equal types Hsame).
Defined.

(** ** The tables of kernels, types and functions *)

Section name_tables.
Import BEFToMLIRConverter.
Context `{BEFEncoding}.

Lemma for_each_string_Ok {T} bef_file_ offsets (action : string -> T -> T) s s' :
  for_each_string bef_file_ offsets action s = Ok s' ->
  exists strs,
    Forall2 (fun offset str => GetString bef_file_ offset = Some str)
            offsets strs /\
    s' = foldl (fun s str => action str s) s strs.
Proof.
  revert s. induction offsets as [|offset offsets IH]; intros s; simpl.
  - intros [= <-]. exists []. split; [constructor|done].
  - destruct (GetString bef_file_ offset) as [str|] eqn:Hstr; [|done].
    intros Hrest. apply IH in Hrest as (strs & Hstrs & ->).
    exists (str :: strs). split; [by constructor|done].
Qed.

Lemma for_each_string_run {T} bef_file_ offsets (action : string -> T -> T) s strs :
  Forall2 (fun offset str => GetString bef_file_ offset = Some str)
          offsets strs ->
  for_each_string bef_file_ offsets action s
  = Ok (foldl (fun s str => action str s) s strs).
Proof.
  intros Hstrs. revert s.
  induction Hstrs as [|offset str offsets strs Hstr _ IH]; intros s; simpl;
    [done|].
  by rewrite Hstr, IH.
Qed.

Lemma foldl_snoc {A} (f : string -> A) (strs : list string) (v : list A) :
  foldl (fun v str => v ++ [f str]) v strs = v ++ (f <$> strs).
Proof.
  revert v. induction strs as [|str strs IH]; intros v; simpl.
  - by rewrite app_nil_r.
  - by rewrite IH, <- app_assoc.
Qed.

(** X12: the Kernels and the Types sections are arrays of offsets of
    strings. When every offset is that of a string of the file, the names of
    the kernels are these strings, in order, after the names that the file
    had, and the types are what the parser of types makes of them, a null
    type for a name that it does not parse: a type that cannot be parsed is
    not a failure, and the one section is read with success exactly when
    the other would be. Nothing else of the file changes. *)
Theorem ReadKernels_and_ReadTypes_read_the_names bef_file_ section_data :
  (forall bef_file',
     ReadKernels bef_file_ section_data = Ok bef_file' ->
     exists offsets r names,
       ReadIntArray section_data = (Some offsets, r) /\
       Forall2 (fun offset str => GetString bef_file_ offset = Some str)
               offsets names /\
       bef_file' = with_kernels bef_file_ (kernels bef_file_ ++ names)) /\
  (forall bef_file',
     ReadTypes bef_file_ section_data = Ok bef_file' ->
     exists offsets r names,
       ReadIntArray section_data = (Some offsets, r) /\
       Forall2 (fun offset str => GetString bef_file_ offset = Some str)
               offsets names /\
       bef_file'
       = with_types bef_file_ (types bef_file_ ++ (parseType <$> names))) /\
  ((exists bef_file', ReadKernels bef_file_ section_data = Ok bef_file') <->
   (exists bef_file', ReadTypes bef_file_ section_data = Ok bef_file')).
Proof.
  unfold ReadKernels, ReadTypes, ReadStringOffsetSection.
  destruct (ReadIntArray section_data) as [[offsets|] r].
  2:{ split; [done|]. split; [done|]. split; intros [? ?]; done. }
  split; [|split].
  - intros bef_file'.
    destruct (for_each_string _ _ _ _) as [kernels'| |] eqn:Hloop; [|done..].
    intros [= <-]. apply for_each_string_Ok in Hloop as (names & Hnames & ->).
    exists offsets, r, names. split; [done|]. split; [done|].
    by rewrite (foldl_snoc id), list_fmap_id.
  - intros bef_file'.
    destruct (for_each_string _ _ _ _) as [types'| |] eqn:Hloop; [|done..].
    intros [= <-]. apply for_each_string_Ok in Hloop as (names & Hnames & ->).
    exists offsets, r, names. split; [done|]. split; [done|].
    by rewrite (foldl_snoc parseType).
  - split; intros [bef_file' Hread].
    + destruct (for_each_string bef_file_ offsets (fun str v => v ++ [str])
                                (kernels bef_file_))
        as [kernels'| |] eqn:Hloop; [|done..].
      apply for_each_string_Ok in Hloop as (names & Hnames & _).
      rewrite (for_each_string_run _ _ _ _ names) by done. simpl. eauto.
    + destruct (for_each_string bef_file_ offsets
                                (fun str v => v ++ [parseType str])
                                (types bef_file_))
        as [types'| |] eqn:Hloop; [|done..].
      apply for_each_string_Ok in Hloop as (names & Hnames & _).
      rewrite (for_each_string_run _ _ _ _ names) by done. simpl. eauto.
Qed.

Lemma push_types_Ok bef_file_ indices out out' :
  push_types bef_file_ indices out = Ok out' ->
  exists new,
    out' = out ++ new /\
    Forall2 (fun index type_ => GetType bef_file_ index = Some type_) indices new.
Proof.
  revert out. induction indices as [|index indices IH]; intros out; simpl.
  - intros [= <-]. exists []. by rewrite app_nil_r.
  - destruct (GetType bef_file_ index) as [type_|] eqn:Htype; [|done].
    intros Hrest. apply IH in Hrest as (new & -> & Hnew).
    exists (type_ :: new). rewrite <- app_assoc. split; [done|]. by constructor.
Qed.

Lemma read_types_Ok bef_file_ r types_ r' :
  read_types bef_file_ r = Ok (types_, r') ->
  exists indices,
    ReadIntArray r = (Some indices, r') /\
    Forall2 (fun index type_ => GetType bef_file_ index = Some type_)
            indices types_.
Proof.
  unfold read_types. destruct (ReadIntArray r) as [[indices|] r1]; [|done].
  destruct (push_types bef_file_ indices []) as [out| |] eqn:Hpush; [|done..].
  intros [= <- <-]. apply push_types_Ok in Hpush as (new & -> & Hnew). eauto.
Qed.

Lemma GetType_type bef_file_ index type_ :
  GetType bef_file_ index = Some type_ -> Some type_ ∈ types bef_file_.
Proof.
  unfold GetType.
  destruct (vector_get (types bef_file_) (to_int index)) as [t|] eqn:Hget;
    [|done].
  intros ->. apply vector_get_lookup in Hget as [_ Hget].
  by eapply list_elem_of_lookup_2.
Qed.

Lemma ReadFunctionIndex_loop_Ok n reader bef_file_ bef_file' :
  ReadFunctionIndex_loop n reader bef_file_ = Ok bef_file' ->
  exists new,
    bef_file'
    = with_function_index bef_file_ (function_index bef_file_ ++ new) /\
    length new = n /\
    Forall (known_function bef_file_) new.
Proof.
  revert reader bef_file_. induction n as [|n IH]; intros reader bef_file_; simpl.
  - intros [= <-]. exists []. rewrite app_nil_r. split; [by destruct bef_file_|].
    split; [done|constructor].
  - destruct (BEFReader.ReadByte reader) as [[function_kind|] r1]; [|done].
    destruct (BEFReader.ReadInt r1) as [[function_offset|] r2]; [|done].
    destruct (BEFReader.ReadInt r2) as [[name_offset|] r3]; [|done].
    destruct (GetString bef_file_ name_offset) as [name_|] eqn:Hname; [|done].
    destruct (read_types bef_file_ r3) as [[arguments r4]| |] eqn:Harguments;
      [|done..].
    simpl.
    destruct (read_types bef_file_ r4) as [[results r5]| |] eqn:Hresults;
      [|done..].
    simpl. intros Hloop. apply IH in Hloop as (new & -> & Hlen & Hnew).
    apply read_types_Ok in Harguments as (? & _ & Harguments).
    apply read_types_Ok in Hresults as (? & _ & Hresults).
    eexists (_ :: new). simpl. rewrite <- app_assoc. split; [done|].
    split; [by rewrite Hlen|]. constructor.
    + split; [by exists name_offset|]. simpl. apply Forall_app. split.
      * apply Forall_forall. intros type_ Htype.
        apply list_elem_of_lookup_1 in Htype as [k Hk].
        destruct (Forall2_lookup_r _ _ _ _ _ Harguments Hk) as (? & _ & Hget).
        by eapply GetType_type.
      * apply Forall_forall. intros type_ Htype.
        apply list_elem_of_lookup_1 in Htype as [k Hk].
        destruct (Forall2_lookup_r _ _ _ _ _ Hresults Hk) as (? & _ & Hget).
        by eapply GetType_type.
    + eapply Forall_impl; [exact Hnew|]. intros f [[offset Hoffset] Htypes].
      split; [by exists offset|exact Htypes].
Qed.

(** X13: the FunctionIndex section adds to the function index as many
    functions as the count at its head says, in order, and changes nothing
    else in the file. The name of each of them is a string of the file, and
    each of its argument and result types is a type of the file that is not
    null. A name offset that is not that of a string is not reported as a
    failure of the section: it is a failed check of the reader. *)
Theorem ReadFunctionIndex_adds_known_functions bef_file_ section_data :
  (forall bef_file',
     ReadFunctionIndex bef_file_ section_data = Ok bef_file' ->
     exists function_count reader new,
       BEFReader.ReadInt section_data = (Some function_count, reader) /\
       bef_file'
       = with_function_index bef_file_ (function_index bef_file_ ++ new) /\
       Z.of_nat (length new) = function_count /\
       Forall (known_function bef_file_) new) /\
  (forall function_count r0 function_kind r1 function_offset r2 name_offset r3,
     BEFReader.ReadInt section_data = (Some function_count, r0) ->
     0 < function_count ->
     BEFReader.ReadByte r0 = (Some function_kind, r1) ->
     BEFReader.ReadInt r1 = (Some function_offset, r2) ->
     BEFReader.ReadInt r2 = (Some name_offset, r3) ->
     GetString bef_file_ name_offset = None ->
     ReadFunctionIndex bef_file_ section_data = Abort).
Proof.
  unfold ReadFunctionIndex. split.
  - intros bef_file'.
    destruct (BEFReader.ReadInt section_data) as [[function_count|] reader]
      eqn:Hcount; [|done].
    intros Hloop. apply ReadFunctionIndex_loop_Ok in Hloop as (new & -> & Hlen & Hnew).
    apply ReadInt_range in Hcount.
    exists function_count, reader, new. split; [done|]. split; [done|].
    split; [lia|done].
  - intros function_count r0 function_kind r1 function_offset r2 name_offset r3
      -> Hcount Hkind Hoffset Hname Hstring.
    destruct (Z.to_nat function_count) as [|n] eqn:Hn; [lia|]. simpl.
    by rewrite Hkind, Hoffset, Hname, Hstring.
Qed.

End name_tables.

Lemma ReadKernels_and_ReadTypes_read_the_names_witness :
  exists offsets r names,
    ReadIntArray (mkArrayRef 0 [2; 1; 0]) = (Some offsets, r) /\
    Forall2 (fun offset str => GetString Example.tables offset = Some str)
            offsets names /\
    with_kernels Example.tables ["k"; "f"; ""]
    = with_kernels Example.tables (kernels Example.tables ++ names).
Proof.
  apply (proj1 (@ReadKernels_and_ReadTypes_read_the_names Example.encoding
                  Example.tables (mkArrayRef 0 [2; 1; 0]))
               (with_kernels Example.tables ["k"; "f"; ""])).
  reflexivity.
Defined.

Lemma ReadFunctionIndex_adds_known_functions_witness :
  exists function_count reader new,
    BEFReader.ReadInt (mkArrayRef 0 [1; 0; 0; 1; 1; 0; 0])
    = (Some function_count, reader) /\
    with_function_index Example.tables
      (function_index Example.tables
       ++ [mkBEFFunction 0 "f" 0 [IntegerType 32] []])
    = with_function_index Example.tables (function_index Example.tables ++ new) /\
    Z.of_nat (length new) = function_count /\
    Forall (known_function Example.tables) new.
Proof.
  apply (proj1 (ReadFunctionIndex_adds_known_functions
                  Example.tables (mkArrayRef 0 [1; 0; 0; 1; 1; 0; 0]))
               (with_function_index Example.tables
                  (function_index Example.tables
                   ++ [mkBEFFunction 0 "f" 0 [IntegerType 32] []]))).
  reflexivity.
Defined.

(** ** The tables of a function *)

Section function_tables.
Import BEFFunctionReader.

(** X14: the register table of a function has one register for every use
    count of the function, with that count, and none of them has a value:
    the registers get their values from the kernels. Register types that are
    there must be as many as the use counts: when they are not, the function
    is not reported as malformed, a check of the reader fails. *)
Theorem ReadRegisterTable_makes_a_register_per_use_count
    bef_file_ function_reader_ register_types :
  (forall regs function_reader' register_types',
     ReadRegisterTable bef_file_ function_reader_ register_types
     = Ok (regs, function_reader', register_types') ->
     exists reg_uses,
       ReadIntArray function_reader_ = (Some reg_uses, function_reader') /\
       num_uses <$> regs = reg_uses /\
       Forall (fun reg_info => value reg_info = None) regs) /\
  (forall indices r reg_uses r',
     ReadIntArray register_types = (Some indices, r) ->
     ReadIntArray function_reader_ = (Some reg_uses, r') ->
     indices <> [] -> length indices <> length reg_uses ->
     ReadRegisterTable bef_file_ function_reader_ register_types = Abort).
Proof.
  unfold ReadRegisterTable. split.
  - intros regs function_reader' register_types'.
    destruct (ReadIntArray register_types) as [[indices|] r];
      destruct (ReadIntArray function_reader_) as [[reg_uses|] r1]; try done.
    + destruct (_ || _); [|done].
      destruct (push_registers bef_file_ 0 indices reg_uses) as [regs1| |]
        eqn:Hpush; [|done..].
      intros [= <- <- <-]. exists reg_uses. split; [done|]. split.
      * by eapply push_registers_uses.
      * by eapply push_registers_undefined.
    + simpl.
      destruct (push_registers bef_file_ 0 [] reg_uses) as [regs1| |]
        eqn:Hpush; [|done..].
      intros [= <- <- <-]. exists reg_uses. split; [done|]. split.
      * by eapply push_registers_uses.
      * by eapply push_registers_undefined.
  - intros indices r reg_uses r' -> -> Hsome Hlength.
    by rewrite !bool_decide_eq_false_2 by done.
Qed.

End function_tables.

Lemma ReadRegisterTable_makes_a_register_per_use_count_witness :
  BEFFunctionReader.ReadRegisterTable
    Example.tables (mkArrayRef 0 [2; 1; 1]) (mkArrayRef 0 [1; 0])
  = Abort.
Proof.
  apply (proj2 (ReadRegisterTable_makes_a_register_per_use_count
                  Example.tables (mkArrayRef 0 [2; 1; 1]) (mkArrayRef 0 [1; 0]))
               [0] (mkArrayRef 2 []) [1; 1] (mkArrayRef 3 []));
    [reflexivity|reflexivity|discriminate|simpl; lia].
Defined.

(** ** The regions of the functions and the top level functions *)

Section top_level.
Import BEFToMLIRConverter BEFFunctionReader.
Context `{BEFEncoding}.

Lemma ReadFunctions_loop_regions functions_ function_index_ bef_file_ names
    register_types function_context d function_context' d' :
  ReadFunctions_loop functions_ function_index_ bef_file_ names register_types
                     function_context d = (Ok function_context', d') ->
  exists new,
    regions function_context' = regions function_context ++ new /\
    length new = length function_index_ /\
    forall (k : nat) bef_function,
      function_index_ !! k = Some bef_function ->
      exists loc_and_region,
        new !! k = Some loc_and_region /\
        region_of bef_function (length (regions function_context) + k)
                  loc_and_region.
Proof.
  revert names register_types function_context d.
  induction function_index_ as [|f fs IH];
    intros names register_types function_context d; simpl.
  - intros [= <- _]. exists []. by rewrite app_nil_r.
  - destruct (IsNativeFunction f) eqn:Hnative.
    + intros E. apply IH in E as (new & Hregions & Hlen & Hnew). simpl in *.
      exists ((UnknownLoc, None) :: new). rewrite Hregions, <- app_assoc.
      split; [done|]. split; [simpl; lia|].
      intros [|k] bef_function; simpl.
      * intros [= <-]. eexists. split; [done|].
        unfold region_of. by rewrite Hnative.
      * intros Hk. apply Hnew in Hk as (lr & Hlr & Hregion).
        exists lr. split; [done|]. rewrite length_app in Hregion. simpl in Hregion.
        by replace (length (regions function_context) + S k)%nat
          with (length (regions function_context) + 1 + k)%nat by lia.
    + intros E. apply bind_lift_Ok in E as (function & _ & E).
      apply bind_Ok in E
        as ([[[[loc region] names1] rt1] refs1] & d1 & Hfunction & E).
      apply IH in E as (new & Hregions & Hlen & Hnew). simpl in *.
      exists ((loc, Some region) :: new). rewrite Hregions, <- app_assoc.
      split; [done|]. split; [simpl; lia|].
      intros [|k] bef_function; simpl.
      * intros [= <-]. eexists. split; [done|].
        unfold region_of. rewrite Hnative. exists loc, region.
        split; [done|].
        apply ReadFunction_return_op in Hfunction as Hreturn.
        destruct Hreturn as (return_op & Hlast & _ & _ & Harguments).
        split; [|split; [done|by rewrite Hlast]].
        unfold ReadFunction in Hfunction.
        destruct (BEFReader.ReadInt function) as [[?|] ?]; [|done].
        destruct (GetLocationPosition _ _); [|done].
        apply bind_Ok in Hfunction as ([[? ?] ?] & ? & _ & Hfunction).
        apply bind_Ok in Hfunction as ([? ?] & ? & _ & Hfunction).
        apply bind_Ok in Hfunction as ([? ?] & ? & _ & Hfunction).
        apply bind_Ok in Hfunction as ([[? ?] ?] & ? & _ & Hfunction).
        injection Hfunction as _ <- _ _ _ _. simpl. lia.
      * intros Hk. apply Hnew in Hk as (lr & Hlr & Hregion).
        exists lr. split; [done|]. rewrite length_app in Hregion. simpl in Hregion.
        by replace (length (regions function_context) + S k)%nat
          with (length (regions function_context) + 1 + k)%nat by lia.
Qed.

Lemma resolve_top_level_checks function_index_ i regions_ functions_ :
  (forall (k : nat) bef_function,
     function_index_ !! k = Some bef_function ->
     exists loc_and_region,
       regions_ !! (i + k)%nat = Some loc_and_region /\
       region_of bef_function (i + k) loc_and_region) ->
  exists regions' functions',
    resolve_top_level function_index_ i regions_ functions_
    = Ok (regions', functions').
Proof.
  revert i regions_ functions_.
  induction function_index_ as [|f fs IH]; intros i regions_ functions_ Hregions;
    simpl; [eauto|].
  destruct (Hregions 0%nat f eq_refl) as ([loc region] & Hi & Hregion).
  rewrite Nat.add_0_r in Hi.
  assert (forall regions1 : list (Location * option Region),
            (forall k : nat, (i < k)%nat -> regions1 !! k = regions_ !! k) ->
            forall (k : nat) bef_function,
              fs !! k = Some bef_function ->
              exists loc_and_region,
                regions1 !! (S i + k)%nat = Some loc_and_region /\
                region_of bef_function (S i + k) loc_and_region) as Hrest.
  { intros regions1 Hsame k bef_function Hk.
    destruct (Hregions (S k) bef_function Hk) as (lr & Hlr & Hshape).
    exists lr. rewrite Hsame by lia.
    by replace (S i + k)%nat with (i + S k)%nat by lia. }
  destruct (IsNamedFunction f); [|by apply IH, Hrest].
  rewrite Hi. unfold region_of in Hregion.
  destruct (IsNativeFunction f) eqn:Hnative.
  - injection Hregion as -> ->. unfold CreateNativeFuncOp.
    unfold IsNativeFunction in Hnative. rewrite Hnative. simpl.
    by apply IH, Hrest.
  - destruct Hregion as (loc' & region' & [= -> ->] & _ & _ & Hlast).
    unfold CreateBEFFuncOp. destruct (last (region_ops region')); [|done].
    simpl. apply IH, Hrest. intros k Hk. apply list_lookup_insert_ne. lia.
Qed.

(** X15: when the functions are read, the context holds one region slot for
    every function of the index, in order: an empty slot for a native
    function, and for any other function a region with the argument types
    of the function as its block arguments and a last operation. So the
    checks that the resolution of the top level functions makes on these
    slots hold (a slot for every function, empty for a native function and
    for no other): that pass goes through. *)
Theorem ReadFunctions_fills_a_slot_per_function
    bef_file_ functions_ attribute_names register_types d function_context d' :
  ReadFunctions bef_file_ functions_ attribute_names register_types
                (mkContext [] []) d = (Ok function_context, d') ->
  length (regions function_context) = length (function_index bef_file_) /\
  (forall (k : nat) bef_function,
     function_index bef_file_ !! k = Some bef_function ->
     exists loc_and_region,
       regions function_context !! k = Some loc_and_region /\
       region_of bef_function k loc_and_region) /\
  (forall functions0,
     exists regions' functions',
       resolve_top_level (function_index bef_file_) 0
                         (regions function_context) functions0
       = Ok (regions', functions')).
Proof.
  unfold ReadFunctions. intros E.
  apply ReadFunctions_loop_regions in E as (new & Hregions & Hlen & Hnew).
  simpl in *. rewrite Hregions.
  split; [done|]. split; [done|].
  intros functions0. by apply resolve_top_level_checks.
Qed.

Lemma resolve_top_level_functions function_index_ i regions_ functions_
    regions' functions' :
  resolve_top_level function_index_ i regions_ functions_
  = Ok (regions', functions') ->
  exists new,
    functions' = functions_ ++ new /\
    Forall2 func_op_of
            (filter (fun f => IsNamedFunction f = true) function_index_) new.
Proof.
  revert i regions_ functions_.
  induction function_index_ as [|f fs IH]; intros i regions_ functions_; simpl.
  - intros [= _ <-]. exists []. rewrite app_nil_r. split; [done|constructor].
  - rewrite filter_cons. destruct (IsNamedFunction f) eqn:Hnamed.
    2:{ rewrite decide_False by done. apply IH. }
    rewrite decide_True by done.
    destruct (regions_ !! i) as [[loc region]|]; [|done].
    destruct (IsNativeFunction f) eqn:Hnative.
    + destruct region; [done|]. unfold CreateNativeFuncOp.
      unfold IsNativeFunction in Hnative. rewrite Hnative. simpl.
      intros E. apply IH in E as (new & -> & Hnew).
      eexists (_ :: new). rewrite <- app_assoc. split; [done|].
      constructor; [|done]. unfold func_op_of, IsNativeFunction.
      by rewrite Hnative.
    + destruct region as [region|]; [|done]. unfold CreateBEFFuncOp.
      destruct (last (region_ops region)); [|done]. simpl.
      intros E. apply IH in E as (new & -> & Hnew).
      eexists (_ :: new). rewrite <- app_assoc. split; [done|].
      constructor; [|done]. unfold func_op_of. by rewrite Hnative.
Qed.

(** X16: the resolution adds to the module one top level function for
    every named function of the index, in the order of the index and after
    the functions that the module had, and none for a function without a
    name. Each has the name and the argument types of its function; that of
    a native function has no body, the declared result types and the
    attribute hex.native, that of any other function has a body and no
    attribute. *)
Theorem ResolveFunctions_adds_the_named_functions
    bef_file_ function_context module d function_context' module' d' :
  ResolveFunctions bef_file_ function_context module d
  = (Ok (function_context', module'), d') ->
  module_loc module' = module_loc module /\
  exists new,
    module_functions module' = module_functions module ++ new /\
    Forall2 func_op_of
            (filter (fun f => IsNamedFunction f = true)
                    (function_index bef_file_)) new.
Proof.
  unfold ResolveFunctions. intros E.
  apply bind_lift_Ok in E as ([regions1 functions1] & Htop & E).
  apply bind_lift_Ok in E as ([regions2 slots] & _ & E).
  destruct (all_resolved regions2); [|done].
  injection E as _ <- _. simpl. split; [done|].
  by eapply resolve_top_level_functions.
Qed.

End top_level.

Lemma ReadFunctions_fills_a_slot_per_function_witness :
  (BEFToMLIRConverter.ReadFunctions (H := Example.encoding) Example.tables
     Example.two_attributes_function empty_ref empty_ref (mkContext [] []) []).1
  ≫= (fun function_context => Ok (length (regions function_context)))
  = Ok (length (function_index Example.tables)).
Proof.
  destruct (BEFToMLIRConverter.ReadFunctions (H := Example.encoding)
              Example.tables Example.two_attributes_function empty_ref empty_ref
              (mkContext [] []) [])
    as [[function_context| |] d'] eqn:E; [|vm_compute in E; discriminate E..].
  simpl.
  by rewrite (proj1 (ReadFunctions_fills_a_slot_per_function
                       (H := Example.encoding) _ _ _ _ _ _ _ E)).
Defined.

Lemma ResolveFunctions_adds_the_named_functions_witness :
  (BEFToMLIRConverter.ResolveFunctions Example.tables Example.nesting_context
     (mkModuleOp Example.origin [] ∅) []).1
  ≫= (fun r => Ok (module_loc r.2)) = Ok Example.origin.
Proof.
  destruct (BEFToMLIRConverter.ResolveFunctions Example.tables
              Example.nesting_context (mkModuleOp Example.origin [] ∅) [])
    as [[[function_context' module']| |] d'] eqn:E;
    [|vm_compute in E; discriminate E..].
  simpl.
  by rewrite (proj1 (ResolveFunctions_adds_the_named_functions _ _ _ _ _ _ _ E)).
Defined.

(** ** The diagnostics of a conversion *)

Section reporting.
Context {A B : Type}.

Lemma reports_ret Q (a : A) : reports Q (mret a).
Proof. intros d d' E. discriminate E. Qed.

Lemma reports_lift_res Q (r : Res A) : r <> Failure -> reports Q (lift_res r).
Proof. intros Hr d d'. unfold lift_res. by intros [= ? _]. Qed.

Lemma reports_abort Q : reports Q (@abort_ A).
Proof. intros d d' E. discriminate E. Qed.

Lemma reports_bind Q (m : M A) (k : A -> M B) :
  reports Q m -> (forall a, reports Q (k a)) -> reports Q (m ≫= k).
Proof.
  intros Hm Hk d d'. unfold mbind, M_bind, Mbind_.
  destruct (m d) as [[a| |] d1] eqn:E; [apply Hk| |done].
  intros [= <-]. by eapply Hm.
Qed.

Lemma reports_or_error_at Q loc (m : M A) message :
  Q (mkDiag SevError loc message) -> reports Q (or_error_at loc m message).
Proof.
  intros HQ d d'. unfold or_error_at, emit_error_at.
  destruct (m d) as [[a| |] d1]; [done| |done].
  intros [= <-]. eauto.
Qed.

Lemma reports_emit_error_at Q loc message :
  Q (mkDiag SevError loc message) -> reports Q (@emit_error_at A loc message).
Proof. intros HQ d d'. unfold emit_error_at. intros [= <-]. eauto. Qed.

Lemma reports_weaken (Q Q' : Diagnostic -> Prop) (m : M A) :
  (forall diag, Q diag -> Q' diag) -> reports Q m -> reports Q' m.
Proof.
  intros HQ Hm d d' E. destruct (Hm d d' E) as (d0 & diag & -> & Hdiag). eauto.
Qed.

Lemma logs_ret P (a : A) : logs P (mret a).
Proof. intros d a' d' [= _ <-]. exists []. by rewrite app_nil_r. Qed.

Lemma logs_lift_res P (r : Res A) : logs P (lift_res r).
Proof. intros d a d' [= _ <-]. exists []. by rewrite app_nil_r. Qed.

Lemma logs_abort P : logs P (@abort_ A).
Proof. intros d a d' E. discriminate E. Qed.

Lemma logs_quiet P (m : M A) : quiet m -> logs P m.
Proof.
  intros Hm d a d' E. apply Hm in E as ->. exists []. by rewrite app_nil_r.
Qed.

Lemma logs_or_error_at P loc (m : M A) message :
  logs P m -> logs P (or_error_at loc m message).
Proof. intros Hm d a d' E. apply or_error_at_Ok in E. by eapply Hm. Qed.

Lemma logs_bind P (R : A -> Prop) (m : M A) (k : A -> M B) :
  logs P m -> returns R m -> (forall a, R a -> logs P (k a)) -> logs P (m ≫= k).
Proof.
  intros Hm HR Hk d b d' E. apply bind_Ok in E as (a & d1 & Ha & Hb).
  destruct (Hm _ _ _ Ha) as (ds1 & -> & Hds1).
  destruct (Hk a (HR _ _ _ Ha) _ _ _ Hb) as (ds2 & -> & Hds2).
  exists (ds1 ++ ds2). rewrite app_assoc. split; [done|]. by apply Forall_app.
Qed.

Lemma logs_bind_any P (m : M A) (k : A -> M B) :
  logs P m -> (forall a, logs P (k a)) -> logs P (m ≫= k).
Proof.
  intros Hm Hk. apply (logs_bind P (fun _ => True)); [done| |by intros].
  by intros ? ? ? ?.
Qed.

End reporting.

Lemma reports_EmitError Q loc message : reports Q (EmitError loc message).
Proof. intros d d' E. discriminate E. Qed.

Lemma reports_EmitWarning Q loc message : reports Q (EmitWarning loc message).
Proof. intros d d' E. discriminate E. Qed.

Lemma logs_EmitError (P : Diagnostic -> Prop) loc message :
  P (mkDiag SevError loc message) -> logs P (EmitError loc message).
Proof. intros HP d a d' [= <-]. eexists. split; [done|]. by constructor. Qed.

Lemma logs_EmitWarning (P : Diagnostic -> Prop) loc message :
  P (mkDiag SevWarning loc message) -> logs P (EmitWarning loc message).
Proof. intros HP d a d' [= <-]. eexists. split; [done|]. by constructor. Qed.

Ltac log_step :=
  first
    [ simple apply reports_ret | simple apply logs_ret
    | simple apply reports_abort | simple apply logs_abort
    | simple apply logs_lift_res
    | simple apply reports_EmitError | simple apply reports_EmitWarning
    | simple apply reports_bind; [|intros ?]
    | simple apply logs_bind_any; [|intros ?]
    | match goal with
      | |- reports _ (match ?x with _ => _ end) => destruct x
      | |- reports _ (let (_, _) := ?x in _) => destruct x
      | |- reports _ (if ?x then _ else _) => destruct x
      | |- logs _ (match ?x with _ => _ end) => destruct x
      | |- logs _ (let (_, _) := ?x in _) => destruct x
      | |- logs _ (if ?x then _ else _) => destruct x
      end ].

Section attribute_reader_log.
Import BEFAttributeReader.
Context `{BEFEncoding}.
Variable attributes_ : ArrayRef.
Variable bef_file_ : BEFFile.

Lemma ReadLength_unfailing offset : ReadLength attributes_ offset <> Failure.
Proof.
  unfold ReadLength. destruct (0 <? offset); [|done].
  pose proof (ReadLength_loop_result attributes_ (Z.to_nat (offset - 1)) 0) as Hloop.
  intros Hfailure. rewrite Hfailure in Hloop. apply Hloop. lia.
Qed.

Lemma offset_of_unfailing reader : offset_of attributes_ reader <> Failure.
Proof. unfold offset_of. by destruct (_ <? _). Qed.

Lemma ref_at_unfailing a i : ref_at a i <> Failure.
Proof. unfold ref_at. by destruct (vector_get _ _). Qed.

Lemma DecodeTypeAttribute_unfailing b : DecodeTypeAttribute b <> Failure.
Proof.
  unfold DecodeTypeAttribute. by destruct (AttributeKind_of_byte b) as [[]|].
Qed.

Lemma read_descriptors_unfailing n bytes : read_descriptors n bytes <> Failure.
Proof.
  revert bytes. induction n as [|n IH]; intros bytes; simpl; [done|].
  destruct bytes as [|? [|? [|? [|? rest]]]]; try done.
  specialize (IH rest). by destruct (read_descriptors n rest).
Qed.

Lemma drop_front_unfailing a n : drop_front a n <> Failure.
Proof. unfold drop_front. by destruct (_ && _). Qed.

Lemma ReadIntegerAttribute_log reader bit_width :
  reports (fun _ => False) (ReadIntegerAttribute bef_file_ reader bit_width) /\
  logs (attribute_error (location bef_file_)) (ReadIntegerAttribute bef_file_ reader bit_width).
Proof.
  unfold ReadIntegerAttribute. cbv zeta. split.
  - repeat log_step.
  - repeat log_step. apply logs_EmitError.
    split; [done|]. split; [done|]. unfold attribute_errors. set_solver.
Qed.

Lemma ReadFloatAttribute_log reader bit_width :
  reports (fun _ => False) (ReadFloatAttribute bef_file_ reader bit_width) /\
  logs (attribute_error (location bef_file_)) (ReadFloatAttribute bef_file_ reader bit_width).
Proof.
  unfold ReadFloatAttribute. destruct (bool_decide _).
  - apply ReadIntegerAttribute_log.
  - split; repeat log_step. apply logs_EmitError.
    split; [done|]. split; [done|]. unfold attribute_errors. set_solver.
Qed.

Lemma ReadStandardAttribute_log reader type_ :
  reports (fun _ => False) (ReadStandardAttribute bef_file_ reader type_) /\
  logs (attribute_error (location bef_file_)) (ReadStandardAttribute bef_file_ reader type_).
Proof.
  unfold ReadStandardAttribute.
  destruct type_ as [[]|]; split; repeat log_step;
    try apply ReadIntegerAttribute_log; try apply ReadFloatAttribute_log;
    apply logs_EmitError; (split; [done|]); (split; [done|]);
    unfold attribute_errors; set_solver.
Qed.

Lemma read_elements_log n read reader :
  (forall reader,
     reports (fun _ => False) (read reader) /\ logs (attribute_error (location bef_file_)) (read reader)) ->
  reports (fun _ => False) (read_elements n read reader) /\
  logs (attribute_error (location bef_file_)) (read_elements n read reader).
Proof.
  intros Hread. revert reader. induction n as [|n IH]; intros reader; simpl.
  - split; repeat log_step.
  - split; repeat log_step; try apply Hread; apply IH.
Qed.

Lemma ReadAttribute_rec_log depth reader attribute_type :
  reports (fun _ => False)
          (ReadAttribute_rec attributes_ bef_file_ depth reader attribute_type) /\
  logs (attribute_error (location bef_file_))
       (ReadAttribute_rec attributes_ bef_file_ depth reader attribute_type).
Proof.
  revert reader attribute_type.
  induction depth as [|depth IH]; intros reader attribute_type;
    cbn [ReadAttribute_rec]; cbv zeta.
  all: repeat (case_bool_decide; [try apply ReadStandardAttribute_log|]).
  all: try (split; unfold ReadBoolAttribute, ReadStringAttribute,
              ReadTypeAttribute, ReadDenseElementsAttribute,
              ReadOffsetArrayAttribute;
            repeat (log_step
                    || (simple apply reports_lift_res;
                        first [ apply ReadLength_unfailing
                              | apply offset_of_unfailing
                              | apply ref_at_unfailing
                              | apply DecodeTypeAttribute_unfailing
                              | apply read_descriptors_unfailing ])
                    || (apply read_elements_log; intros ?;
                        first [ apply ReadStandardAttribute_log | apply IH ])
                    || case_bool_decide);
            try (apply logs_EmitError; (split; [done|]); (split; [done|]);
                 unfold attribute_errors; set_solver)).
Qed.

Lemma ReadAttribute_log attribute_type offset :
  reports (fun _ => False)
          (ReadAttribute attributes_ bef_file_ attribute_type offset) /\
  logs (attribute_error (location bef_file_))
       (ReadAttribute attributes_ bef_file_ attribute_type offset).
Proof.
  unfold ReadAttribute, ReadAttribute_reader. split.
  - apply reports_bind;
      [apply reports_lift_res, drop_front_unfailing|intros reader].
    apply reports_bind; [apply ReadAttribute_rec_log|intros [attr r]].
    apply reports_ret.
  - apply logs_bind_any; [apply logs_lift_res|intros reader].
    apply logs_bind_any; [apply ReadAttribute_rec_log|intros [attr r]].
    apply logs_ret.
Qed.

End attribute_reader_log.

Section conversion_log.
Import BEFToMLIRConverter.
Context `{BEFEncoding}.

Lemma logs_weaken {A} (P P' : Diagnostic -> Prop) (m : M A) :
  (forall diag, P diag -> P' diag) -> logs P m -> logs P' m.
Proof.
  intros HP Hm d a d' E. destruct (Hm d a d' E) as (ds & -> & Hds).
  exists ds. split; [done|]. by eapply Forall_impl.
Qed.

Lemma returns_or_error_lift {A} (R : A -> Prop) loc (r : Res A) message :
  (forall a, r = Ok a -> R a) ->
  returns R (or_error_at loc (lift_res r) message).
Proof.
  intros HR d a d' E. apply or_error_at_Ok, lift_res_Ok in E as [-> _]. by apply HR.
Qed.

Lemma Get_unfailing s section_id : BEFSections.Get s section_id <> Failure.
Proof. unfold BEFSections.Get. by destruct (vector_get _ _). Qed.

Lemma ReadAttributes_loop_log n attributes_ r bef_file_ :
  reports (fun _ => False) (ReadAttributes_loop n attributes_ r bef_file_) /\
  logs (attribute_error (location bef_file_))
       (ReadAttributes_loop n attributes_ r bef_file_).
Proof.
  revert r bef_file_. induction n as [|n IH]; intros r bef_file_; simpl.
  - split; log_step.
  - destruct (BEFReader.ReadInt r) as [[offset|] r1]; [|split; log_step].
    destruct (BEFReader.ReadInt r1) as [[attribute_type|] r2];
      [|split; log_step].
    split.
    + apply reports_bind; [apply ReadAttribute_log|intros attr]. apply IH.
    + apply logs_bind_any; [apply ReadAttribute_log|intros attr].
      apply (IH r2 (with_attributes bef_file_ _)).
Qed.

Lemma ReadAttributes_log bef_file_ attributes_ attribute_types :
  reports (fun _ => False)
          (ReadAttributes bef_file_ attributes_ attribute_types) /\
  logs (attribute_error (location bef_file_))
       (ReadAttributes bef_file_ attributes_ attribute_types).
Proof.
  unfold ReadAttributes. destruct (ref_empty attribute_types); [split; log_step|].
  destruct (BEFReader.ReadInt attribute_types) as [[n|] r]; [|split; log_step].
  apply ReadAttributes_loop_log.
Qed.

Lemma ReadNullTerminatedStrings_loop_keeps {T} (I : T -> Prop) fuel original_size
    section_data (action : Z -> string -> T -> T) s s' :
  (forall offset str s, I s -> I (action offset str s)) -> I s ->
  ReadNullTerminatedStrings_loop fuel original_size section_data action s = Ok s' ->
  I s'.
Proof.
  intros Haction. revert section_data s.
  induction fuel as [|fuel IH]; intros section_data s Hs.
  - destruct section_data; [|done]. by intros [= <-].
  - destruct section_data as [|b data]; [by intros [= <-]|].
    rewrite ReadNullTerminatedStrings_loop_step by done.
    destruct (_ <=? _)%nat; [done|]. apply IH. by apply Haction.
Qed.

Lemma ReadFunctions_loop_quiet functions_ function_index_ bef_file_ names
    register_types function_context :
  quiet (ReadFunctions_loop functions_ function_index_ bef_file_ names
                            register_types function_context).
Proof.
  revert names register_types function_context.
  induction function_index_ as [|f fs IH];
    intros names register_types function_context; simpl.
  - apply quiet_ret.
  - destruct (IsNativeFunction f); [apply IH|].
    apply quiet_bind; [apply quiet_lift_res|intros function].
    apply quiet_bind; [apply ReadFunction_quiet|].
    intros [[[[loc region] names1] rt1] refs1]. apply IH.
Qed.

Lemma ResolveFunctions_quiet bef_file_ function_context module :
  quiet (ResolveFunctions bef_file_ function_context module).
Proof.
  unfold ResolveFunctions.
  apply quiet_bind; [apply quiet_lift_res|intros [regions1 functions1]].
  apply quiet_bind; [apply quiet_lift_res|intros [regions2 slots]].
  destruct (all_resolved regions2); [apply quiet_ret|apply quiet_emit_error_at].
Qed.

Lemma ReadSections_logs bef_file_ r s :
  logs (module_diagnostic (location bef_file_)) (ReadSections bef_file_ r s).
Proof.
  unfold ReadSections.
  apply logs_bind_any; [apply logs_lift_res|intros [r1 s1]].
  repeat (apply logs_bind_any; [apply logs_lift_res|intros ?]).
  apply logs_bind_any; [|intros ?; apply logs_ret].
  destruct (_ || _); [|apply logs_ret].
  apply logs_EmitWarning. split; [done|]. left. split; [done|]. set_solver.
Qed.


(** X18: the diagnostics that come with a module are all at the location
    of the conversion, and each is one of the two warnings of the conversion
    (sections that are missing, an AttributeTypes section that cannot be
    read to its end) or an error of the reader of attributes: an attribute
    of a type or width that the reader does not know is reported as an
    error, and the module is made all the same. *)
Theorem a_module_comes_with_warnings_and_attribute_errors loc file module d :
  ConvertBEFToMLIR loc file = (Ok module, d) ->
  Forall (module_diagnostic loc) d.
Proof.
  unfold ConvertBEFToMLIR. intros E.
  cut (logs (module_diagnostic loc) (ConvertBEFToMLIR_log loc file)).
  { intros Hlogs. by destruct (Hlogs _ _ _ E) as (ds & -> & Hds). }
  unfold ConvertBEFToMLIR_log. cbv zeta.
  apply logs_bind_any; [apply logs_or_error_at, logs_lift_res|intros r].
  apply logs_bind_any;
    [apply logs_or_error_at, (ReadSections_logs (new_BEFFile loc))
    |intros [r' sections]].
  apply logs_bind_any; [apply logs_lift_res|intros section0].
  apply logs_bind_any; [apply logs_or_error_at, logs_lift_res|intros []].
  apply logs_bind_any; [apply logs_lift_res|intros section1].
  apply (logs_bind _ (fun f => location f = loc));
    [apply logs_or_error_at, logs_lift_res| |intros f1 Hf1].
  { apply returns_or_error_lift. intros f1.
    apply (ReadNullTerminatedStrings_loop_keeps (fun f => location f = loc));
      done. }
  apply logs_bind_any; [apply logs_lift_res|intros section2].
  apply (logs_bind _ (fun f => location f = loc));
    [apply logs_or_error_at, logs_lift_res| |intros f2 Hf2].
  { apply returns_or_error_lift. intros f2 Hread.
    apply ReadLocationPositions_loop_Ok in Hread as [-> _]. done. }
  apply logs_bind_any; [apply logs_lift_res|intros section3].
  apply (logs_bind _ (fun f => location f = loc));
    [apply logs_or_error_at, logs_lift_res| |intros f3 Hf3].
  { apply returns_or_error_lift. intros f3.
    apply (ReadNullTerminatedStrings_loop_keeps (fun f => location f = loc));
      done. }
  apply logs_bind_any; [apply logs_lift_res|intros section4].
  apply (logs_bind _ (fun f => location f = loc));
    [apply logs_or_error_at, logs_lift_res| |intros f4 Hf4].
  { apply returns_or_error_lift. intros f4. unfold ReadTypes.
    destruct (ReadStringOffsetSection _ _ _ _); [|done..]. by intros [= <-]. }
  apply logs_bind_any; [apply logs_lift_res|intros attributes_].
  apply logs_bind_any; [apply logs_lift_res|intros attribute_types].
  apply logs_bind_any.
  { eapply logs_weaken; [|apply ReadAttributes_log].
    intros diag (Hloc & Hseverity & Hmessage). split; [congruence|]. by right. }
  intros [succeeded f5].
  apply logs_bind_any.
  { destruct succeeded; [apply logs_ret|]. apply logs_EmitWarning.
    split; [done|]. left. split; [done|]. set_solver. }
  intros [].
  apply logs_bind_any; [apply logs_lift_res|intros section5].
  apply logs_bind_any; [apply logs_or_error_at, logs_lift_res|intros f6].
  apply logs_bind_any; [apply logs_lift_res|intros section6].
  apply logs_bind_any; [apply logs_or_error_at, logs_lift_res|intros f7].
  apply logs_bind_any; [apply logs_lift_res|intros functions_].
  apply logs_bind_any; [apply logs_lift_res|intros attribute_names].
  apply logs_bind_any; [apply logs_lift_res|intros register_types].
  apply logs_bind_any;
    [apply logs_or_error_at, logs_quiet, ReadFunctions_loop_quiet
    |intros function_context].
  apply logs_bind_any;
    [apply logs_or_error_at, logs_quiet, ResolveFunctions_quiet|intros [? ?]].
  apply logs_ret.
Qed.

End conversion_log.


Lemma a_module_comes_with_warnings_and_attribute_errors_witness :
  Forall (module_diagnostic Example.origin)
         [mkDiag SevError Example.origin "Unknown attribute type"].
Proof.
  eapply (a_module_comes_with_warnings_and_attribute_errors
            (H := Example.encoding) Example.origin
            Example.unknown_attribute_type_file).
  vm_compute. reflexivity.
Defined.

(** ** The registers of a function *)

Section registers.
Import BEFFunctionReader.
Context `{BEFEncoding}.
Variable bef_file_ : BEFFile.

Lemma keeps_values_refl regs : keeps_values regs regs.
Proof. split; [done|]. intros k reg Hk. exists reg. by repeat split. Qed.

Lemma keeps_values_trans regs1 regs2 regs3 :
  keeps_values regs1 regs2 -> keeps_values regs2 regs3 ->
  keeps_values regs1 regs3.
Proof.
  intros [Hlen1 H1] [Hlen2 H2]. split; [congruence|].
  intros k reg Hk. destruct (H1 k reg Hk) as (reg2 & Hk2 & Ht2 & Hu2 & Hv2).
  destruct (H2 k reg2 Hk2) as (reg3 & Hk3 & Ht3 & Hu3 & Hv3).
  exists reg3. split; [done|]. split; [congruence|]. split; [congruence|].
  intros v Hv. by apply Hv3, Hv2.
Qed.

Lemma GetRegister_lookup regs i reg :
  GetRegister regs i = Ok reg <->
  0 <= i < Z.of_nat (length regs) /\ regs !! Z.to_nat i = Some reg.
Proof.
  unfold GetRegister. rewrite <- vector_get_lookup.
  destruct (vector_get regs i); split; (congruence || by intros [= ->]).
Qed.

Lemma keeps_values_insert regs (i : nat) reg reg' :
  regs !! i = Some reg ->
  type reg' = type reg -> num_uses reg' = num_uses reg ->
  (forall v, value reg = Some v -> value reg' = Some v) ->
  keeps_values regs (<[i := reg']> regs).
Proof.
  intros Hi Htype Huses Hvalue. split; [apply length_insert|].
  intros k reg0 Hk. destruct (decide (k = i)) as [->|Hne].
  - exists reg'. rewrite list_lookup_insert_eq by (by eapply lookup_lt_Some).
    assert (reg0 = reg) as -> by congruence. repeat split; done.
  - exists reg0. rewrite list_lookup_insert_ne by done. repeat split; done.
Qed.

Lemma AddDefinition_Ok regs v register_index d regs' d' :
  AddDefinition bef_file_ regs v register_index d = (Ok regs', d') ->
  keeps_values regs regs' /\ holds_value regs' register_index v /\
  exists reg,
    GetRegister regs (to_int register_index) = Ok reg /\ value reg = None.
Proof.
  unfold AddDefinition. intros E. apply bind_lift_Ok in E as (reg & Hreg & E).
  destruct (value reg) eqn:Hvalue; [done|].
  destruct (_ || _); [|done]. injection E as <- <-.
  apply GetRegister_lookup in Hreg as Hlookup. destruct Hlookup as [Hrange Hlookup].
  split; [|split; [|by exists reg]].
  - eapply keeps_values_insert; [done..|]. simpl. congruence.
  - exists (mkRegisterInfo (type reg) (num_uses reg) (usedbys reg) (Some v)).
    split; [|done]. apply GetRegister_lookup.
    rewrite length_insert. split; [done|].
    apply list_lookup_insert_eq. by eapply lookup_lt_Some.
Qed.

Lemma set_usedbys_Ok regs register_index e regs' :
  set_usedbys regs register_index e = Ok regs' -> keeps_values regs regs'.
Proof.
  unfold set_usedbys.
  destruct (GetRegister regs register_index) as [reg| |] eqn:Hreg; [|done..].
  intros [= <-]. apply GetRegister_lookup in Hreg as [_ Hreg].
  by eapply keeps_values_insert.
Qed.

Lemma holds_value_keeps regs regs' register_index v :
  keeps_values regs regs' -> holds_value regs register_index v ->
  holds_value regs' register_index v.
Proof.
  intros [Hlen Hkeeps] (reg & Hreg & Hvalue).
  apply GetRegister_lookup in Hreg as [Hrange Hreg].
  destruct (Hkeeps _ _ Hreg) as (reg' & Hreg' & _ & _ & Hvalues).
  exists reg'. split; [|by apply Hvalues].
  apply GetRegister_lookup. rewrite Hlen. done.
Qed.

Lemma add_definitions_Ok n kernel results op i entry_offset regs d regs' d' :
  0 <= i ->
  add_definitions bef_file_ n kernel results op i entry_offset regs d
  = (Ok regs', d') ->
  keeps_values regs regs' /\
  forall j : nat,
    (j < n)%nat ->
    exists register_index v,
      BEFKernel.entry kernel results (i + Z.of_nat j) = Ok register_index /\
      getResult op (Z.to_nat i + j) = Ok v /\
      holds_value regs' register_index v.
Proof.
  revert i entry_offset regs d.
  induction n as [|n IH]; intros i entry_offset regs d Hi; simpl.
  - intros [= <- _]. split; [apply keeps_values_refl|]. intros j Hj. lia.
  - intros E. apply bind_lift_Ok in E as (register_index & Hindex & E).
    apply bind_lift_Ok in E as (v & Hv & E).
    apply bind_Ok in E as (regs1 & d1 & Hadd & E).
    apply bind_lift_Ok in E as (num_used_bys & _ & E).
    apply bind_lift_Ok in E as (e & _ & E).
    apply bind_lift_Ok in E as (regs2 & Hset & E).
    apply AddDefinition_Ok in Hadd as (Hkeeps1 & Hholds & _).
    apply set_usedbys_Ok in Hset.
    apply IH in E as [Hkeeps3 Hrest]; [|lia].
    pose proof (keeps_values_trans _ _ _ Hkeeps1 Hset) as Hkeeps2.
    split; [by eapply keeps_values_trans|].
    intros [|j] Hj.
    + exists register_index, v. rewrite Z.add_0_r, Nat.add_0_r.
      split; [done|]. split; [done|].
      eapply holds_value_keeps; [exact Hkeeps3|].
      eapply holds_value_keeps; [exact Hset|exact Hholds].
    + destruct (Hrest j) as (ri & v' & Hri & Hv' & Hholds'); [lia|].
      exists ri, v'.
      replace (i + Z.of_nat (S j)) with (i + 1 + Z.of_nat j) by lia.
      replace (Z.to_nat i + S j)%nat with (Z.to_nat (i + 1) + j)%nat by lia.
      done.
Qed.

Lemma define_arguments_Ok kernel results i entry_arguments regs d regs' d' :
  define_arguments bef_file_ kernel results i entry_arguments regs d
  = (Ok regs', d') ->
  keeps_values regs regs' /\
  forall (j : nat) arg,
    entry_arguments !! j = Some arg ->
    exists register_index,
      BEFKernel.entry kernel results (i + Z.of_nat j) = Ok register_index /\
      holds_value regs' register_index arg.
Proof.
  revert i regs d.
  induction entry_arguments as [|arg0 args IH]; intros i regs d; simpl.
  - intros [= <- _]. split; [apply keeps_values_refl|done].
  - intros E. apply bind_lift_Ok in E as (register_index & Hindex & E).
    apply bind_Ok in E as (regs1 & d1 & Hadd & E).
    apply AddDefinition_Ok in Hadd as (Hkeeps1 & Hholds & _).
    apply IH in E as [Hkeeps2 Hrest].
    split; [by eapply keeps_values_trans|].
    intros [|j] arg; simpl.
    + intros [= <-]. exists register_index. rewrite Z.add_0_r.
      split; [done|]. eapply holds_value_keeps; [exact Hkeeps2|exact Hholds].
    + intros Hj. destruct (Hrest j arg Hj) as (ri & Hri & Hholds').
      exists ri. by replace (i + Z.of_nat (S j)) with (i + 1 + Z.of_nat j) by lia.
Qed.

Lemma read_usedbys_Ok n kernel results i entry_offset regs regs' :
  read_usedbys n kernel results i entry_offset regs = Ok regs' ->
  keeps_values regs regs'.
Proof.
  revert i entry_offset regs.
  induction n as [|n IH]; intros i entry_offset regs; simpl.
  - intros [= <-]. apply keeps_values_refl.
  - destruct (BEFKernel.entry kernel results i) as [ri| |]; [|done..]. simpl.
    destruct (BEFKernel.num_used_bys kernel i) as [nu| |]; [|done..]. simpl.
    destruct (BEFKernel.GetKernelEntries kernel entry_offset nu) as [e| |];
      [|done..]. simpl.
    destruct (set_usedbys regs (to_int ri) e) as [regs1| |] eqn:Hset; [|done..].
    simpl. intros E. apply IH in E. apply set_usedbys_Ok in Hset.
    by eapply keeps_values_trans.
Qed.

Lemma ReadKernel_Ok kernels_ offset_ op_id regs names refs d
    op regs' names' refs' d' :
  ReadKernel bef_file_ kernels_ offset_ op_id regs names refs d
  = (Ok (op, regs', names', refs'), d') ->
  keeps_values regs regs' /\
  op_ptr op = op_id /\
  exists first_result,
    forall j : nat,
      (j < length (op_types op))%nat ->
      exists register_index v,
        BEFKernel.word (BEFKernel.mk kernels_ (offset_ / kKernelEntryAlignment))
                       (first_result + Z.of_nat j) = Ok register_index /\
        getResult op j = Ok v /\
        holds_value regs' register_index v.
Proof.
  unfold ReadKernel. case_match; [done|]. intros E.
  apply bind_lift_Ok in E as (kernel_code & _ & E).
  apply bind_lift_Ok in E as (name_ & _ & E).
  apply bind_lift_Ok in E as (kernel_location & _ & E).
  apply bind_lift_Ok in E as (location_ & _ & E).
  apply bind_lift_Ok in E as (num_arguments & _ & E).
  apply bind_lift_Ok in E as (arguments & _ & E).
  apply bind_Ok in E as (operands & d1 & _ & E).
  destruct (match BEFReader.ReadByte names with
            | (Some b, r) => _ | (None, r) => _ end) as [attrs names1].
  apply bind_lift_Ok in E as (num_attributes & _ & E).
  apply bind_lift_Ok in E as (attributes_ & _ & E).
  apply bind_lift_Ok in E as ([attrs1 names2] & _ & E).
  apply bind_lift_Ok in E as (num_functions & _ & E).
  apply bind_lift_Ok in E as (functions & _ & E).
  apply bind_Ok in E as ([[attrs2 regions] indices] & d2 & _ & E).
  apply bind_lift_Ok in E as (num_results & _ & E).
  apply bind_lift_Ok in E as (results & Hresults & E).
  apply bind_lift_Ok in E as (types_ & Htypes & E).
  apply bind_Ok in E as (regs1 & d3 & Hadd & E).
  apply add_definitions_Ok in Hadd as [Hkeeps Hbinds]; [|lia].
  assert (op = mkOperation op_id name_ location_ operands types_ attrs2 regions
          /\ regs' = regs1) as [-> ->].
  { repeat case_match; try done; by injection E as <- <- _ _ _. }
  split; [done|]. split; [done|].
  exists (BEFKernel.first results). simpl. intros j Hj.
  assert (length types_ = Z.to_nat (BEFKernel.size results)) as Hlen.
  { assert (forall n i types0 types1,
              resolve_results n
                (BEFKernel.mk kernels_ (offset_ / kKernelEntryAlignment))
                results i regs types0 = Ok types1 ->
              length types1 = (length types0 + n)%nat) as Hgen.
    { induction n as [|n IH]; intros i types0 types1; simpl.
      - intros [= <-]. lia.
      - destruct (BEFKernel.entry _ _ _); [|done..]. simpl.
        destruct (GetRegister _ _); [|done..]. simpl.
        intros Hrest. apply IH in Hrest. rewrite length_app in Hrest.
        simpl in Hrest. lia. }
    apply Hgen in Htypes. simpl in Htypes. lia. }
  destruct (Hbinds j) as (ri & v & Hri & Hv & Hholds); [lia|].
  exists ri, v. split; [|done].
  unfold BEFKernel.entry in Hri. rewrite Z.add_0_l in Hri.
  by destruct (_ && _).
Qed.

Lemma ReadArgumentsPseudoKernel_keeps kernels_ entry_arguments regs d regs' d' :
  ReadArgumentsPseudoKernel bef_file_ kernels_ entry_arguments regs d
  = (Ok regs', d') ->
  keeps_values regs regs'.
Proof.
  unfold ReadArgumentsPseudoKernel. intros E.
  apply bind_lift_Ok in E as (num_arguments & _ & E).
  apply bind_lift_Ok in E as (num_attributes & _ & E).
  apply bind_lift_Ok in E as (num_functions & _ & E).
  apply bind_lift_Ok in E as (num_results & _ & E).
  destruct (negb _); [done|].
  apply bind_lift_Ok in E as (results & Hresults & E).
  apply bind_Ok in E as (regs1 & d1 & Hdefine & E).
  apply lift_res_Ok in E as [Husedbys _].
  apply define_arguments_Ok in Hdefine as [Hkeeps1 _].
  apply read_usedbys_Ok in Husedbys. by eapply keeps_values_trans.
Qed.

Lemma ReadArgumentsPseudoKernel_Ok kernels_ entry_arguments regs d regs' d' :
  Z.of_nat (length entry_arguments) < 2 ^ 31 ->
  ReadArgumentsPseudoKernel bef_file_ kernels_ entry_arguments regs d
  = (Ok regs', d') ->
  keeps_values regs regs' /\
  exists first_result,
    forall (j : nat) arg,
      entry_arguments !! j = Some arg ->
      exists register_index,
        BEFKernel.word (BEFKernel.mk kernels_ 0) (first_result + Z.of_nat j)
        = Ok register_index /\
        holds_value regs' register_index arg.
Proof.
  unfold ReadArgumentsPseudoKernel. intros Hint E.
  apply bind_lift_Ok in E as (num_arguments & _ & E).
  apply bind_lift_Ok in E as (num_attributes & _ & E).
  apply bind_lift_Ok in E as (num_functions & _ & E).
  apply bind_lift_Ok in E as (num_results & _ & E).
  destruct (negb _) eqn:Hcheck; [done|].
  apply bind_lift_Ok in E as (results & Hresults & E).
  apply bind_Ok in E as (regs1 & d1 & Hdefine & E).
  apply lift_res_Ok in E as [Husedbys _].
  apply define_arguments_Ok in Hdefine as [Hkeeps1 Hbinds].
  apply read_usedbys_Ok in Husedbys.
  split; [by eapply keeps_values_trans|].
  exists (BEFKernel.first results). intros j arg Hj.
  assert (Z.to_nat (BEFKernel.size results) = length entry_arguments) as Hsize.
  { apply negb_false_iff in Hcheck.
    apply andb_prop in Hcheck as [_ Hcheck]. apply bool_decide_eq_true in Hcheck.
    unfold BEFKernel.GetKernelEntries in Hresults.
    destruct (BEFKernel.num_results _); [|done..]. simpl in Hresults.
    injection Hresults as <-. simpl.
    unfold to_int. rewrite Hcheck. rewrite Z.mod_small by lia.
    destruct (Z.ltb_spec (Z.of_nat (length entry_arguments)) (2 ^ 31)); [|lia].
    destruct (Z.ltb_spec (Z.of_nat (length entry_arguments)) 0); lia. }
  rewrite Hsize, firstn_all in Hbinds.
  destruct (Hbinds j arg Hj) as (ri & Hri & Hholds).
  exists ri. split; [|eapply holds_value_keeps; [exact Husedbys|exact Hholds]].
  unfold BEFKernel.entry in Hri. rewrite Z.add_0_l in Hri. clear Hcheck.
  by destruct (_ && _).
Qed.

Lemma ReadKernels_loop_keeps fn entries kernels_ ops regs names refs d
    ops' regs' names' refs' d' :
  ReadKernels_loop bef_file_ fn entries kernels_ ops regs names refs d
  = (Ok (ops', regs', names', refs'), d') ->
  keeps_values regs regs'.
Proof.
  revert ops regs names refs d.
  induction entries as [|e entries IH]; intros ops regs names refs d; simpl.
  - intros [= _ <- _ _ _]. apply keeps_values_refl.
  - intros E. apply bind_Ok in E as ([[[op regs1] names1] refs1] & d1 & Hop & E).
    apply ReadKernel_Ok in Hop as [Hkeeps _]. apply IH in E.
    by eapply keeps_values_trans.
Qed.

(** X19: a register is assigned once. Reading a kernel, the arguments
    pseudo kernel or all the kernels of a function leaves as many registers
    as there were, with their types and their declared numbers of uses, and
    a register that had a value has the same value afterwards: no kernel
    that is read changes the value of a register, and a kernel that would
    is not read. *)
Theorem registers_are_assigned_once :
  (forall kernels_ offset_ op_id regs names refs d op regs' names' refs' d',
     ReadKernel bef_file_ kernels_ offset_ op_id regs names refs d
     = (Ok (op, regs', names', refs'), d') ->
     keeps_values regs regs') /\
  (forall kernels_ entry_arguments regs d regs' d',
     ReadArgumentsPseudoKernel bef_file_ kernels_ entry_arguments regs d
     = (Ok regs', d') ->
     keeps_values regs regs') /\
  (forall fn entries kernels_ ops regs names refs d ops' regs' names' refs' d',
     ReadKernels_loop bef_file_ fn entries kernels_ ops regs names refs d
     = (Ok (ops', regs', names', refs'), d') ->
     keeps_values regs regs').
Proof.
  split; [|split].
  - intros * E. by apply ReadKernel_Ok in E as [? _].
  - intros *. apply ReadArgumentsPseudoKernel_keeps.
  - intros *. apply ReadKernels_loop_keeps.
Qed.

Lemma holds_value_same regs ri ri' v v' :
  to_int ri = to_int ri' ->
  holds_value regs ri v -> holds_value regs ri' v' -> v = v'.
Proof. intros Hsame (reg & Hreg & Hv) (reg' & Hreg' & Hv'). congruence. Qed.

(** X20: the values that a kernel defines are in the registers that the
    kernel names for them. After a kernel is read, result [j] of its
    operation is the value of the register whose index is entry [j] of the
    results of the kernel, and no two results are in one register. After
    the arguments pseudo kernel is read, argument [j] of the block is the
    value of the register whose index is entry [j] of its results. *)
Theorem results_and_arguments_define_their_registers :
  (forall kernels_ offset_ op_id regs names refs d op regs' names' refs' d',
     ReadKernel bef_file_ kernels_ offset_ op_id regs names refs d
     = (Ok (op, regs', names', refs'), d') ->
     let kernel := BEFKernel.mk kernels_ (offset_ / kKernelEntryAlignment) in
     exists first_result,
       (forall j : nat,
          (j < length (op_types op))%nat ->
          exists register_index v,
            BEFKernel.word kernel (first_result + Z.of_nat j)
            = Ok register_index /\
            getResult op j = Ok v /\
            holds_value regs' register_index v) /\
       (forall (j j' : nat) register_index register_index',
          (j < length (op_types op))%nat -> (j' < length (op_types op))%nat ->
          BEFKernel.word kernel (first_result + Z.of_nat j)
          = Ok register_index ->
          BEFKernel.word kernel (first_result + Z.of_nat j')
          = Ok register_index' ->
          to_int register_index = to_int register_index' -> j = j')) /\
  (forall kernels_ entry_arguments regs d regs' d',
     Z.of_nat (length entry_arguments) < 2 ^ 31 ->
     ReadArgumentsPseudoKernel bef_file_ kernels_ entry_arguments regs d
     = (Ok regs', d') ->
     exists first_result,
       forall (j : nat) arg,
         entry_arguments !! j = Some arg ->
         exists register_index,
           BEFKernel.word (BEFKernel.mk kernels_ 0) (first_result + Z.of_nat j)
           = Ok register_index /\
           holds_value regs' register_index arg).
Proof.
  split.
  - intros * E kernel. apply ReadKernel_Ok in E as (_ & _ & first_result & Hbinds).
    exists first_result. split; [done|].
    intros j j' ri ri' Hj Hj' Hri Hri' Hsame.
    destruct (Hbinds j Hj) as (ri0 & v & Hri0 & Hv & Hholds).
    destruct (Hbinds j' Hj') as (ri0' & v' & Hri0' & Hv' & Hholds').
    fold kernel in Hri0, Hri0'.
    assert (ri0 = ri) as -> by congruence.
    assert (ri0' = ri') as -> by congruence.
    pose proof (holds_value_same _ _ _ _ _ Hsame Hholds Hholds') as Heq.
    unfold getResult in Hv, Hv'.
    destruct (op_types op !! j); [|done]. destruct (op_types op !! j'); [|done].
    congruence.
  - intros * Hint E.
    by apply ReadArgumentsPseudoKernel_Ok in E as [_ ?].
Qed.

End registers.

Lemma registers_are_assigned_once_witness :
  exists op regs' names' refs',
    BEFFunctionReader.ReadKernel Example.tables Example.unary_kernel 0
      (0%nat, 0%nat)
      [Example.register 1 (Some Example.argument); Example.register 0 None]
      empty_ref [] []
    = (Ok (op, regs', names', refs'), []) /\
    keeps_values
      [Example.register 1 (Some Example.argument); Example.register 0 None]
      regs'.
Proof.
  do 4 eexists. split; [vm_compute; reflexivity|].
  eapply (proj1 (registers_are_assigned_once Example.tables)
            Example.unary_kernel 0 (0%nat, 0%nat)
            [Example.register 1 (Some Example.argument);
             Example.register 0 None] empty_ref [] []).
  vm_compute. reflexivity.
Defined.

Lemma results_and_arguments_define_their_registers_witness :
  exists regs' first_result,
    BEFFunctionReader.ReadArgumentsPseudoKernel Example.tables
      Example.pseudo_kernel [Example.argument] [Example.register 1 None] []
    = (Ok regs', []) /\
    forall (j : nat) arg,
      [Example.argument] !! j = Some arg ->
      exists register_index,
        BEFKernel.word (BEFKernel.mk Example.pseudo_kernel 0)
                       (first_result + Z.of_nat j) = Ok register_index /\
        holds_value regs' register_index arg.
Proof.
  destruct (proj2 (results_and_arguments_define_their_registers Example.tables)
              Example.pseudo_kernel [Example.argument]
              [Example.register 1 None] []
              [BEFFunctionReader.mkRegisterInfo (IntegerType 32) 1
                 (BEFKernel.mkEntries 8 1) (Some Example.argument)] [])
    as [first_result Hbinds].
  - simpl. lia.
  - vm_compute. reflexivity.
  - eexists _, first_result. split; [vm_compute; reflexivity|exact Hbinds].
Defined.

(** ** The operations of a region and the references to regions *)

Section layout.
Import BEFToMLIRConverter BEFFunctionReader.
Context `{BEFEncoding}.
Variable bef_file_ : BEFFile.

Lemma resolve_functions_Ok n kernel functions i attrs regions_ indices d
    attrs' regions' indices' d' :
  resolve_functions bef_file_ n kernel functions i attrs regions_ indices d
  = (Ok (attrs', regions', indices'), d') ->
  exists new,
    indices' = indices ++ new /\ length new = n /\
    regions'
    = (regions_
       + length (filter (fun index => is_region bef_file_ index = true) new))%nat.
Proof.
  revert i attrs regions_ indices d.
  induction n as [|n IH]; intros i attrs regions_ indices d; simpl.
  - intros [= _ <- <- _]. exists []. rewrite app_nil_r. split; [done|].
    split; [done|]. simpl. lia.
  - intros E. apply bind_lift_Ok in E as (fn_idx & _ & E).
    destruct (GetFunction bef_file_ fn_idx) as [bef_function|] eqn:Hfunction;
      [|done].
    assert (is_region bef_file_ fn_idx = negb (IsNamedFunction bef_function))
      as Hregion by (unfold is_region; by rewrite Hfunction).
    destruct (IsNamedFunction bef_function) eqn:Hnamed;
      apply IH in E as (new & -> & Hlen & ->);
      exists (fn_idx :: new); rewrite <- app_assoc; (split; [done|]);
      (split; [simpl; lia|]); rewrite filter_cons;
      destruct (decide (is_region bef_file_ fn_idx = true)) as [Hyes|Hno];
      simpl in *; try congruence; lia.
Qed.

Lemma filter_whole {A} (P : A -> Prop) `{forall x, Decision (P x)} (l : list A) :
  length (filter P l) = length l -> Forall P l.
Proof.
  induction l as [|x l IH]; [constructor|].
  rewrite filter_cons. destruct (decide (P x)); simpl.
  - intros [= Hlen]. constructor; [done|]. by apply IH.
  - pose proof (length_filter P l). lia.
Qed.

Lemma ReadKernel_reference kernels_ offset_ op_id regs names refs d
    op regs' names' refs' d' :
  ReadKernel bef_file_ kernels_ offset_ op_id regs names refs d
  = (Ok (op, regs', names', refs'), d') ->
  op_ptr op = op_id /\
  exists new_refs,
    refs' = refs ++ new_refs /\
    Forall (fun ref => region_reference bef_file_ ref /\ ref.1 = op) new_refs.
Proof.
  unfold ReadKernel. case_match; [done|]. intros E.
  apply bind_lift_Ok in E as (kernel_code & _ & E).
  apply bind_lift_Ok in E as (name_ & _ & E).
  apply bind_lift_Ok in E as (kernel_location & _ & E).
  apply bind_lift_Ok in E as (location_ & _ & E).
  apply bind_lift_Ok in E as (num_arguments & _ & E).
  apply bind_lift_Ok in E as (arguments & _ & E).
  apply bind_Ok in E as (operands & d1 & _ & E).
  destruct (match BEFReader.ReadByte names with
            | (Some b, r) => _ | (None, r) => _ end) as [attrs names1].
  apply bind_lift_Ok in E as (num_attributes & _ & E).
  apply bind_lift_Ok in E as (attributes_ & _ & E).
  apply bind_lift_Ok in E as ([attrs1 names2] & _ & E).
  apply bind_lift_Ok in E as (num_functions & _ & E).
  apply bind_lift_Ok in E as (functions & _ & E).
  apply bind_Ok in E as ([[attrs2 regions_] indices] & d2 & Hfunctions & E).
  apply bind_lift_Ok in E as (num_results & _ & E).
  apply bind_lift_Ok in E as (results & _ & E).
  apply bind_lift_Ok in E as (types_ & _ & E).
  apply bind_Ok in E as (regs1 & d3 & _ & E).
  apply resolve_functions_Ok in Hfunctions as (new & -> & Hlen & Hregions).
  simpl in *. case_bool_decide as Hsome.
  - case_bool_decide as Hsize; [|done]. injection E as <- <- <- <- <-.
    split; [done|]. eexists [_]. split; [done|]. constructor; [|done].
    split; [|done]. unfold region_reference. simpl.
    assert (regions_ = length new) as Hall by lia.
    split; [done|]. split; [destruct new; [simpl in *; lia|done]|].
    apply (filter_whole (fun index => is_region bef_file_ index = true) new).
    lia.
  - injection E as <- <- <- <- <-. split; [done|]. exists [].
    by rewrite app_nil_r.
Qed.

Lemma ReadKernels_loop_layout fn entries kernels_ ops regs names refs d
    ops' regs' names' refs' d' :
  ReadKernels_loop bef_file_ fn entries kernels_ ops regs names refs d
  = (Ok (ops', regs', names', refs'), d') ->
  exists new new_refs,
    ops' = ops ++ new /\ length new = length entries /\
    (forall (k : nat) op,
       new !! k = Some op -> op_ptr op = (fn, (length ops + k)%nat)) /\
    refs' = refs ++ new_refs /\
    Forall (fun ref => region_reference bef_file_ ref /\ ref.1 ∈ new) new_refs.
Proof.
  revert ops regs names refs d.
  induction entries as [|e entries IH]; intros ops regs names refs d; simpl.
  - intros [= <- _ _ <- _]. exists [], []. rewrite !app_nil_r.
    repeat split; done.
  - intros E. apply bind_Ok in E as ([[[op regs1] names1] refs1] & d1 & Hop & E).
    apply ReadKernel_reference in Hop as (Hptr & refs_op & -> & Hrefs_op).
    apply IH in E as (new & new_refs & -> & Hlen & Hptrs & -> & Hnew_refs).
    exists (op :: new), (refs_op ++ new_refs).
    rewrite <- !app_assoc. split; [done|]. split; [simpl; lia|].
    split; [|split; [done|]].
    + intros [|k] op'; simpl.
      * intros [= <-]. by rewrite Nat.add_0_r.
      * intros Hk. apply Hptrs in Hk. rewrite Hk, length_app. simpl.
        f_equal. lia.
    + apply Forall_app. split.
      * eapply Forall_impl; [exact Hrefs_op|]. intros ref [Href ->].
        split; [done|]. apply list_elem_of_here.
      * eapply Forall_impl; [exact Hnew_refs|]. intros ref [Href Hin].
        split; [done|]. by apply list_elem_of_further.
Qed.

Lemma ReadFunction_layout bef_function_ fn function_reader_ names
    register_types refs d loc region names' register_types' refs' d' :
  ReadFunction bef_file_ bef_function_ fn function_reader_ names register_types
               refs d
  = (Ok (loc, region, names', register_types', refs'), d') ->
  region_fn region = fn /\
  (forall (k : nat) op, region_ops region !! k = Some op -> op_ptr op = (fn, k)) /\
  (exists r1 r2 kernel_table_,
     ReadKernelTable r1 = Ok (kernel_table_, r2) /\
     length (region_ops region)
     = S (length (drop (if argument_types bef_function_ is [] then 0 else 1)
                       kernel_table_))) /\
  exists new_refs,
    refs' = refs ++ new_refs /\
    Forall (fun ref =>
              region_reference bef_file_ ref /\ ref.1 ∈ region_ops region)
           new_refs.
Proof.
  unfold ReadFunction.
  destruct (BEFReader.ReadInt function_reader_) as [[offset_|] r0]; [|done].
  destruct (GetLocationPosition _ _) as [location_|]; [|done].
  intros E. apply bind_Ok in E as ([[regs r1] rt1] & d1 & _ & E).
  apply bind_Ok in E as ([kernel_table_ r2] & d2 & Htable & E).
  apply or_error_at_Ok, lift_res_Ok in Htable as [Htable _].
  apply bind_Ok in E as ([result_regs_ r3] & d3 & _ & E).
  apply bind_Ok in E as ([[ops names1] refs1] & d4 & Hkernels & E).
  injection E as <- <- <- <- <- <-.
  apply or_error_at_Ok in Hkernels.
  destruct (BEFReader.ReadAlignment r3 _) as [[[]|] r4]; [|done].
  unfold ReadKernels in Hkernels.
  apply bind_Ok in Hkernels as (names2 & d5 & _ & E).
  apply bind_Ok in E as ([[start regs1] names3] & d6 & Hstart & E).
  apply bind_Ok in E as ([[[ops1 regs2] names4] refs2] & d7 & Hloop & E).
  apply bind_Ok in E as (operands & d8 & _ & E).
  injection E as <- <- <- <-.
  apply ReadKernels_loop_layout in Hloop
    as (new & new_refs & Hops & Hlen & Hptrs & -> & Hnew_refs).
  simpl in Hops. subst ops1. simpl.
  split; [done|]. split; [|split].
  - intros k op Hk. apply lookup_app_Some in Hk as [Hk|[Hge Hk]].
    + by apply Hptrs.
    + apply list_lookup_singleton_Some in Hk as [Hk <-]. simpl.
      f_equal. lia.
  - exists r1, r2, kernel_table_. split; [done|].
    rewrite length_app, Hlen. simpl.
    assert (start = if argument_types bef_function_ is [] then 0%nat else 1%nat)
      as <-; [|lia].
    unfold getArguments in Hstart. simpl in Hstart.
    destruct (argument_types bef_function_); simpl in Hstart.
    + by injection Hstart as <- _ _ _.
    + apply bind_Ok in Hstart as (regs3 & d9 & _ & Hstart).
      destruct (BEFReader.ReadByte names2) as [[?|] ?];
        [by injection Hstart as <- _ _ _|].
      case_bool_decide; [|done]. by injection Hstart as <- _ _ _.
  - exists new_refs. split; [done|].
    eapply Forall_impl; [exact Hnew_refs|]. intros ref [Href Hin].
    split; [done|]. apply elem_of_app. by left.
Qed.

Lemma located_app regions_ new op :
  located regions_ op -> located (regions_ ++ new) op.
Proof.
  intros (loc & region & Hregion & Hop). exists loc, region.
  split; [|done]. by apply lookup_app_l_Some.
Qed.

Lemma ReadFunctions_loop_layout functions_ function_index_ names register_types
    function_context d function_context' d' :
  Forall (fun ref =>
            region_reference bef_file_ ref /\
            located (regions function_context) ref.1)
         (region_references function_context) ->
  ReadFunctions_loop functions_ function_index_ bef_file_ names register_types
                     function_context d = (Ok function_context', d') ->
  Forall (fun ref =>
            region_reference bef_file_ ref /\
            located (regions function_context') ref.1)
         (region_references function_context').
Proof.
  revert names register_types function_context d.
  induction function_index_ as [|f fs IH];
    intros names register_types function_context d Hrefs; simpl.
  - by intros [= <- _].
  - destruct (IsNativeFunction f).
    + apply IH. simpl. eapply Forall_impl; [exact Hrefs|].
      intros ref [Href Hlocated]. split; [done|]. by apply located_app.
    + intros E. apply bind_lift_Ok in E as (function & _ & E).
      apply bind_Ok in E
        as ([[[[loc region] names1] rt1] refs1] & d1 & Hfunction & E).
      apply ReadFunction_layout in Hfunction
        as (Hfn & Hptrs & _ & new_refs & -> & Hnew_refs).
      apply IH in E; [done|]. simpl. apply Forall_app. split.
      * eapply Forall_impl; [exact Hrefs|].
        intros ref [Href Hlocated]. split; [done|]. by apply located_app.
      * eapply Forall_impl; [exact Hnew_refs|]. intros ref [Href Hin].
        split; [done|]. apply list_elem_of_lookup_1 in Hin as [k Hk].
        exists loc, region. rewrite (Hptrs _ _ Hk). simpl. split; [|done].
        by rewrite lookup_app_r, Nat.sub_diag by lia.
Qed.

(** X21: the references to regions that the reading of the functions
    records are sound. Each is the reference of an operation that is in the
    region of one of the functions, at the place that its identity says, and
    no operation has two; the operation has as many region slots as the
    reference has indices, at least one; and every index is that of a
    function without a name. So a kernel that refers to a function without a
    name and to a named function is not read: it fails the check of the
    number of its regions. *)
Theorem ReadFunctions_records_the_regions_of_operations
    functions_ attribute_names register_types d function_context d' :
  ReadFunctions bef_file_ functions_ attribute_names register_types
                (mkContext [] []) d = (Ok function_context, d') ->
  NoDup (op_ptr <$> (region_references function_context).*1) /\
  Forall (fun ref =>
            region_reference bef_file_ ref /\
            located (regions function_context) ref.1)
         (region_references function_context).
Proof.
  unfold ReadFunctions. intros E. split.
  - apply ReadFunctions_loop_references in E as [Hnodup _]; [done|].
    split; simpl; constructor.
  - apply ReadFunctions_loop_layout in E; [done|]. constructor.
Qed.


End layout.

Lemma ReadFunctions_records_the_regions_of_operations_witness :
  exists function_context,
    BEFToMLIRConverter.ReadFunctions (H := Example.encoding)
      Example.nested_tables Example.nested_functions empty_ref empty_ref
      (mkContext [] []) []
    = (Ok function_context, []) /\
    (region_references function_context).*2 = [[1; 2]] /\
    NoDup (op_ptr <$> (region_references function_context).*1) /\
    Forall (fun ref =>
              region_reference Example.nested_tables ref /\
              located (regions function_context) ref.1)
           (region_references function_context).
Proof.
  eexists. split; [vm_compute; reflexivity|]. split; [reflexivity|].
  eapply (ReadFunctions_records_the_regions_of_operations
            (H := Example.encoding) Example.nested_tables
            Example.nested_functions empty_ref empty_ref []).
  vm_compute. reflexivity.
Defined.


(** ** The operation of a kernel *)

Section kernel_operation.
Import BEFFunctionReader.
Variable bef_file_ : BEFFile.

Lemma return_operands_Ok result_regs_ regs operands d operands' d' :
  return_operands bef_file_ result_regs_ regs operands d = (Ok operands', d') ->
  d' = d /\
  exists new,
    operands' = operands ++ new /\
    Forall2 (fun register_index v =>
               exists reg,
                 GetRegister regs register_index = Ok reg /\ value reg = Some v)
            result_regs_ new.
Proof.
  revert operands d.
  induction result_regs_ as [|ri rest IH]; intros operands d; simpl.
  - intros [= <- <-]. split; [done|]. exists []. rewrite app_nil_r.
    split; [done|constructor].
  - intros E. apply bind_lift_Ok in E as (reg & Hreg & E).
    destruct (value reg) as [v|] eqn:Hv; [|done].
    apply IH in E as (-> & new & -> & Hnew). split; [done|].
    exists (v :: new). rewrite <- app_assoc. split; [done|].
    constructor; [by exists reg|done].
Qed.

Lemma return_operands_undefined result_regs_ regs operands d
    (k : nat) register_index reg :
  result_regs_ !! k = Some register_index ->
  GetRegister regs register_index = Ok reg -> value reg = None ->
  (forall (j : nat) rj,
     (j < k)%nat -> result_regs_ !! j = Some rj ->
     exists reg', GetRegister regs rj = Ok reg' /\ value reg' <> None) ->
  return_operands bef_file_ result_regs_ regs operands d
  = (Failure,
     d ++ [mkDiag SevError (location bef_file_)
                  "Using an undefined register in return op."]).
Proof.
  revert k operands.
  induction result_regs_ as [|ri rest IH]; intros k operands; [done|].
  destruct k as [|k]; simpl.
  - intros [= ->] Hreg Hvalue _.
    erewrite bind_run; [|unfold lift_res; by rewrite Hreg].
    by rewrite Hvalue.
  - intros Hk Hreg Hvalue Hbefore.
    destruct (Hbefore 0%nat ri) as (reg0 & Hreg0 & Hvalue0); [lia|done|].
    erewrite bind_run; [|unfold lift_res; by rewrite Hreg0].
    destruct (value reg0); [|done].
    eapply IH; [done..|]. intros j rj Hj Hrj. apply (Hbefore (S j)); [lia|done].
Qed.

(** X23: the operands of the return operation of a function are the values
    of its result registers, in order, and nothing is reported for them.
    When a result register has no value, the first such is reported as an
    error, Using an undefined register in return op., and the kernels of the
    function are not read with success. *)
Theorem the_return_operation_takes_the_result_registers result_regs_ regs d :
  (forall operands d',
     return_operands bef_file_ result_regs_ regs [] d = (Ok operands, d') ->
     d' = d /\
     Forall2 (fun register_index v =>
                exists reg,
                  GetRegister regs register_index = Ok reg /\ value reg = Some v)
             result_regs_ operands) /\
  (forall (k : nat) register_index reg,
     result_regs_ !! k = Some register_index ->
     GetRegister regs register_index = Ok reg -> value reg = None ->
     (forall (j : nat) rj,
        (j < k)%nat -> result_regs_ !! j = Some rj ->
        exists reg', GetRegister regs rj = Ok reg' /\ value reg' <> None) ->
     return_operands bef_file_ result_regs_ regs [] d
     = (Failure,
        d ++ [mkDiag SevError (location bef_file_)
                     "Using an undefined register in return op."])).
Proof.
  split.
  - intros operands d' E.
    by apply return_operands_Ok in E as (-> & new & -> & Hnew).
  - intros *. apply return_operands_undefined.
Qed.

Lemma resolve_attributes_values n kernel e i names attrs attrs' names' :
  resolve_attributes bef_file_ n kernel e i names attrs = Ok (attrs', names') ->
  exists new,
    attrs' = attrs ++ new /\ length new = n /\
    forall j : nat,
      (j < n)%nat ->
      exists attribute_offset attribute_name,
        BEFKernel.entry kernel e (i + Z.of_nat j) = Ok attribute_offset /\
        new !! j
        = Some (attribute_name,
                default dummy_attribute
                        (GetAttribute bef_file_ attribute_offset)).
Proof.
  revert i names attrs. induction n as [|n IH]; intros i names attrs; simpl.
  - intros [= <- _]. exists []. rewrite app_nil_r. split; [done|].
    split; [done|]. intros j Hj. lia.
  - destruct (BEFKernel.entry kernel e i) as [attribute_offset| |] eqn:Hentry;
      [|done..]. simpl.
    destruct (match BEFReader.ReadInt names with
              | (Some o, r) => _ | (None, r) => _ end) as [attr_name names1].
    intros E. apply IH in E as (new & -> & Hlen & Hnew).
    eexists (_ :: new). rewrite <- app_assoc. split; [done|].
    split; [simpl; lia|]. intros [|j] Hj.
    + exists attribute_offset, attr_name. rewrite Z.add_0_r. split; [done|].
      simpl. by destruct (GetAttribute bef_file_ attribute_offset).
    + destruct (Hnew j) as (off & name_ & Hoff & Hj'); [lia|].
      exists off, name_.
      by replace (i + Z.of_nat (S j)) with (i + 1 + Z.of_nat j) by lia.
Qed.

Lemma resolve_functions_attributes n kernel functions i attrs regions_ indices d
    attrs' regions' indices' d' :
  resolve_functions bef_file_ n kernel functions i attrs regions_ indices d
  = (Ok (attrs', regions', indices'), d') ->
  exists callees,
    attrs' = attrs ++ callees /\ Forall (callee_of bef_file_) callees.
Proof.
  revert i attrs regions_ indices d.
  induction n as [|n IH]; intros i attrs regions_ indices d; simpl.
  - intros [= <- _ _ _]. exists []. by rewrite app_nil_r.
  - intros E. apply bind_lift_Ok in E as (fn_idx & _ & E).
    destruct (GetFunction bef_file_ fn_idx) as [bef_function|] eqn:Hfunction;
      [|done].
    destruct (IsNamedFunction bef_function) eqn:Hnamed.
    + apply IH in E as (callees & -> & Hcallees).
      eexists (_ :: callees). rewrite <- app_assoc. split; [done|].
      constructor; [|done]. by exists fn_idx, bef_function.
    + by apply IH in E.
Qed.


End kernel_operation.

Lemma the_return_operation_takes_the_result_registers_witness :
  BEFFunctionReader.return_operands Example.tables [1; 0]
    [Example.register 1 None; Example.register 0 (Some Example.argument)] [] []
  = (Failure,
     [] ++ [mkDiag SevError (location Example.tables)
                   "Using an undefined register in return op."]).
Proof.
  apply (proj2 (the_return_operation_takes_the_result_registers Example.tables
                  [1; 0]
                  [Example.register 1 None;
                   Example.register 0 (Some Example.argument)] [])
               1%nat 0 (Example.register 1 None)); [reflexivity..|].
  intros j rj Hj. destruct j as [|j]; [|lia]. intros [= <-].
  exists (Example.register 0 (Some Example.argument)). split; [reflexivity|].
  discriminate.
Defined.


(** ** The kinds of attributes *)

Section attribute_kinds.
Import BEFAttributeReader.
Context `{BEFEncoding}.
Variable attributes_ : ArrayRef.
Variable bef_file_ : BEFFile.

Lemma ReadIntegerAttribute_value reader bit_width d value reader' d' :
  ReadIntegerAttribute bef_file_ reader bit_width d
  = (Ok (Some value, reader'), d') ->
  bit_width ∈ [1; 32; 64] /\ 0 <= value < 2 ^ bit_width.
Proof.
  unfold ReadIntegerAttribute. cbv zeta.
  repeat case_bool_decide; subst;
    try (destruct (BEFReader.ReadBytesLE _ reader) as [[v|] r]; [|done];
         intros [= <- _ _]; split; [set_solver|apply Z.mod_pos_bound; lia]).
  done.
Qed.

Lemma ReadStandardAttribute_kind reader type_ d attr reader' d' :
  ReadStandardAttribute bef_file_ reader type_ d = (Ok (Some attr, reader'), d') ->
  has_kind AttributeTypeID.kStandardAttribute attr.
Proof.
  unfold ReadStandardAttribute. destruct type_ as [[width|width| |text]|];
    try done.
  - intros E. apply bind_Ok in E as ([[value|] r] & d1 & Hvalue & E); [|done].
    injection E as <- _ _. apply ReadIntegerAttribute_value in Hvalue. done.
  - intros E. apply bind_Ok in E as ([[value|] r] & d1 & Hvalue & E); [|done].
    injection E as <- _ _. unfold ReadFloatAttribute in Hvalue.
    case_bool_decide as Hwidth; [|done]. subst width.
    apply ReadIntegerAttribute_value in Hvalue as [_ Hvalue]. done.
Qed.

Lemma ReadBoolAttribute_kind reader d attr reader' d' :
  ReadBoolAttribute reader d = (Ok (Some attr, reader'), d') ->
  has_kind AttributeTypeID.kBoolAttribute attr.
Proof.
  unfold ReadBoolAttribute. destruct (BEFReader.ReadByte reader) as [[b|] r].
  - by intros [= <- _ _].
  - by intros [= ? _ _].
Qed.

Lemma ReadStringAttribute_kind reader d attr reader' d' :
  ReadStringAttribute attributes_ reader d = (Ok (Some attr, reader'), d') ->
  has_kind AttributeTypeID.kStringAttribute attr.
Proof.
  unfold ReadStringAttribute. intros E.
  apply bind_lift_Ok in E as (? & _ & E).
  apply bind_lift_Ok in E as (? & _ & E).
  apply bind_lift_Ok in E as (? & _ & E).
  destruct (_ <=? _); [|done]. by injection E as <- _ _.
Qed.

Lemma ReadTypeAttribute_kind reader d attr reader' d' :
  ReadTypeAttribute reader d = (Ok (Some attr, reader'), d') ->
  has_kind AttributeTypeID.kTypeAttribute attr.
Proof.
  unfold ReadTypeAttribute. destruct (BEFReader.ReadByte reader) as [[b|] r].
  - intros E. apply bind_lift_Ok in E as (? & _ & E). by injection E as <- _ _.
  - by intros [= ? _ _].
Qed.

Lemma ReadDenseElementsAttribute_kind reader d attr reader' d' :
  ReadDenseElementsAttribute bef_file_ reader d = (Ok (Some attr, reader'), d') ->
  has_kind AttributeTypeID.kDenseElementsAttribute attr.
Proof.
  unfold ReadDenseElementsAttribute.
  destruct (BEFReader.ReadInt8 reader) as [[?|] r1]; [|by intros [= ? _ _]].
  destruct (BEFReader.ReadInt8 r1) as [[?|] r2]; [|by intros [= ? _ _]].
  intros E. apply bind_lift_Ok in E as (? & _ & E).
  destruct (read_dims _ r2) as [[?|] r3]; [|by injection E as ? _ _].
  apply bind_Ok in E as ([? ?] & ? & _ & E). by injection E as <- _ _.
Qed.

Lemma ReadOffsetArrayAttribute_kind reader d attr reader' d' :
  ReadOffsetArrayAttribute attributes_ bef_file_ reader d
  = (Ok (Some attr, reader'), d') ->
  has_kind AttributeTypeID.kOffsetArrayAttribute attr.
Proof.
  unfold ReadOffsetArrayAttribute. intros E.
  apply bind_lift_Ok in E as (? & _ & E).
  apply bind_lift_Ok in E as (? & _ & E).
  case_bool_decide; [injection E as <- _ _; by right|].
  destruct (_ <=? _); [|done].
  apply bind_lift_Ok in E as (? & _ & E). injection E as <- _ _. by right.
Qed.

Lemma ReadAttribute_rec_kind depth reader attribute_type d attr reader' d' :
  ReadAttribute_rec attributes_ bef_file_ depth reader attribute_type d
  = (Ok (Some attr, reader'), d') ->
  has_kind (Z.land attribute_type AttributeTypeID.kAttributeTypeIDMask) attr.
Proof.
  destruct depth as [|depth]; cbn [ReadAttribute_rec]; cbv zeta.
  all: repeat case_bool_decide.
  all: try match goal with Hid : Z.land _ _ = _ |- _ => rewrite Hid end.
  all: eauto using ReadStandardAttribute_kind, ReadBoolAttribute_kind,
         ReadStringAttribute_kind, ReadTypeAttribute_kind,
         ReadDenseElementsAttribute_kind, ReadOffsetArrayAttribute_kind.
  all: try by intros [= ? _ _].
  all: intros E; apply bind_lift_Ok in E as (? & _ & E);
    apply bind_lift_Ok in E as (? & _ & E);
    (case_bool_decide; [injection E as <- _ _; by left|]); try done.
  apply bind_Ok in E as ([? ?] & ? & _ & E). injection E as <- _ _. by left.
Qed.

Lemma ReadAttribute_rec_unknown depth reader attribute_type d :
  Z.land attribute_type AttributeTypeID.kAttributeTypeIDMask = 7 ->
  ReadAttribute_rec attributes_ bef_file_ depth reader attribute_type d
  = (Ok (None, reader),
     d ++ [mkDiag SevError (location bef_file_) "Unknown attribute type"]).
Proof.
  intros Hid. destruct depth; cbn [ReadAttribute_rec]; cbv zeta; rewrite Hid;
    by rewrite !bool_decide_eq_false_2 by done.
Qed.

(** X25: an attribute that is read is of the kind of its descriptor. The
    three low bits of the descriptor say whether the attribute is a
    standard one (an integer of 1, 32 or 64 bits with a value of that many
    bits, or a float of 32 bits), a bool, a string, a type, dense elements,
    or an array (flat, or of offsets); a descriptor whose low bits are none
    of these gives no attribute and is reported as an error. *)
Theorem ReadAttribute_gives_the_kind_of_the_descriptor attribute_type offset d :
  (forall attr d',
     ReadAttribute attributes_ bef_file_ attribute_type offset d
     = (Ok (Some attr), d') ->
     has_kind (Z.land attribute_type AttributeTypeID.kAttributeTypeIDMask) attr) /\
  (Z.land attribute_type AttributeTypeID.kAttributeTypeIDMask = 7 ->
   0 <= offset <= ref_size attributes_ ->
   ReadAttribute attributes_ bef_file_ attribute_type offset d
   = (Ok None,
      d ++ [mkDiag SevError (location bef_file_) "Unknown attribute type"])).
Proof.
  unfold ReadAttribute, ReadAttribute_reader. split.
  - intros attr d' E. apply bind_lift_Ok in E as (reader & _ & E).
    apply bind_Ok in E as ([attr' reader'] & d1 & Hattr & E).
    injection E as -> <-. by eapply ReadAttribute_rec_kind.
  - intros Hid Hoffset. unfold drop_front.
    destruct (Z.leb_spec 0 offset); [|lia].
    destruct (Z.leb_spec offset (ref_size attributes_)); [|lia]. cbn [andb].
    unfold mbind, M_bind, Mbind_, lift_res.
    by rewrite ReadAttribute_rec_unknown.
Qed.

End attribute_kinds.

Lemma ReadAttribute_gives_the_kind_of_the_descriptor_witness :
  has_kind (Z.land 0 AttributeTypeID.kAttributeTypeIDMask)
           (IntegerAttr (IntegerType 32) 32 0x12345678).
Proof.
  eapply (proj1 (ReadAttribute_gives_the_kind_of_the_descriptor
                   (H := Example.encoding)
                   (mkArrayRef 0 [0x78; 0x56; 0x34; 0x12])
                   Example.tables 0 0 [])).
  vm_compute. reflexivity.
Defined.
